(** * Sort micro-benchmark harness (cpp/src/main.cpp): model and properties

    The harness parses its command line, loads a little-endian int32 dataset,
    sorts fresh copies of it (warmup, then timed repetitions) and writes one
    CSV row per timed repetition to the console and to an append-only log.

    The program is embedded as pure functions over strings (std::string is a
    byte string, so file contents, paths and rows are all [string]) and as a
    small state-and-exception monad over a [World] holding the file system,
    the two console streams, the clocks and the live vectors.

    What the model takes from the platform rather than from main.cpp:
    - paths are in the generic format with separator [/]; the file system
      is a tree of directories and regular files without symbolic links, in
      which every directory may be searched and written to, and paths are
      resolved against it as the system calls do, component by component,
      from the root or from the working directory; names stay within the
      length limits of the system and storage does not run out; the
      std::filesystem functions behave as libstdc++ implements them; one
      process runs at a time;
    - the host is little-endian with a 64-bit size_t (the source says so for
      the byte order); memory is unbounded, so no allocation fails;
    - opening a file can fail, writing to an open stream cannot;
    - std::sort and the two clocks are parameters of a run ([Env]); the sort
      routine is any function on vectors, so that a broken one is covered;
    - the std::exception objects are represented by their [what()] text. *)

From Stdlib Require Import ZArith Ascii String List Lia Sorted.
From stdpp Require Import gmap strings list fin_maps.

Local Open Scope Z_scope.

#[local] Arguments String.append !_ _ : simpl nomatch.
#[local] Arguments Ascii.eqb : simpl never.

(** ** std::string helpers *)

Module Str.

(** [hay.compare(0, needle.size(), needle) == 0]. *)
Fixpoint prefix (needle hay : string) : bool :=
  match needle, hay with
  | EmptyString, _ => true
  | String c n, String d h => if Ascii.eqb c d then prefix n h else false
  | String _ _, EmptyString => false
  end.

(** [s.find(needle)]: index of the first occurrence, [None] for [npos]. *)
Fixpoint find (hay needle : string) : option nat :=
  if prefix needle hay then Some 0%nat
  else match hay with
       | EmptyString => None
       | String _ rest => S <$> find rest needle
       end.

(** [s.substr(0, n)]. *)
Fixpoint substr0 (s : string) (n : nat) : string :=
  match n, s with
  | S k, String c rest => String c (substr0 rest k)
  | _, _ => EmptyString
  end.

(** [needle] occurs in [hay] at offset [i]. *)
Definition occurs_at (needle hay : string) (i : nat) : Prop :=
  ∃ pre post, hay = pre +:+ needle +:+ post ∧ String.length pre = i.

Definition occurs (needle hay : string) : Prop := ∃ i, occurs_at needle hay i.

Fixpoint contains (c : ascii) (s : string) : bool :=
  match s with
  | EmptyString => false
  | String d rest => if Ascii.eqb c d then true else contains c rest
  end.

Fixpoint concat (l : list string) : string :=
  match l with
  | [] => EmptyString
  | s :: rest => s +:+ concat rest
  end.

End Str.

(** ** std::filesystem::path decomposition (generic format, separator [/]) *)

Abbreviation sep := ("/"%char) (only parsing).

(** [fs::path(p).filename()]: what follows the last separator. *)
Fixpoint filename (p : string) : string :=
  match p with
  | EmptyString => EmptyString
  | String c rest =>
      if Str.contains sep rest then filename rest
      else if Ascii.eqb c sep then rest
      else p
  end.

(** ** infer_distribution *)

Definition infer_distribution (dataset_path : string) : string :=
  let base := filename dataset_path in
  match Str.find base "_n" with
  | None => "unknown"
  | Some pos => Str.substr0 base pos
  end.

(** ** Machine integers and their text forms *)

(** [static_cast<int>] of a wider value: two's-complement wrap to 32 bits. *)
Definition wrap_int (z : Z) : Z := (z + 2^31) mod 2^32 - 2^31.

Definition digit_char (d : Z) : ascii := ascii_of_N (Z.to_N (48 + d)).

Fixpoint dec_go (fuel : nat) (n : Z) (acc : string) : string :=
  match fuel with
  | O => acc
  | S k =>
      let acc' := String (digit_char (n mod 10)) acc in
      if n <? 10 then acc' else dec_go k (n / 10) acc'
  end.

(** Decimal digits of a non-negative number, no leading zero. *)
Definition dec (n : Z) : string := dec_go (S (Z.to_nat (Z.log2 n))) n "".

(** [std::to_string(int)]. *)
Definition to_string (v : Z) : string :=
  if v <? 0 then "-" +:+ dec (- v) else dec v.

(** ** Finite IEEE doubles and [std::fixed << std::setprecision(3)]

    A finite binary64 value is (-1)^neg * mant * 2^expo.  The elapsed time is
    a quotient of finite numbers by 10^6, so infinities and NaN do not arise
    and are not represented. *)

Record double := mkDouble { d_neg : bool; d_mant : Z; d_expo : Z }.

(** Nearest integer to num/den, ties to even (den > 0, num >= 0). *)
Definition round_half_even (num den : Z) : Z :=
  let q := num / den in
  let r := num mod den in
  if 2 * r <? den then q
  else if den <? 2 * r then q + 1
  else if Z.even q then q else q + 1.

(** num/den divided by 2^e, as a fraction. *)
Definition scale2 (num den e : Z) : Z * Z :=
  if 0 <=? e then (num, den * 2 ^ e) else (num * 2 ^ (- e), den).

(** Correctly rounded 53-bit significand of the positive rational num/den. *)
Definition round53 (num den : Z) : Z * Z :=
  let e1 := Z.log2 num - Z.log2 den - 52 in
  let '(n1, d1) := scale2 num den e1 in
  let e := if 2 ^ 52 <=? n1 / d1 then e1 else e1 - 1 in
  let '(n2, d2) := scale2 num den e in
  let m := round_half_even n2 d2 in
  if m =? 2 ^ 53 then (2 ^ 52, e + 1) else (m, e).

(** [std::chrono::duration<double, std::milli>(t1 - t0).count()] for a tick
    count in nanoseconds: the count is converted to double, then divided by
    the double 10^6, each step rounding to nearest-even. *)
Definition duration_ms (ticks : Z) : double :=
  if ticks =? 0 then mkDouble false 0 0
  else
    let '(m1, e1) := round53 (Z.abs ticks) 1 in
    let '(n, d) := scale2 m1 1000000 (- e1) in
    let '(m2, e2) := round53 n d in
    mkDouble (ticks <? 0) m2 e2.

Definition pad3 (x : Z) : string :=
  String (digit_char (x / 100))
    (String (digit_char (x / 10 mod 10)) (String (digit_char (x mod 10)) "")).

(** Thousandths of the magnitude of [v], rounded to nearest, ties to even
    (the exact conversion that printf-style fixed formatting performs). *)
Definition thousandths (v : double) : Z :=
  let '(n, d) := scale2 (d_mant v * 1000) 1 (- d_expo v) in
  round_half_even n d.

(** [oss << std::fixed << std::setprecision(3) << v]. *)
Definition fixed3 (v : double) : string :=
  let r := thousandths v in
  (if d_neg v then "-" else "") +:+ dec (r / 1000) +:+ "." +:+ pad3 (r mod 1000).

(** ** std::stoi *)

Inductive stoi_result := StoiValue (v : Z) | StoiInvalid | StoiOutOfRange.

Fixpoint skip_spaces (s : string) : string :=
  match s with
  | String c rest => if Ascii.is_space c then skip_spaces rest else s
  | EmptyString => s
  end.

(** Longest run of leading decimal digits, accumulated into a number;
    [None] when there is no digit. *)
Fixpoint digits_value (s : string) (acc : option Z) : option Z :=
  match s with
  | String c rest =>
      match Ascii.is_nat c with
      | Some d => digits_value rest (Some (10 * default 0 acc + Z.of_nat d))
      | None => acc
      end
  | EmptyString => acc
  end.

(** Optional white space, optional sign, digits; trailing text is ignored.
    No digit: std::invalid_argument; value outside int: std::out_of_range. *)
Definition stoi (s : string) : stoi_result :=
  let s1 := skip_spaces s in
  let '(neg, s2) :=
    match s1 with
    | String "-" rest => (true, rest)
    | String "+" rest => (false, rest)
    | _ => (false, s1)
    end in
  match digits_value s2 None with
  | None => StoiInvalid
  | Some m =>
      let v := if neg then - m else m in
      if (- 2^31 <=? v) && (v <=? 2^31 - 1) then StoiValue v else StoiOutOfRange
  end.

(** ** Little-endian dataset decoding *)

Definition byte_val (c : ascii) : Z := Z.of_N (N_of_ascii c).

(** The object representation of a 32-bit unsigned on a little-endian host. *)
Definition le_uint32 (b0 b1 b2 b3 : ascii) : Z :=
  Z.lor (byte_val b0)
    (Z.lor (Z.shiftl (byte_val b1) 8)
       (Z.lor (Z.shiftl (byte_val b2) 16) (Z.shiftl (byte_val b3) 24))).

(** The uint32_t whose four bytes of storage were filled from [header]. *)
Definition header_count (header : string) : Z :=
  match header with
  | String b0 (String b1 (String b2 (String b3 _))) => le_uint32 b0 b1 b2 b3
  | _ => 0
  end.

(** Reinterpretation of a 32-bit pattern as int32_t. *)
Definition as_int32 (u : Z) : Z := if u <? 2^31 then u else u - 2^32.

(** Elements of a payload read directly into the vector's storage. *)
Fixpoint decode_int32s (payload : string) : list Z :=
  match payload with
  | String b0 (String b1 (String b2 (String b3 rest))) =>
      as_int32 (le_uint32 b0 b1 b2 b3) :: decode_int32s rest
  | _ => []
  end.

(** [f.read(buf, k)] on the unread part of a stream: the k bytes and the new
    unread part, or [None] when fewer than k bytes are left (failbit). *)
Fixpoint istream_read (k : nat) (unread : string) : option (string * string) :=
  match k with
  | O => Some (EmptyString, unread)
  | S k' =>
      match unread with
      | EmptyString => None
      | String c rest =>
          '(got, rest') ← istream_read k' rest; Some (String c got, rest')
      end
  end.

(** What the dataset file holds for a 32-bit value (writer's side). *)
Definition byte_of (z : Z) : ascii := ascii_of_N (Z.to_N (z mod 256)).

Definition encode_le32 (v : Z) : string :=
  String (byte_of v)
    (String (byte_of (Z.shiftr v 8))
       (String (byte_of (Z.shiftr v 16)) (String (byte_of (Z.shiftr v 24)) ""))).

Definition encode_payload (vs : list Z) : string :=
  Str.concat (encode_le32 <$> vs).

Definition dataset_bytes (vs : list Z) : string :=
  encode_le32 (Z.of_nat (length vs)) +:+ encode_payload vs.

Definition int32_range (v : Z) : Prop := - 2^31 <= v < 2^31.

(** ** is_sorted_non_decreasing *)

Fixpoint is_sorted_loop (fuel i : nat) (a : list Z) : bool :=
  match fuel with
  | O => true
  | S k =>
      if (i + 1 <? length a)%nat then
        if nth i a 0 >? nth (i + 1) a 0 then false
        else is_sorted_loop k (S i) a
      else true
  end.

Definition is_sorted_non_decreasing (a : list Z) : bool :=
  is_sorted_loop (length a) 0 a.
(** ** The world the process runs in *)

Inductive node := Dir | File (content : string).

#[global] Instance node_eq_dec : EqDecision node.
Proof. solve_decision. Defined.

(** A place in the directory tree: the names on the way down from the root
    directory, which is the empty list. *)
Abbreviation name := (list string).

(** The file system: what lies below the root directory, and the working
    directory of the process, from which relative paths start. *)
Record FS := mkFS {
  entries : gmap (list string) node;
  cwd : list string
}.

Definition set_entries (m : gmap (list string) node) (t : FS) : FS :=
  mkFS m (cwd t).

(** Broken-down local time as std::tm holds it. *)
Record tm := mkTm {
  tm_year : Z; tm_mon : Z; tm_mday : Z; tm_hour : Z; tm_min : Z; tm_sec : Z
}.

(** What the process cannot decide itself: the sort routine it links
    against and what the two clocks answer at their k-th reading. *)
Record Env := mkEnv {
  std_sort : list Z → list Z;
  wall_clock : nat → tm;
  steady_clock : nat → Z
}.

(** File system requests the process makes, for telling which files it
    touched. *)
Inductive fs_call :=
| CallOpenIn (path : string)
| CallCreateDirectories (path : string)
| CallExists (path : string)
| CallOpenApp (path : string).

Record World := mkWorld {
  fs : FS;
  fs_calls : list fs_call;          (* requests made so far, oldest first *)
  cout : string;
  cerr : string;
  wall_reads : nat;
  steady_reads : nat;
  vectors : gmap nat (list Z);      (* live std::vector<int32_t> objects *)
  next_vector : nat;
  sort_inputs : list (nat * list Z) (* object and content at each std::sort call *)
}.

Definition set_fs (t : FS) (w : World) : World :=
  mkWorld t (fs_calls w) (cout w) (cerr w) (wall_reads w) (steady_reads w)
          (vectors w) (next_vector w) (sort_inputs w).

Definition log_call (c : fs_call) (w : World) : World :=
  mkWorld (fs w) (fs_calls w ++ [c]) (cout w) (cerr w) (wall_reads w)
          (steady_reads w) (vectors w) (next_vector w) (sort_inputs w).

Definition put_cout (s : string) (w : World) : World :=
  mkWorld (fs w) (fs_calls w) (cout w +:+ s) (cerr w) (wall_reads w)
          (steady_reads w) (vectors w) (next_vector w) (sort_inputs w).

Definition put_cerr (s : string) (w : World) : World :=
  mkWorld (fs w) (fs_calls w) (cout w) (cerr w +:+ s) (wall_reads w)
          (steady_reads w) (vectors w) (next_vector w) (sort_inputs w).

Definition tick_wall (w : World) : World :=
  mkWorld (fs w) (fs_calls w) (cout w) (cerr w) (S (wall_reads w))
          (steady_reads w) (vectors w) (next_vector w) (sort_inputs w).

Definition tick_steady (w : World) : World :=
  mkWorld (fs w) (fs_calls w) (cout w) (cerr w) (wall_reads w)
          (S (steady_reads w)) (vectors w) (next_vector w) (sort_inputs w).

Definition set_vectors (vs : gmap nat (list Z)) (next : nat)
    (log : list (nat * list Z)) (w : World) : World :=
  mkWorld (fs w) (fs_calls w) (cout w) (cerr w) (wall_reads w)
          (steady_reads w) vs next log.

(** ** Control: normal return, a propagating std::exception, std::exit *)

Inductive result (A : Type) :=
| Ret (a : A)
| Throw (what : string)
| Exit (code : Z).
Arguments Ret {A} a.
Arguments Throw {A} what.
Arguments Exit {A} code.

Definition M (A : Type) : Type := World → result A * World.

#[global] Instance M_ret : MRet M := λ A a w, (Ret a, w).

#[global] Instance M_bind : MBind M := λ A B f m w,
  match m w with
  | (Ret a, w') => f a w'
  | (Throw e, w') => (Throw e, w')
  | (Exit c, w') => (Exit c, w')
  end.

Definition throw {A} (what : string) : M A := λ w, (Throw what, w).
Definition exit {A} (code : Z) : M A := λ w, (Exit code, w).
Definition modify (f : World → World) : M unit := λ w, (Ret tt, f w).

Definition nl : string := String "010" "".

(** [std::cout << s] and [std::cerr << s]. *)
Definition cout_put (s : string) : M unit := modify (put_cout s).
Definition cerr_put (s : string) : M unit := modify (put_cerr s).

(** [for (int i = 0; i < hi; i++) body], unrolled at most [fuel] times. *)
Fixpoint for_loop (fuel : nat) (i hi : Z) (body : Z → M unit) : M unit :=
  match fuel with
  | O => mret tt
  | S k => if i <? hi then body i ;; for_loop k (i + 1) hi body else mret tt
  end.

Definition for_int (hi : Z) (body : Z → M unit) : M unit :=
  for_loop (Z.to_nat hi) 0 hi body.

(** ** Paths *)

Fixpoint all_sep (p : string) : bool :=
  match p with
  | EmptyString => true
  | String c rest => Ascii.eqb c sep && all_sep rest
  end.

(** The path up to and including its last separator. *)
Fixpoint remove_filename (p : string) : string :=
  match p with
  | EmptyString => EmptyString
  | String c rest =>
      if Str.contains sep rest then String c (remove_filename rest)
      else if Ascii.eqb c sep then String c EmptyString
      else EmptyString
  end.

Fixpoint strip_trailing_sep (p : string) : string :=
  match p with
  | EmptyString => EmptyString
  | String c rest =>
      if all_sep rest then (if Ascii.eqb c sep then EmptyString else String c EmptyString)
      else String c (strip_trailing_sep rest)
  end.

(** [fs::path(p).parent_path()]: a path with no relative part is its own
    parent; otherwise the last component and the separators before it are
    dropped, keeping a root directory as [/]. *)
Definition parent_path (p : string) : string :=
  if all_sep p then p
  else
    let q := remove_filename p in
    let r := strip_trailing_sep q in
    if decide (r = "") then (if decide (q = "") then "" else "/") else r.

(** The pieces between the separators of a path, empty ones included. *)
Fixpoint split_sep (p : string) : list string :=
  match p with
  | EmptyString => [EmptyString]
  | String c rest =>
      if Ascii.eqb c sep then EmptyString :: split_sep rest
      else match split_sep rest with
           | x :: xs => String c x :: xs
           | [] => [String c EmptyString]
           end
  end.

(** The components of a path: runs of separators count as one. *)
Definition components (p : string) : list string :=
  filter (λ c, c ≠ EmptyString) (split_sep p).

Definition absolute (p : string) : bool :=
  match p with
  | String c _ => Ascii.eqb c sep
  | EmptyString => false
  end.

(** ** Path resolution

    As the system calls resolve a path on a file system without symbolic
    links: component by component, from the root for an absolute path and
    from the working directory otherwise; every component is looked up in
    a directory, so what comes before it must be one. *)

Inductive errno := ENOENT | ENOTDIR | EEXIST | EINVAL | ENAMETOOLONG.

(** The text of std::generic_category().message(). *)
Definition strerror (e : errno) : string :=
  match e with
  | ENOENT => "No such file or directory"
  | ENOTDIR => "Not a directory"
  | EEXIST => "File exists"
  | EINVAL => "Invalid argument"
  | ENAMETOOLONG => "File name too long"
  end.

(** What is at a place; the root directory is always there. *)
Definition node_at (m : gmap (list string) node) (k : name) : option node :=
  if decide (k = []) then Some Dir else m !! k.

(** The place one component further; the parent of the root is the root. *)
Definition step (k : name) (c : string) : name :=
  if decide (c = ".") then k
  else if decide (c = "..") then removelast k
  else k ++ [c].

Fixpoint walk (m : gmap (list string) node) (k : name) (comps : list string)
  : errno + name :=
  match comps with
  | [] => inr k
  | c :: rest =>
      match node_at m k with
      | Some Dir => walk m (step k c) rest
      | Some (File _) => inl ENOTDIR
      | None => inl ENOENT
      end
  end.

Definition start (t : FS) (p : string) : name :=
  if absolute p then [] else cwd t.

(** The place a path names, whether or not the way there exists. *)
Definition place (t : FS) (p : string) : name :=
  foldl step (start t p) (components p).

(** Resolution of a whole path, as stat(2) and open(2) do it: the empty
    path names nothing, and a path that ends in a separator must lead to a
    directory. *)
Definition resolve (t : FS) (p : string) : errno + name :=
  if decide (p = "") then inl ENOENT
  else walk (entries t) (start t p)
         (components p ++ (if decide (filename p = "") then ["."] else [])).

(** [t !! p]: what [fs::status(p)] finds, [None] for file_type::not_found. *)
#[global] Instance FS_lookup : Lookup string node FS := λ p t,
  match resolve t p with
  | inr k => node_at (entries t) k
  | inl _ => None
  end.

(** What is stored at the place a path names. *)
Definition stored (t : FS) (p : string) : option node :=
  entries t !! place t p.

(** ** File system operations *)

(** [fs::create_directory(p)], that is mkdir(2), which ignores separators at
    the end of the path: a directory already there is no error. *)
Definition create_directory (p : string) (t : FS) : option errno * FS :=
  if decide (p = "") then (Some ENOENT, t)
  else
    match walk (entries t) (start t p) (components p) with
    | inl e => (Some e, t)
    | inr k =>
        match node_at (entries t) k with
        | Some Dir => (None, t)
        | Some (File _) => (Some EEXIST, t)
        | None => (None, set_entries (<[k := Dir]> (entries t)) t)
        end
    end.

(** The loop of libstdc++'s [fs::create_directories] that walks up from [pp]
    and collects the prefixes to be created, the outermost on top, until it
    meets something that exists.  It gives up beyond 1000 of them. *)
Fixpoint missing_dirs (fuel : nat) (t : FS) (pp : string)
    (missing : list string) : errno + list string :=
  match fuel with
  | O => inr missing
  | S fuel' =>
      let f := filename pp in
      let missing' :=
        if decide (f = "." ∨ f = "..") then missing else pp :: missing in
      if decide (1000 < length missing')%nat then inl ENAMETOOLONG
      else
        let up := parent_path pp in
        if decide (up = "") then inr missing'
        else
          match t !! up with
          | Some Dir => inr missing'
          | Some (File _) => inl ENOTDIR
          | None => missing_dirs fuel' t up missing'
          end
  end.

Fixpoint create_each (tops : list string) (t : FS) : option errno * FS :=
  match tops with
  | [] => (None, t)
  | top :: rest =>
      match create_directory top t with
      | (None, t') => create_each rest t'
      | (Some e, t') => (Some e, t')
      end
  end.

(** [fs::create_directories(p)]: nothing to do for an existing directory;
    an existing non-directory is an error; otherwise the missing prefixes
    of [p] are created, the outermost first.  The error, if any, is the
    code of the fs::filesystem_error thrown. *)
Definition create_directories (p : string) (t : FS) : option errno * FS :=
  if decide (p = "") then (Some EINVAL, t)
  else
    match t !! p with
    | Some Dir => (None, t)
    | Some (File _) => (Some ENOTDIR, t)
    | None =>
        let pp := if decide (filename p = "" ∧ all_sep p = false)
                  then parent_path p else p in
        match missing_dirs (String.length p) t pp [] with
        | inl e => (Some e, t)
        | inr missing => create_each missing t
        end
    end.

Definition fs_create_directories (p : string) : M unit := λ w,
  match create_directories p (fs w) with
  | (None, t) => (Ret tt, set_fs t (log_call (CallCreateDirectories p) w))
  | (Some e, t) =>
      (Throw ("filesystem error: cannot create directories: " +:+ strerror e
              +:+ " [" +:+ p +:+ "]"),
       set_fs t (log_call (CallCreateDirectories p) w))
  end.

Definition ensure_parent_dir (out_path : string) : M unit :=
  let p := parent_path out_path in
  if decide (p = "") then mret tt else fs_create_directories p.

Definition file_exists (path : string) : M bool := λ w,
  (Ret (bool_decide (is_Some (fs w !! path))), log_call (CallExists path) w).

(** [std::ofstream f(path, std::ios::app)], that is open(2) for appending
    with O_CREAT: succeeds on a regular file, and on an absent name in an
    existing directory (the file is created empty); fails on a directory,
    so also on a path that ends in a separator or in [.] or [..].  The
    result is the place of the opened file. *)
Definition open_app (path : string) (t : FS) : option (name * FS) :=
  if decide (filename path = "" ∨ filename path = "." ∨ filename path = "..")
  then None
  else
    match resolve t path with
    | inl _ => None
    | inr k =>
        match entries t !! k with
        | Some (File _) => Some (k, t)
        | Some Dir => None
        | None => Some (k, set_entries (<[k := File ""]> (entries t)) t)
        end
    end.

(** The stream after construction: the file it is open on, if any. *)
Definition ofstream_open_app (path : string) : M (option name) := λ w,
  match open_app path (fs w) with
  | Some (k, t) => (Ret (Some k), set_fs t (log_call (CallOpenApp path) w))
  | None => (Ret None, log_call (CallOpenApp path) w)
  end.

(** [f << s] on a stream opened for appending. *)
Definition ofstream_put (f : name) (s : string) : M unit :=
  modify (λ w,
    match entries (fs w) !! f with
    | Some (File c) =>
        set_fs (set_entries (<[f := File (c +:+ s)]> (entries (fs w))) (fs w)) w
    | _ => w
    end).

(** [std::ifstream f(path, std::ios::binary)]: the bytes to be read, or
    [None] when the stream cannot be opened.  A directory opens but yields
    no byte. *)
Definition ifstream_open (path : string) : M (option string) := λ w,
  (Ret match fs w !! path with
       | Some (File c) => Some c
       | Some Dir => Some EmptyString
       | None => None
       end,
   log_call (CallOpenIn path) w).

(** ** Clocks *)

Definition pad2 (x : Z) : string :=
  String (digit_char (x / 10 mod 10)) (String (digit_char (x mod 10)) "").

Definition wall_read (E : Env) : M tm := λ w,
  (Ret (wall_clock E (wall_reads w)), tick_wall w).

(** [std::chrono::steady_clock::now()], in ticks of one nanosecond. *)
Definition steady_now (E : Env) : M Z := λ w,
  (Ret (steady_clock E (steady_reads w)), tick_steady w).

(** [std::put_time(&tm, "%Y-%m-%dT%H:%M:%S")]. *)
Definition put_time (t : tm) : string :=
  to_string (tm_year t + 1900) +:+ "-" +:+ pad2 (tm_mon t + 1) +:+ "-" +:+
  pad2 (tm_mday t) +:+ "T" +:+ pad2 (tm_hour t) +:+ ":" +:+
  pad2 (tm_min t) +:+ ":" +:+ pad2 (tm_sec t).

Definition now_iso_local (E : Env) : M string :=
  t ← wall_read E; mret (put_time t).

(** ** std::vector<int32_t> objects *)

Definition vector_read (v : nat) : M (list Z) := λ w,
  (Ret (default [] (vectors w !! v)), w).

Definition vector_size (v : nat) : M nat :=
  xs ← vector_read v; mret (length xs).

(** A new vector object holding [xs]. *)
Definition vector_new (xs : list Z) : M nat := λ w,
  (Ret (next_vector w),
   set_vectors (<[next_vector w := xs]> (vectors w)) (S (next_vector w))
               (sort_inputs w) w).

(** [auto tmp = src;] copy construction. *)
Definition vector_copy (src : nat) : M nat :=
  xs ← vector_read src; vector_new xs.

(** [std::sort(v.begin(), v.end())]: sorts the object in place. *)
Definition vector_sort (E : Env) (v : nat) : M unit := λ w,
  let xs := default [] (vectors w !! v) in
  (Ret tt,
   set_vectors (<[v := std_sort E xs]> (vectors w)) (next_vector w)
               (sort_inputs w ++ [(v, xs)]) w).

(** End of the object's scope. *)
Definition vector_destroy (v : nat) : M unit := λ w,
  (Ret tt, set_vectors (delete v (vectors w)) (next_vector w) (sort_inputs w) w).
(** ** The program *)

Record Args := mkArgs {
  dataset : string;
  algo : string;
  warmup : Z;
  reps : Z;
  out : string;
  validate : bool
}.

Definition default_args : Args := mkArgs "" "builtin" 5 30 "results/raw.csv" true.

Definition usage_text : string :=
  "Usage:" +:+ nl +:+
  "  bench_cpp --dataset <path> [--algo builtin] [--warmup N] [--reps N] [--out <csv>] [--no-validate]"
  +:+ nl +:+ nl +:+
  "Example:" +:+ nl +:+
  "  bench_cpp --dataset datasets/ints/random_n100000_seed1.bin --warmup 5 --reps 30 --out results/raw.csv"
  +:+ nl.

Definition usage_and_exit {A} : M A := cerr_put usage_text;; exit 2.

Definition read_bin_int32_le (path : string) : M (list Z) :=
  f ← ifstream_open path;
  match f with
  | None => throw ("Failed to open: " +:+ path)
  | Some unread =>
      match istream_read 4 unread with
      | Some (header, unread1) =>
          let n := header_count header in
          (* n * sizeof(int32_t) is computed in the 64-bit size_t *)
          match istream_read (Z.to_nat ((n * 4) mod 2^64)) unread1 with
          | Some (payload, unread2) =>
              let values := decode_int32s payload in
              match istream_read 1 unread2 with
              | Some _ => throw ("File has extra trailing bytes: " +:+ path)
              | None => mret values
              end
          | None => throw ("Failed to read payload from: " +:+ path)
          end
      | None => throw ("Failed to read header from: " +:+ path)
      end
  end.

Definition header_line : string :=
  "timestamp_iso,task,language,language_version,algo,dataset_file,distribution,n,warmup_runs,rep_idx,time_ms,ok"
  +:+ nl.

(** What the loop [for i: if (i) s << ","; s << row[i]] sends to a stream,
    started at index [i]. *)
Fixpoint put_fields (i : nat) (row : list string) : string :=
  match row with
  | [] => EmptyString
  | x :: rest => (if i is O then "" else ",") +:+ x +:+ put_fields (S i) rest
  end.

Definition append_row (csv_path : string) (row : list string) : M unit :=
  ensure_parent_dir csv_path;;
  present ← file_exists csv_path;
  let new_file := negb present in
  opened ← ofstream_open_app csv_path;
  match opened with
  | None => throw ("Failed to open output CSV: " +:+ csv_path)
  | Some f =>
      (if new_file then ofstream_put f header_line else mret tt);;
      ofstream_put f (put_fields 0 row);;
      ofstream_put f nl
  end.

Definition need_value {A} (rest : list string)
    (k : string → list string → M A) : M A :=
  match rest with
  | [] => usage_and_exit
  | v :: rest' => k v rest'
  end.

(** The call [std::stoi(v)]; both of its exceptions report [what() = "stoi"]. *)
Definition stoi_call (v : string) : M Z :=
  match stoi v with
  | StoiValue z => mret z
  | StoiInvalid | StoiOutOfRange => throw "stoi"
  end.

Fixpoint parse_loop (a : Args) (argv : list string) : M Args :=
  match argv with
  | [] => mret a
  | arg :: rest =>
      if decide (arg = "--dataset") then
        need_value rest (λ v rest',
          parse_loop (mkArgs v (algo a) (warmup a) (reps a) (out a) (validate a)) rest')
      else if decide (arg = "--algo") then
        need_value rest (λ v rest',
          parse_loop (mkArgs (dataset a) v (warmup a) (reps a) (out a) (validate a)) rest')
      else if decide (arg = "--warmup") then
        need_value rest (λ v rest',
          z ← stoi_call v;
          parse_loop (mkArgs (dataset a) (algo a) z (reps a) (out a) (validate a)) rest')
      else if decide (arg = "--reps") then
        need_value rest (λ v rest',
          z ← stoi_call v;
          parse_loop (mkArgs (dataset a) (algo a) (warmup a) z (out a) (validate a)) rest')
      else if decide (arg = "--out") then
        need_value rest (λ v rest',
          parse_loop (mkArgs (dataset a) (algo a) (warmup a) (reps a) v (validate a)) rest')
      else if decide (arg = "--no-validate") then
        parse_loop (mkArgs (dataset a) (algo a) (warmup a) (reps a) (out a) false) rest
      else
        cerr_put ("Unknown arg: " +:+ arg +:+ nl);; usage_and_exit
  end.

(** [argv] is the whole vector, program name first. *)
Definition parse_args (argv : list string) : M Args :=
  a ← parse_loop default_args (tail argv);
  if decide (dataset a = "") then
    cerr_put ("--dataset is required" +:+ nl);; usage_and_exit
  else if (warmup a <? 0) || (reps a <=? 0) then
    cerr_put ("warmup must be >= 0 and reps must be > 0" +:+ nl);; exit 2
  else if negb (bool_decide (algo a = "builtin")) then
    cerr_put ("only --algo builtin is supported right now" +:+ nl);; exit 2
  else mret a.

Definition lang : string := "cpp".
Definition lang_ver : string := "c++20".

Definition warmup_rep (E : Env) (values : nat) (i : Z) : M unit :=
  tmp ← vector_copy values;
  vector_sort E tmp;;
  vector_destroy tmp.

(** The vector of twelve strings built for one measured repetition. *)
Definition make_row (stamp : string) (a : Args) (dist : string) (n rep : Z)
    (time_ms : double) (ok : bool) : list string :=
  [ stamp; "sort"; lang; lang_ver; algo a; dataset a; dist;
    to_string n; to_string (warmup a); to_string rep;
    fixed3 time_ms; if ok then "true" else "false" ].

Definition measured_rep (E : Env) (a : Args) (values : nat) (n : Z)
    (dist : string) (rep : Z) : M unit :=
  tmp ← vector_copy values;
  t0 ← steady_now E;
  vector_sort E tmp;;
  t1 ← steady_now E;
  let time_ms := duration_ms (t1 - t0) in
  sorted ← vector_read tmp;
  let ok := if validate a then is_sorted_non_decreasing sorted else true in
  stamp ← now_iso_local E;
  let row := make_row stamp a dist n rep time_ms ok in
  cout_put (put_fields 0 row);;
  cout_put nl;;
  append_row (out a) row;;
  vector_destroy tmp.

(** The two loops of [main], on the loaded vector object [values]. *)
Definition run_loops (E : Env) (a : Args) (values : nat) (n : Z)
    (dist : string) : M unit :=
  for_int (warmup a) (warmup_rep E values);;
  for_int (reps a) (measured_rep E a values n dist).

Definition main_try (E : Env) (argv : list string) : M Z :=
  a ← parse_args argv;
  loaded ← read_bin_int32_le (dataset a);
  values ← vector_new loaded;
  size ← vector_size values;
  let n := wrap_int (Z.of_nat size) in
  let dist := infer_distribution (dataset a) in
  run_loops E a values n dist;;
  mret 0.

(** The process: exit status and final world.  A std::exception reaching
    the handler is reported on the error stream with status 1. *)
Definition main (E : Env) (argv : list string) (w : World) : Z * World :=
  match main_try E argv w with
  | (Ret status, w') => (status, w')
  | (Exit status, w') => (status, w')
  | (Throw what, w') =>
      (1, snd (cerr_put ("Error: " +:+ what +:+ nl) w'))
  end.

(** ** Vocabulary of the statements *)

(** The text one call of [append_row] or one console echo adds for [row]. *)
Definition row_line (row : list string) : string := put_fields 0 row +:+ nl.

(** A name a regular file can have: the path does not end in a separator
    and its last component is neither [.] nor [..]. *)
Definition file_name (path : string) : Prop :=
  filename path ≠ "" ∧ filename path ≠ "." ∧ filename path ≠ "..".

(** The log exists as a regular file. *)
Definition log_open (path : string) (t : FS) : Prop :=
  file_name path ∧ ∃ c, t !! path = Some (File c).

(** The directory creation of [append_row] alone: the error code of the
    exception, if any, and the file system left. *)
Definition make_dirs (path : string) (t : FS) : option errno * FS :=
  if decide (parent_path path = "") then (None, t)
  else create_directories (parent_path path) t.

(** The file system with the directories made; [None] when that throws. *)
Definition prepare_dirs (path : string) (t : FS) : option FS :=
  match make_dirs path t with
  | (None, t1) => Some t1
  | (Some _, _) => None
  end.

(** The file system after the directory creation and the open that
    [append_row] performs on [path]; [None] when either fails. *)
Definition prepare_log (path : string) (t : FS) : option FS :=
  t1 ← prepare_dirs path t; snd <$> open_app path t1.

(** What the log holds before the next row is added: the content of the
    regular file stored at the place the path names, the header when
    a file is about to be created there. *)
Definition log_base (path : string) (t : FS) : string :=
  match stored t path with
  | Some (File c) => c
  | _ => header_line
  end.

(** The [what()] of the fs::filesystem_error of [create_directories]. *)
Definition dir_error (e : errno) (p : string) : string :=
  "filesystem error: cannot create directories: " +:+ strerror e
  +:+ " [" +:+ p +:+ "]".

(** How [append_row] fails when the log cannot be prepared: the [what()] of
    the exception that leaves it, and the file system it leaves. *)
Definition append_failure (path : string) (t : FS) : string * FS :=
  match make_dirs path t with
  | (Some e, t1) => (dir_error e (parent_path path), t1)
  | (None, t1) => ("Failed to open output CSV: " +:+ path, t1)
  end.

(** The file system with [content] in the regular file at the place the
    path names. *)
Definition write_log (path content : string) (t : FS) : FS :=
  set_entries (<[place t path := File content]> (entries t)) t.


(** The file system requests of one [append_row] call. *)
Definition append_calls (path : string) : list fs_call :=
  (if decide (parent_path path = "") then []
   else [CallCreateDirectories (parent_path path)])
  ++ [CallExists path; CallOpenApp path].

Definition log_calls (cs : list fs_call) (w : World) : World :=
  mkWorld (fs w) (fs_calls w ++ cs) (cout w) (cerr w) (wall_reads w)
          (steady_reads w) (vectors w) (next_vector w) (sort_inputs w).

(** The vector object [v] is live, holds [xs], and is older than every
    object still to be created. *)
Definition holds (w : World) (v : nat) (xs : list Z) : Prop :=
  vectors w !! v = Some xs ∧ (v < next_vector w)%nat.

(** [count] sort calls, each on a new object holding [xs], the objects being
    created one after the other from number [first] on. *)
Definition sorted_copies (first count : nat) (xs : list Z)
  : list (nat * list Z) :=
  (λ k, ((first + k)%nat, xs)) <$> seq 0 count.

(** The row of measured repetition [i] of a run on the dataset [xs] whose
    clocks had been read [wall0] and [steady0] times before. *)
Definition measured_row (E : Env) (a : Args) (xs : list Z)
    (wall0 steady0 i : nat) : list string :=
  make_row (put_time (wall_clock E (wall0 + i))) a
    (infer_distribution (dataset a))
    (wrap_int (Z.of_nat (length xs))) (Z.of_nat i)
    (duration_ms (steady_clock E (S (steady0 + 2 * i))
                  - steady_clock E (steady0 + 2 * i)))
    (if validate a then is_sorted_non_decreasing (std_sort E xs) else true).

Definition measured_rows (E : Env) (a : Args) (xs : list Z)
    (wall0 steady0 count : nat) : list (list string) :=
  measured_row E a xs wall0 steady0 <$> seq 0 count.

(** The rows of a run with the options [a] on the dataset [xs] that starts
    in the world [w]: one for each of the [reps a] measured repetitions. *)
Definition run_rows (E : Env) (a : Args) (xs : list Z) (w : World)
  : list (list string) :=
  measured_rows E a xs (wall_reads w) (steady_reads w) (Z.to_nat (reps a)).

(** The lines of a list of rows, in order. *)
Definition row_lines (rows : list (list string)) : string :=
  Str.concat (row_line <$> rows).

(** How the option loop can end: with the options read and the world as it
    was; with the exception of std::stoi; or through [usage_and_exit]. *)
Definition parse_loop_outcome (w : World) (r : result Args * World) : Prop :=
  match r with
  | (Ret a, w') => w' = w
  | (Throw e, w') => e = "stoi"%string ∧ w' = w
  | (Exit c, w') => c = 2 ∧ ∃ msg, w' = put_cerr (msg +:+ usage_text) w
  end.


(** Decimal digit characters, for the shape of rendered numbers. *)
Definition is_digit (c : ascii) : bool :=
  (48 <=? byte_val c) && (byte_val c <=? 57).

Fixpoint all_digits (s : string) : bool :=
  match s with
  | EmptyString => true
  | String c rest => is_digit c && all_digits rest
  end.

(** The number a string of decimal digits denotes. *)
Definition digit_val (c : ascii) : Z := byte_val c - 48.

Fixpoint decimal_value (s : string) : Z :=
  match s with
  | EmptyString => 0
  | String c rest =>
      digit_val c * 10 ^ Z.of_nat (String.length rest) + decimal_value rest
  end.

(** Number of occurrences of a character. *)
Fixpoint count_char (c : ascii) (s : string) : nat :=
  match s with
  | EmptyString => O
  | String d rest => ((if Ascii.eqb c d then 1 else 0) + count_char c rest)%nat
  end.


(** ** Sample file systems *)

(** The places on the way down to [k], the root and [k] itself apart. *)
Definition ancestors (k : name) : list name :=
  (λ i, take i k) <$> seq 1 (length k - 1).

(** Nothing below the root, which is also the working directory. *)
#[global] Instance FS_empty : Empty FS := mkFS ∅ [].

(** [<[p := n]> t]: the file system [t] with [n] at the place [p] names and
    directories on the way there. *)
#[global] Instance FS_insert : Insert string node FS := λ p n t,
  set_entries
    (<[place t p := n]>
       (foldr (λ d m, <[d := Dir]> m) (entries t) (ancestors (place t p)))) t.

(** ** Sample runs *)

Module Demo.

Fixpoint insert_sorted (x : Z) (l : list Z) : list Z :=
  match l with
  | [] => [x]
  | y :: rest => if x <=? y then x :: l else y :: insert_sorted x rest
  end.

Definition insertion_sort (l : list Z) : list Z := foldr insert_sorted [] l.

Definition clock_tm (k : nat) : tm := mkTm 126 9 30 4 2 (Z.of_nat k).

(** A correct sort, and a routine that leaves its input as it is. *)
Definition env : Env :=
  mkEnv insertion_sort clock_tm (λ k, Z.of_nat k * 1234567).
Definition env_broken : Env :=
  mkEnv (λ l, l) clock_tm (λ k, Z.of_nat k * 1234567).

Definition dataset_path : string := "data/random_n3_seed1.bin".

Definition world : World :=
  mkWorld (<[dataset_path := File (dataset_bytes [3; -1; 2])]> ∅)
          [] "" "" 0%nat 0%nat ∅ 0%nat [].

(** The same, with a regular file where the log's directory should be. *)
Definition world_blocked : World :=
  mkWorld (<["results" := File ""]>
             (<[dataset_path := File (dataset_bytes [3; -1; 2])]> ∅))
          [] "" "" 0%nat 0%nat ∅ 0%nat [].

Definition argv : list string :=
  ["bench_cpp"; "--dataset"; dataset_path; "--warmup"; "1"; "--reps"; "2";
   "--out"; "results/raw.csv"].

Definition args : Args := mkArgs dataset_path "builtin" 1 2 "results/raw.csv" true.

End Demo.


(** The messages of the two rejections that do not print the usage text. *)
Definition range_message : string :=
  "warmup must be >= 0 and reps must be > 0" +:+ nl.
Definition algo_message : string :=
  "only --algo builtin is supported right now" +:+ nl.

(** What a rejection by [parse_args] may add to the error stream. *)
Definition rejection_message (msg : string) : Prop :=
  (∃ m, msg = m +:+ usage_text) ∨ msg = range_message ∨ msg = algo_message.

(** ** Further vocabulary *)

(** The first character is a decimal digit. *)
Definition starts_with_digit (s : string) : bool :=
  match s with
  | String c _ => is_digit c
  | EmptyString => false
  end.

(** From [m] to [m'] nothing was changed or removed, and what was added
    are directories. *)
Definition grows (m m' : gmap (list string) node) : Prop :=
  ∀ k, m' !! k = m !! k ∨ (m !! k = None ∧ m' !! k = Some Dir).

(** Every file and directory lies in a directory, and so does the process. *)
Definition tree (t : FS) : Prop :=
  node_at (entries t) (cwd t) = Some Dir ∧
  ∀ k, is_Some (entries t !! k) →
       node_at (entries t) (removelast k) = Some Dir.

(** A check of [tree] that can be run. *)
Definition tree_ok (t : FS) : bool :=
  bool_decide (node_at (entries t) (cwd t) = Some Dir) &&
  bool_decide (map_Forall (λ k _, node_at (entries t) (removelast k) = Some Dir)
                          (entries t)).

(** The path leads to a directory, separators at its end apart. *)
Definition reaches (t : FS) (p : string) : Prop :=
  ∃ k, walk (entries t) (start t p) (components p) = inr k ∧
       node_at (entries t) k = Some Dir.

(** From [t] to [t'] every file and directory is as it was, and what was
    added are directories. *)
Definition dirs_added (t t' : FS) : Prop :=
  cwd t' = cwd t ∧ grows (entries t) (entries t').

(** From [t] to [t'] nothing but what is stored at the place [path] names was
    changed or removed, and what was added, that place apart, are
    directories; the working directory is the same. *)
Definition fs_extends (path : string) (t t' : FS) : Prop :=
  cwd t' = cwd t ∧
  ∀ k, k ≠ place t path →
       entries t' !! k = entries t !! k ∨
       (entries t !! k = None ∧ entries t' !! k = Some Dir).

(** A broken-down time as localtime_r fills it in, for the years 1000 to
    9999 (tm_year counts from 1900, tm_mon from 0; a leap second is 60). *)
Definition tm_valid (t : tm) : Prop :=
  1000 <= tm_year t + 1900 <= 9999 ∧ 0 <= tm_mon t <= 11 ∧
  1 <= tm_mday t <= 31 ∧ 0 <= tm_hour t <= 23 ∧
  0 <= tm_min t <= 59 ∧ 0 <= tm_sec t <= 60.

(** [s] is [k] decimal digits that denote [v]. *)
Definition digits_of (k : nat) (v : Z) (s : string) : Prop :=
  String.length s = k ∧ all_digits s = true ∧ decimal_value s = v.

(** The run ends with status 0 and nothing on the error stream, having
    added the lines of [rows], and nothing else, to the console and to the
    log named by the options [a]. *)
Definition records (E : Env) (argv : list string) (w : World) (a : Args)
    (rows : list (list string)) : Prop :=
  ∃ w', main E argv w = (0, w') ∧
        cout w' = cout w +:+ row_lines rows ∧ cerr w' = cerr w ∧
        fs w' !! out a =
          Some (File (log_base (out a) (fs w) +:+ row_lines rows)).
(** ** Facts about the string helpers *)

Section StrFacts.

Lemma append_nil_r (s : string) : s +:+ "" = s.
Proof. induction s as [|c s IH]; simpl; [done | by rewrite IH]. Qed.

Lemma append_assoc (a b c : string) : (a +:+ b) +:+ c = a +:+ b +:+ c.
Proof. induction a as [|x a IH]; simpl; [done | by rewrite IH]. Qed.

Lemma length_append (a b : string) :
  String.length (a +:+ b) = (String.length a + String.length b)%nat.
Proof. induction a as [|x a IH]; simpl; [done | by rewrite IH]. Qed.

Lemma prefix_true (n h : string) :
  Str.prefix n h = true ↔ ∃ post, h = n +:+ post.
Proof.
  revert h; induction n as [|c n IH]; intros h; simpl.
  - split; [intros _; by exists h | done].
  - destruct h as [|d h]; [split; [done | intros [? ?]; done] |].
    destruct (Ascii.eqb_spec c d) as [->|Hne].
    + rewrite IH. split; intros [post Hp]; exists post; by simplify_eq.
    + split; [done | intros [post Hp]; by simplify_eq].
Qed.

Lemma occurs_at_0 (n h : string) :
  Str.occurs_at n h 0 ↔ Str.prefix n h = true.
Proof.
  rewrite prefix_true. split.
  - intros (pre & post & -> & Hl). destruct pre; [|done]. by exists post.
  - intros [post ->]. by exists ""%string, post.
Qed.

Lemma occurs_at_S (n : string) c h i :
  Str.occurs_at n (String c h) (S i) ↔ Str.occurs_at n h i.
Proof.
  split.
  - intros (pre & post & Heq & Hl). destruct pre as [|d pre]; [done|].
    simpl in *. simplify_eq. by exists pre, post.
  - intros (pre & post & -> & Hl). exists (String c pre), post. simpl.
    split; [done | by rewrite Hl].
Qed.

Lemma occurs_at_nil (n : string) i :
  Str.occurs_at n "" i → n = ""%string ∧ i = 0%nat.
Proof.
  intros (pre & post & Heq & Hl). destruct pre; [|done].
  destruct n; [done | done].
Qed.

(** [find] returns the least offset at which the needle occurs. *)
Lemma find_Some (h n : string) (i : nat) :
  Str.find h n = Some i →
  Str.occurs_at n h i ∧ ∀ j, Str.occurs_at n h j → (i ≤ j)%nat.
Proof.
  revert i; induction h as [|c h IH]; intros i; simpl.
  - destruct (Str.prefix n "") eqn:Hp; [|done].
    intros [= <-]. split; [by apply occurs_at_0 | lia].
  - destruct (Str.prefix n (String c h)) eqn:Hp.
    + intros [= <-]. split; [by apply occurs_at_0 | lia].
    + destruct (Str.find h n) as [k|] eqn:Hf; [|done].
      simpl. intros [= <-]. destruct (IH k eq_refl) as [Hk Hmin]. split.
      * by apply occurs_at_S.
      * intros [|j] Hj.
        -- apply occurs_at_0 in Hj. congruence.
        -- apply occurs_at_S in Hj. apply Hmin in Hj. lia.
Qed.

Lemma find_None (h n : string) :
  Str.find h n = None → ¬ Str.occurs n h.
Proof.
  induction h as [|c h IH]; simpl.
  - destruct (Str.prefix n "") eqn:Hp; [done|].
    intros _ [i Hi]. destruct (occurs_at_nil _ _ Hi) as [-> _]. done.
  - destruct (Str.prefix n (String c h)) eqn:Hp; [done|].
    destruct (Str.find h n) eqn:Hf; [done|].
    intros _ [[|i] Hi].
    + apply occurs_at_0 in Hi. congruence.
    + apply occurs_at_S in Hi. apply IH; [done | by exists i].
Qed.

Lemma substr0_app (pre rest : string) :
  Str.substr0 (pre +:+ rest) (String.length pre) = pre.
Proof. induction pre as [|c pre IH]; simpl; [by destruct rest | by rewrite IH]. Qed.

Lemma filename_no_sep (base : string) :
  Str.contains sep base = false → filename base = base.
Proof.
  destruct base as [|c base]; [done|]. simpl.
  destruct (Ascii.eqb sep c) eqn:Hc; [done|]. intros ->.
  rewrite Ascii.eqb_sym, Hc. done.
Qed.

Lemma contains_app (c : ascii) (a b : string) :
  Str.contains c (a +:+ b) = Str.contains c a || Str.contains c b.
Proof.
  induction a as [|x a IH]; simpl; [done|]. by destruct (Ascii.eqb c x).
Qed.

(** Directory components are stripped: everything up to the last separator. *)
Lemma filename_strip_dir (dir base : string) :
  Str.contains sep base = false →
  filename (dir +:+ String sep base) = base.
Proof.
  intros Hb. induction dir as [|c dir IH]; simpl.
  - by rewrite Hb.
  - rewrite contains_app. simpl. by rewrite orb_true_r.
Qed.

End StrFacts.

(** ** infer_distribution *)

Section Infer.

Lemma infer_first_occurrence (path pre post : string) :
  filename path = pre +:+ "_n" +:+ post →
  (∀ j, Str.occurs_at "_n" (filename path) j → (String.length pre ≤ j)%nat) →
  infer_distribution path = pre.
Proof.
  intros Hbase Hleast. unfold infer_distribution.
  destruct (Str.find (filename path) "_n") as [pos|] eqn:Hf.
  - destruct (find_Some _ _ _ Hf) as [Hocc Hmin].
    assert (pos = String.length pre) as ->.
    { apply Nat.le_antisymm.
      - apply Hmin. exists pre, post. done.
      - by apply Hleast. }
    rewrite Hbase. apply substr0_app.
  - exfalso. apply (find_None _ _ Hf). exists (String.length pre), pre, post. done.
Qed.

Lemma infer_absent (path : string) :
  ¬ Str.occurs "_n" (filename path) → infer_distribution path = "unknown".
Proof.
  intros Hno. unfold infer_distribution.
  destruct (Str.find (filename path) "_n") as [pos|] eqn:Hf; [|done].
  exfalso. apply Hno. exists pos. by apply find_Some.
Qed.

Lemma infer_strips_directories (dir base : string) :
  Str.contains sep base = false →
  infer_distribution (dir +:+ String sep base) = infer_distribution base.
Proof.
  intros Hb. unfold infer_distribution.
  by rewrite filename_strip_dir, filename_no_sep.
Qed.

End Infer.

(** C8: the label is the part of the base file name before the first "_n",
    "unknown" when the base name has no "_n"; directory components play no
    role; the two examples of the specification evaluate as stated.  The
    function is total: every path has a label. *)
Theorem infer_distribution_spec (path : string) :
  (∀ pre post,
     filename path = pre +:+ "_n" +:+ post →
     (∀ j, Str.occurs_at "_n" (filename path) j → (String.length pre ≤ j)%nat) →
     infer_distribution path = pre) ∧
  (¬ Str.occurs "_n" (filename path) → infer_distribution path = "unknown") ∧
  (∀ dir base, path = dir +:+ String sep base → Str.contains sep base = false →
     filename path = base) ∧
  infer_distribution "random_n100000_seed1.bin" = "random" ∧
  infer_distribution "nodist.bin" = "unknown".
Proof.
  split; [|split; [|split; [|split]]].
  - intros pre post. apply infer_first_occurrence.
  - apply infer_absent.
  - intros dir base -> Hb. by apply filename_strip_dir.
  - reflexivity.
  - reflexivity.
Qed.

Lemma occurs_at_cons_inv (needle : string) c h j :
  Str.occurs_at needle (String c h) j →
  (j = 0%nat ∧ Str.prefix needle (String c h) = true) ∨
  (∃ k, j = S k ∧ Str.occurs_at needle h k).
Proof.
  destruct j as [|k]; intros H.
  - left. split; [done | by apply occurs_at_0].
  - right. exists k. split; [done | by apply occurs_at_S in H].
Qed.

Lemma infer_distribution_spec_witness :
  infer_distribution "ints/sorted_n100_n2.bin" = "sorted".
Proof.
  apply (proj1 (infer_distribution_spec "ints/sorted_n100_n2.bin")
           "sorted" "100_n2.bin").
  - reflexivity.
  - intros j Hj.
    change (filename "ints/sorted_n100_n2.bin") with "sorted_n100_n2.bin" in Hj.
    simpl.
    repeat (apply occurs_at_cons_inv in Hj as [[-> Hp]|[? [-> Hj]]];
            [vm_compute in Hp; try discriminate Hp; lia|]).
    lia.
Defined.

(** C10: a base name that starts with "_n" gets the empty label, which is
    then the distribution field of the rows. *)
Theorem infer_distribution_empty_label (path rest : string) :
  filename path = "_n" +:+ rest →
  infer_distribution path = "" ∧
  ∀ stamp a n rep time_ms ok,
    make_row stamp a (infer_distribution path) n rep time_ms ok !! 6%nat = Some "".
Proof.
  intros Hbase.
  assert (infer_distribution path = "") as ->; [|done].
  unfold infer_distribution. rewrite Hbase. reflexivity.
Qed.

Lemma infer_distribution_empty_label_witness :
  infer_distribution "datasets/_n100.bin" = "".
Proof.
  apply (proj1 (infer_distribution_empty_label "datasets/_n100.bin" "100.bin" eq_refl)).
Defined.

(** ** is_sorted_non_decreasing *)

Section Sorted.

Lemma is_sorted_loop_spec (a : list Z) (fuel i : nat) :
  (length a ≤ i + fuel)%nat →
  is_sorted_loop fuel i a = true ↔
  ∀ j, (i ≤ j)%nat → (j + 1 < length a)%nat → nth j a 0 <= nth (j + 1) a 0.
Proof.
  revert i. induction fuel as [|k IH]; intros i Hlen; simpl.
  - split; [intros _ j ? ?; lia | done].
  - destruct (i + 1 <? length a)%nat eqn:Hi.
    + apply Nat.ltb_lt in Hi.
      destruct (nth i a 0 >? nth (i + 1) a 0) eqn:Hgt.
      * split; [done|]. intros H. specialize (H i ltac:(lia) Hi). lia.
      * rewrite IH by lia. split.
        -- intros H j Hj Hj'. destruct (decide (j = i)) as [->|]; [lia|].
           apply H; lia.
        -- intros H j Hj Hj'. apply H; lia.
    + apply Nat.ltb_ge in Hi. split; [intros _ j ? ?; lia | done].
Qed.

Lemma is_sorted_non_decreasing_spec (a : list Z) :
  is_sorted_non_decreasing a = true ↔
  ∀ i, (i + 1 < length a)%nat → nth i a 0 <= nth (i + 1) a 0.
Proof.
  unfold is_sorted_non_decreasing. rewrite is_sorted_loop_spec by lia.
  split; intros H j; [apply H; lia | intros _; apply H].
Qed.

End Sorted.

(** ** The dataset format *)

Section Codec.

Lemma byte_val_byte_of (z : Z) : byte_val (byte_of z) = z mod 2^8.
Proof.
  unfold byte_val, byte_of.
  rewrite N_ascii_embedding.
  - rewrite Z2N.id; [done|]. apply Z.mod_pos_bound. lia.
  - change 256%N with (Z.to_N 256). apply Z2N.inj_lt; [| lia |];
      apply Z.mod_pos_bound; lia.
Qed.

Lemma le_uint32_encode (v : Z) :
  le_uint32 (byte_of v) (byte_of (Z.shiftr v 8)) (byte_of (Z.shiftr v 16))
            (byte_of (Z.shiftr v 24)) = v mod 2^32.
Proof.
  unfold le_uint32. rewrite !byte_val_byte_of.
  apply Z.bits_inj'. intros i Hi.
  rewrite !Z.lor_spec, !Z.shiftl_spec by lia.
  rewrite !Z.testbit_mod_pow2 by lia.
  destruct (Z.ltb_spec i 8); destruct (Z.ltb_spec (i - 8) 8);
    destruct (Z.ltb_spec (i - 16) 8); destruct (Z.ltb_spec (i - 24) 8);
    destruct (Z.ltb_spec i 32); try lia; simpl;
    rewrite ?orb_false_r, ?Z.shiftr_spec by lia;
    rewrite ?(Z.testbit_neg_r _ (i - 8)), ?(Z.testbit_neg_r _ (i - 16)),
      ?(Z.testbit_neg_r _ (i - 24)) by lia;
    rewrite ?orb_false_r; try done; f_equal; lia.
Qed.

Lemma as_int32_wrap (v : Z) : int32_range v → as_int32 (v mod 2^32) = v.
Proof.
  unfold int32_range, as_int32. intros Hv.
  destruct (Z.ltb_spec (v mod 2^32) (2^31)) as [Hlt|Hge].
  - destruct (decide (0 <= v)); [apply Z.mod_small; lia|].
    rewrite <- (Z.mod_add v 1) in Hlt by lia.
    rewrite Z.mod_small in Hlt; lia.
  - destruct (decide (0 <= v)).
    + rewrite Z.mod_small in Hge; lia.
    + rewrite <- (Z.mod_add v 1) by lia. rewrite Z.mod_small; lia.
Qed.

Lemma length_encode_payload (vs : list Z) :
  String.length (encode_payload vs) = (4 * length vs)%nat.
Proof.
  induction vs as [|v vs IH]; [done|].
  unfold encode_payload in *. rewrite fmap_cons. simpl.
  rewrite IH. lia.
Qed.

Lemma decode_encode_payload (vs : list Z) (tail : string) :
  Forall int32_range vs →
  String.length tail = 0%nat →
  decode_int32s (encode_payload vs +:+ tail) = vs.
Proof.
  intros Hvs Htail. destruct tail; [|done]. rewrite append_nil_r.
  induction Hvs as [|v vs Hv _ IH]; [done|].
  unfold encode_payload in *. rewrite fmap_cons. simpl.
  rewrite le_uint32_encode, as_int32_wrap by done. by rewrite IH.
Qed.

Lemma length_decode_int32s (payload : string) (n : nat) :
  String.length payload = (4 * n)%nat → length (decode_int32s payload) = n.
Proof.
  revert payload. induction n as [|n IH]; intros payload Hlen.
  - by destruct payload.
  - destruct payload as [|b0 [|b1 [|b2 [|b3 rest]]]]; simpl in Hlen; try lia.
    simpl. rewrite IH; [done | lia].
Qed.

Lemma istream_read_app (got unread : string) :
  istream_read (String.length got) (got +:+ unread) = Some (got, unread).
Proof.
  induction got as [|c got IH]; simpl; [done|]. by rewrite IH.
Qed.

Lemma istream_read_short (k : nat) (unread : string) :
  (String.length unread < k)%nat → istream_read k unread = None.
Proof.
  revert unread. induction k as [|k IH]; intros unread Hlen; [lia|].
  destruct unread as [|c rest]; [done|]. simpl in *. rewrite IH; [done | lia].
Qed.

Lemma header_count_encode (n : Z) :
  0 <= n < 2^32 → header_count (encode_le32 n) = n.
Proof.
  intros Hn. unfold encode_le32, header_count.
  rewrite le_uint32_encode. apply Z.mod_small. lia.
Qed.

Lemma lor_bound (a b n : Z) :
  0 <= a < 2^n → 0 <= b < 2^n → 0 <= Z.lor a b < 2^n.
Proof.
  intros Ha Hb. split; [apply Z.lor_nonneg; lia|].
  destruct (decide (0 <= n)) as [Hn|Hn];
    [|rewrite Z.pow_neg_r in Ha; lia].
  destruct (decide (Z.lor a b = 0)) as [->|Hne]; [lia|].
  assert (0 < Z.lor a b) by (pose proof (proj2 (Z.lor_nonneg a b)); lia).
  apply Z.log2_lt_pow2; [done|]. rewrite Z.log2_lor by lia.
  apply Z.max_lub_lt.
  - destruct (decide (a = 0)) as [->|]; [|apply Z.log2_lt_pow2; lia].
    simpl. destruct (decide (n = 0)) as [->|]; [|lia].
    assert (b = 0) as -> by lia. done.
  - destruct (decide (b = 0)) as [->|]; [|apply Z.log2_lt_pow2; lia].
    simpl. destruct (decide (n = 0)) as [->|]; [|lia].
    assert (a = 0) as -> by lia. done.
Qed.

Lemma byte_val_bound (c : ascii) : 0 <= byte_val c < 2^8.
Proof.
  unfold byte_val. pose proof (N_ascii_bounded c). lia.
Qed.

Lemma le_uint32_bound (b0 b1 b2 b3 : ascii) :
  0 <= le_uint32 b0 b1 b2 b3 < 2^32.
Proof.
  unfold le_uint32.
  pose proof (byte_val_bound b0). pose proof (byte_val_bound b1).
  pose proof (byte_val_bound b2). pose proof (byte_val_bound b3).
  repeat apply lor_bound; rewrite ?Z.shiftl_mul_pow2 by lia; lia.
Qed.

Lemma header_count_bound (header : string) : 0 <= header_count header < 2^32.
Proof.
  destruct header as [|b0 [|b1 [|b2 [|b3 rest]]]]; simpl; try lia.
  apply le_uint32_bound.
Qed.

#[local] Arguments istream_read : simpl never.

(** Every result of the loader, by the shape of the file. *)
Lemma read_bin_int32_le_cases (path : string) (w : World) :
  fst (read_bin_int32_le path w) =
  match fs w !! path with
  | None => Throw ("Failed to open: " +:+ path)
  | Some node =>
      let bytes := match node with File c => c | Dir => "" end in
      match istream_read 4 bytes with
      | None => Throw ("Failed to read header from: " +:+ path)
      | Some (header, rest) =>
          match istream_read (Z.to_nat (header_count header * 4)) rest with
          | None => Throw ("Failed to read payload from: " +:+ path)
          | Some (payload, "") => Ret (decode_int32s payload)
          | Some (payload, String _ _) =>
              Throw ("File has extra trailing bytes: " +:+ path)
          end
      end
  end.
Proof.
  unfold read_bin_int32_le, ifstream_open, mbind, M_bind, throw, mret, M_ret.
  simpl.
  destruct (fs w !! path) as [[|c]|]; simpl; [| |done].
  - done.
  - destruct (istream_read 4 c) as [[header rest]|]; [|done].
    rewrite (Z.mod_small (header_count header * 4)) by
      (pose proof (header_count_bound header); lia).
    destruct (istream_read _ rest) as [[payload [|x rest']]|]; done.
Qed.

(** The loader changes nothing but the record of file system requests. *)
Lemma read_bin_int32_le_world (path : string) (w : World) :
  snd (read_bin_int32_le path w) = log_call (CallOpenIn path) w.
Proof.
  unfold read_bin_int32_le, ifstream_open, mbind, M_bind, throw, mret, M_ret.
  simpl.
  destruct (fs w !! path) as [[|c]|]; simpl; [| |done].
  - done.
  - destruct (istream_read 4 c) as [[header rest]|]; [|done].
    destruct (istream_read _ rest) as [[payload [|x rest']]|]; done.
Qed.

End Codec.

#[local] Arguments istream_read : simpl never.

(** C3: a well-formed file of n values loads as exactly those n values in
    file order; a file shorter than its four-byte header, or whose payload is
    shorter than 4n bytes, is rejected with the read-failure errors (the
    specification's IOError); a file with bytes after the payload is rejected
    with the trailing-bytes error (the specification's FormatError). *)
Theorem read_bin_int32_le_spec (path : string) (w : World) :
  (∀ vs, fs w !! path = Some (File (dataset_bytes vs)) →
     Forall int32_range vs → Z.of_nat (length vs) < 2^32 →
     fst (read_bin_int32_le path w) = Ret vs) ∧
  (∀ n payload vs, fs w !! path = Some (File (encode_le32 n +:+ payload)) →
     0 <= n < 2^32 → Z.of_nat (String.length payload) = 4 * n →
     fst (read_bin_int32_le path w) = Ret vs →
     vs = decode_int32s payload ∧ Z.of_nat (length vs) = n) ∧
  (∀ c, fs w !! path = Some (File c) → (String.length c < 4)%nat →
     fst (read_bin_int32_le path w) =
       Throw ("Failed to read header from: " +:+ path)) ∧
  (∀ n payload, fs w !! path = Some (File (encode_le32 n +:+ payload)) →
     0 <= n < 2^32 → Z.of_nat (String.length payload) < 4 * n →
     fst (read_bin_int32_le path w) =
       Throw ("Failed to read payload from: " +:+ path)) ∧
  (∀ n payload extra,
     fs w !! path = Some (File (encode_le32 n +:+ payload +:+ extra)) →
     0 <= n < 2^32 → Z.of_nat (String.length payload) = 4 * n →
     extra ≠ "" →
     fst (read_bin_int32_le path w) =
       Throw ("File has extra trailing bytes: " +:+ path)).
Proof.
  assert (Hhdr : ∀ n rest, istream_read 4 (encode_le32 n +:+ rest)
                           = Some (encode_le32 n, rest)).
  { intros. apply (istream_read_app (encode_le32 n)). }
  split; [|split; [|split; [|split]]].
  - intros vs Hfile Hvs Hlen. rewrite read_bin_int32_le_cases, Hfile.
    cbv beta iota zeta.
    unfold dataset_bytes. rewrite Hhdr, header_count_encode by lia.
    replace (Z.to_nat (Z.of_nat (length vs) * 4))
      with (String.length (encode_payload vs))
      by (rewrite length_encode_payload; lia).
    rewrite <- (append_nil_r (encode_payload vs)) at 2.
    rewrite istream_read_app.
    rewrite <- (append_nil_r (encode_payload vs)).
    by rewrite decode_encode_payload.
  - intros n payload vs Hfile Hn Hlen.
    rewrite read_bin_int32_le_cases, Hfile. cbv beta iota zeta.
    rewrite Hhdr, header_count_encode by lia.
    replace (Z.to_nat (n * 4)) with (String.length payload) by lia.
    rewrite <- (append_nil_r payload) at 2. rewrite istream_read_app.
    intros [= <-]. split; [done|].
    rewrite (length_decode_int32s payload (Z.to_nat n)); lia.
  - intros c Hfile Hlen. rewrite read_bin_int32_le_cases, Hfile. cbv beta iota zeta.
    by rewrite istream_read_short.
  - intros n payload Hfile Hn Hlen. rewrite read_bin_int32_le_cases, Hfile.
    cbv beta iota zeta. rewrite Hhdr, header_count_encode by lia.
    rewrite istream_read_short; [done | lia].
  - intros n payload extra Hfile Hn Hlen Hextra.
    rewrite read_bin_int32_le_cases, Hfile. cbv beta iota zeta.
    rewrite Hhdr, header_count_encode by lia.
    replace (Z.to_nat (n * 4)) with (String.length payload) by lia.
    rewrite istream_read_app. by destruct extra.
Qed.

Lemma read_bin_int32_le_spec_witness :
  fst (read_bin_int32_le Demo.dataset_path Demo.world) = Ret [3; -1; 2] ∧
  fst (read_bin_int32_le "short.bin"
         (set_fs (<["short.bin" := File (encode_le32 2 +:+ encode_le32 7)]> ∅)
                 Demo.world))
    = Throw "Failed to read payload from: short.bin" ∧
  fst (read_bin_int32_le "long.bin"
         (set_fs (<["long.bin" := File (encode_le32 1 +:+ encode_le32 7 +:+ "!")]> ∅)
                 Demo.world))
    = Throw "File has extra trailing bytes: long.bin".
Proof.
  split; [|split].
  - apply (proj1 (read_bin_int32_le_spec Demo.dataset_path Demo.world)).
    + reflexivity.
    + repeat constructor; unfold int32_range; lia.
    + simpl. lia.
  - apply (proj1 (proj2 (proj2 (proj2
             (read_bin_int32_le_spec "short.bin" _)))) 2 (encode_le32 7)).
    + reflexivity.
    + lia.
    + simpl. lia.
  - apply (proj2 (proj2 (proj2 (proj2
             (read_bin_int32_le_spec "long.bin" _)))) 1 (encode_le32 7) "!").
    + reflexivity.
    + lia.
    + simpl. lia.
    + discriminate.
Defined.

(** ** Running monadic code *)

(** Reduction of the world's fields, leaving maps and strings alone. *)
Ltac wsimpl :=
  cbn [fs fs_calls cout cerr wall_reads steady_reads vectors next_vector
       sort_inputs set_fs log_call log_calls put_cout put_cerr tick_wall
       tick_steady set_vectors entries cwd set_entries fst snd default
       from_option negb].

Tactic Notation "wsimpl" "in" hyp(H) :=
  cbn [fs fs_calls cout cerr wall_reads steady_reads vectors next_vector
       sort_inputs set_fs log_call log_calls put_cout put_cerr tick_wall
       tick_steady set_vectors entries cwd set_entries fst snd default
       from_option negb] in H.

Lemma world_ext (w1 w2 : World) :
  fs w1 = fs w2 → fs_calls w1 = fs_calls w2 → cout w1 = cout w2 →
  cerr w1 = cerr w2 → wall_reads w1 = wall_reads w2 →
  steady_reads w1 = steady_reads w2 → vectors w1 = vectors w2 →
  next_vector w1 = next_vector w2 → sort_inputs w1 = sort_inputs w2 →
  w1 = w2.
Proof. destruct w1, w2. cbn. by intros -> -> -> -> -> -> -> -> ->. Qed.

(** Equality of two results with the same value, field by field. *)
Ltac world_eq := f_equal; apply world_ext; wsimpl; try reflexivity.

Section Monad.

Lemma bind_ret {A B} (m : M A) (f : A → M B) (w w' : World) (a : A) :
  m w = (Ret a, w') → (m ≫= f) w = f a w'.
Proof. intros H. unfold mbind, M_bind. by rewrite H. Qed.

Lemma bind_throw {A B} (m : M A) (f : A → M B) (w w' : World) (e : string) :
  m w = (Throw e, w') → (m ≫= f) w = (Throw e, w').
Proof. intros H. unfold mbind, M_bind. by rewrite H. Qed.

Lemma bind_exit {A B} (m : M A) (f : A → M B) (w w' : World) (c : Z) :
  m w = (Exit c, w') → (m ≫= f) w = (Exit c, w').
Proof. intros H. unfold mbind, M_bind. by rewrite H. Qed.

End Monad.

(** ** Paths and their components *)

Section Paths.

Lemma split_sep_nonempty (p : string) : split_sep p ≠ [].
Proof.
  induction p as [|c rest IH]; [done|]. cbn [split_sep].
  destruct (Ascii.eqb c sep); [done|]. by destruct (split_sep rest).
Qed.

Lemma split_sep_app (p q : string) :
  split_sep (p +:+ String sep q) = split_sep p ++ split_sep q.
Proof.
  induction p as [|c rest IH]; [done|].
  cbn [String.append split_sep]. rewrite IH.
  destruct (Ascii.eqb c sep); [done|].
  pose proof (split_sep_nonempty rest). by destruct (split_sep rest).
Qed.

Lemma components_app (p q : string) :
  components (p +:+ String sep q) = components p ++ components q.
Proof. unfold components. by rewrite split_sep_app, filter_app. Qed.

Lemma split_sep_plain (f : string) :
  Str.contains sep f = false → split_sep f = [f].
Proof.
  induction f as [|c rest IH]; [done|]. cbn [Str.contains split_sep].
  rewrite Ascii.eqb_sym. destruct (Ascii.eqb c sep); [done|].
  intros H. by rewrite (IH H).
Qed.

Lemma components_plain (f : string) :
  Str.contains sep f = false → f ≠ "" → components f = [f].
Proof.
  intros Hf Hne. unfold components. rewrite (split_sep_plain f Hf).
  by rewrite filter_cons_True.
Qed.

Lemma components_all_sep (s : string) : all_sep s = true → components s = [].
Proof.
  induction s as [|c rest IH]; [done|]. cbn [all_sep].
  intros [Hc Hrest]%andb_true_iff. apply Ascii.eqb_eq in Hc as ->.
  change (String sep rest) with ("" +:+ String sep rest).
  rewrite components_app. by rewrite IH.
Qed.

Lemma components_app_all_sep (p s : string) :
  all_sep s = true → components (p +:+ s) = components p.
Proof.
  destruct s as [|c rest]; [by rewrite append_nil_r|]. cbn [all_sep].
  intros [Hc Hrest]%andb_true_iff. apply Ascii.eqb_eq in Hc as ->.
  by rewrite components_app, (components_all_sep _ Hrest), app_nil_r.
Qed.

Lemma remove_filename_filename (p : string) :
  p = remove_filename p +:+ filename p.
Proof.
  induction p as [|c rest IH]; [done|]. cbn [remove_filename filename].
  destruct (Str.contains sep rest).
  - cbn [String.append]. by rewrite <- IH.
  - destruct (Ascii.eqb c sep); done.
Qed.

Lemma filename_plain (p : string) : Str.contains sep (filename p) = false.
Proof.
  induction p as [|c rest IH]; [done|]. cbn [filename].
  destruct (Str.contains sep rest) eqn:Hc; [done|].
  destruct (Ascii.eqb c sep) eqn:Hs; [done|].
  cbn [Str.contains]. by rewrite Ascii.eqb_sym, Hs.
Qed.

(** What [remove_filename] leaves is empty or ends in a separator. *)
Lemma remove_filename_shape (p : string) :
  remove_filename p = "" ∨ ∃ q, remove_filename p = q +:+ String sep "".
Proof.
  induction p as [|c rest IH]; [by left|]. cbn [remove_filename].
  destruct (Str.contains sep rest) eqn:Hc.
  - right. destruct IH as [H0|[q Hq]].
    + exfalso. clear -Hc H0. induction rest as [|d rest IH]; [done|].
      cbn [Str.contains remove_filename] in *.
      destruct (Str.contains sep rest); [done|].
      rewrite Ascii.eqb_sym in Hc. by destruct (Ascii.eqb d sep).
    + exists (String c q). by rewrite Hq.
  - destruct (Ascii.eqb c sep) eqn:Hs; [|by left].
    right. exists ""%string. by apply Ascii.eqb_eq in Hs as ->.
Qed.

Lemma strip_trailing_sep_split (q : string) :
  ∃ s, q = strip_trailing_sep q +:+ s ∧ all_sep s = true.
Proof.
  induction q as [|c rest (s & IH & Hs)]; [by exists ""%string|].
  cbn [strip_trailing_sep]. destruct (all_sep rest) eqn:Hrest.
  - destruct (Ascii.eqb c sep) eqn:Hc.
    + exists (String c rest). split; [done|]. cbn [all_sep]. by rewrite Hc.
    + by exists rest.
  - exists s. split; [|done]. cbn [String.append]. by rewrite <- IH.
Qed.

Lemma components_strip_trailing_sep (q : string) :
  components (strip_trailing_sep q) = components q.
Proof.
  destruct (strip_trailing_sep_split q) as (s & Hq & Hs).
  rewrite Hq at 2. by rewrite components_app_all_sep.
Qed.

Lemma components_remove_filename (p : string) :
  filename p ≠ "" →
  components p = components (remove_filename p) ++ [filename p].
Proof.
  intros Hf. rewrite (remove_filename_filename p) at 1.
  destruct (remove_filename_shape p) as [->|[q ->]].
  - cbn [String.append app]. apply components_plain; [apply filename_plain | done].
  - rewrite append_assoc. cbn [String.append].
    rewrite components_app, (components_plain (filename p))
      by (apply filename_plain || done).
    by rewrite components_app, app_nil_r.
Qed.

Lemma all_sep_contains (p : string) :
  all_sep p = true → p ≠ "" → Str.contains sep p = true.
Proof.
  destruct p as [|c rest]; [done|]. cbn [all_sep Str.contains].
  intros [Hc _]%andb_true_iff _. by rewrite Ascii.eqb_sym, Hc.
Qed.

Lemma all_sep_filename (p : string) : all_sep p = true → filename p = "".
Proof.
  induction p as [|c rest IH]; [done|]. cbn [all_sep filename].
  intros [Hc Hrest]%andb_true_iff. rewrite Hc.
  destruct rest as [|d rest']; [done|].
  rewrite (all_sep_contains _ Hrest) by done. by apply IH.
Qed.

Lemma contains_remove_filename (p : string) :
  Str.contains sep p = true → remove_filename p ≠ "".
Proof.
  destruct p as [|c rest]; [done|]. cbn [Str.contains remove_filename].
  destruct (Str.contains sep rest); [done|].
  rewrite Ascii.eqb_sym. by destruct (Ascii.eqb c sep).
Qed.

Lemma remove_filename_empty (p : string) :
  remove_filename p = "" → Str.contains sep p = false.
Proof.
  intros H. destruct (Str.contains sep p) eqn:Hc; [|done].
  by apply contains_remove_filename in Hc.
Qed.

Lemma strip_trailing_sep_empty (q : string) :
  strip_trailing_sep q = "" → all_sep q = true.
Proof.
  destruct q as [|c rest]; [done|]. cbn [strip_trailing_sep all_sep].
  destruct (all_sep rest); [|done]. by destruct (Ascii.eqb c sep).
Qed.

Lemma parent_path_all_sep (p : string) : all_sep p = true → parent_path p = p.
Proof. intros Hp. unfold parent_path. by rewrite Hp. Qed.

(** The components of the parent are those of the path but the last. *)
Lemma components_parent_path (p : string) :
  filename p ≠ "" →
  components p = components (parent_path p) ++ [filename p].
Proof.
  intros Hf. rewrite (components_remove_filename p Hf). f_equal.
  unfold parent_path.
  destruct (all_sep p) eqn:Hp; [by rewrite (all_sep_filename p Hp) in Hf|].
  case_decide as Hr.
  - apply strip_trailing_sep_empty in Hr.
    rewrite (components_all_sep _ Hr). by case_decide.
  - by rewrite components_strip_trailing_sep.
Qed.

Lemma absolute_app (p q : string) : p ≠ "" → absolute (p +:+ q) = absolute p.
Proof. by destruct p. Qed.

Lemma absolute_parent_path (p : string) :
  parent_path p ≠ "" → absolute (parent_path p) = absolute p.
Proof.
  unfold parent_path. destruct (all_sep p) eqn:Hp; [done|].
  destruct (strip_trailing_sep_split (remove_filename p)) as (s & Hq & Hs).
  pose proof (remove_filename_filename p) as Hsplit.
  case_decide as Hr.
  - case_decide as Hq0; [done|]. intros _.
    apply strip_trailing_sep_empty in Hr.
    rewrite Hsplit. destruct (remove_filename p) as [|c q']; [done|].
    cbn [all_sep] in Hr. apply andb_true_iff in Hr as [Hc _].
    apply Ascii.eqb_eq in Hc as ->. done.
  - intros _. rewrite Hsplit at 2. rewrite Hq at 2.
    by rewrite !absolute_app by (done || by destruct (strip_trailing_sep _)).
Qed.

Lemma contains_absolute (p : string) :
  Str.contains sep p = false → absolute p = false.
Proof.
  destruct p as [|c rest]; [done|]. cbn [Str.contains absolute].
  rewrite Ascii.eqb_sym. by destruct (Ascii.eqb c sep).
Qed.

(** A path without a parent is a single component, taken from the working
    directory. *)
Lemma parent_path_empty (p : string) :
  parent_path p = "" → Str.contains sep p = false.
Proof.
  unfold parent_path. destruct (all_sep p) eqn:Hp; [by intros ->|].
  case_decide as Hr; [|done]. case_decide as Hq; [|done]. intros _.
  by apply remove_filename_empty.
Qed.

(** The parent of a path with a relative part is strictly shorter. *)
Lemma length_remove_filename (p : string) :
  (String.length (remove_filename p) ≤ String.length p)%nat.
Proof.
  induction p as [|c rest IH]; [done|]. cbn [remove_filename].
  destruct (Str.contains sep rest); [cbn [String.length]; lia|].
  destruct (Ascii.eqb c sep); cbn [String.length]; lia.
Qed.

Lemma length_strip_remove_filename (p : string) :
  remove_filename p ≠ "" →
  (String.length (strip_trailing_sep (remove_filename p))
   < String.length (remove_filename p))%nat.
Proof.
  induction p as [|c rest IH]; [done|]. cbn [remove_filename].
  destruct (Str.contains sep rest) eqn:Hc.
  - intros _. pose proof (contains_remove_filename _ Hc) as Hne.
    cbn [strip_trailing_sep].
    destruct (all_sep (remove_filename rest)).
    + destruct (remove_filename rest); [done|].
      destruct (Ascii.eqb c sep); cbn [String.length]; lia.
    + cbn [String.length]. specialize (IH Hne). lia.
  - destruct (Ascii.eqb c sep) eqn:Hs; [|done]. intros _.
    cbn [strip_trailing_sep all_sep]. rewrite Hs. cbn [String.length]. lia.
Qed.

Lemma length_remove_filename_root (p : string) :
  all_sep p = false → all_sep (remove_filename p) = true →
  (String.length (remove_filename p) < String.length p)%nat.
Proof.
  induction p as [|c rest IH]; [done|]. cbn [remove_filename all_sep].
  destruct (Str.contains sep rest).
  - cbn [all_sep]. destruct (Ascii.eqb c sep); [|done]. cbn [andb].
    intros H1 H2. specialize (IH H1 H2). cbn [String.length]. lia.
  - destruct (Ascii.eqb c sep); cbn [andb].
    + intros H1 _. destruct rest; [done|]. cbn [String.length]. lia.
    + intros _ _. cbn [String.length]. lia.
Qed.

Lemma length_parent_path (p : string) :
  all_sep p = false →
  (String.length (parent_path p) < String.length p)%nat.
Proof.
  intros Hp. unfold parent_path. rewrite Hp.
  pose proof (length_remove_filename p) as Hq.
  destruct (decide (remove_filename p = "")) as [Hq0|Hq0].
  - rewrite Hq0. cbn [strip_trailing_sep]. rewrite !decide_True by done.
    destruct p; [done|]. cbn [String.length]. lia.
  - pose proof (length_strip_remove_filename p Hq0) as Hr.
    case_decide as Hr0.
    + pose proof (length_remove_filename_root p Hp
                    (strip_trailing_sep_empty _ Hr0)) as Hlt.
      destruct (remove_filename p); [done|]. cbn [String.length] in *. lia.
    + lia.
Qed.

End Paths.
(** ** Path resolution *)

Section Resolution.

Implicit Types (m : gmap (list string) node) (k : name) (t : FS).

Lemma walk_app m k (cs1 cs2 : list string) :
  walk m k (cs1 ++ cs2) =
  match walk m k cs1 with
  | inr k1 => walk m k1 cs2
  | inl e => inl e
  end.
Proof.
  revert k. induction cs1 as [|c cs1 IH]; intros k; [done|].
  cbn [app walk]. destruct (node_at m k) as [[|?]|]; [apply IH|done|done].
Qed.

(** Where a walk arrives does not depend on what the tree holds. *)
Lemma walk_place m k (cs : list string) k' :
  walk m k cs = inr k' → k' = foldl step k cs.
Proof.
  revert k. induction cs as [|c cs IH]; intros k; cbn [walk foldl].
  - by intros [= <-].
  - destruct (node_at m k) as [[|?]|]; [apply IH|done|done].
Qed.

Lemma node_at_dir m m' k :
  (∀ k, m !! k = Some Dir → m' !! k = Some Dir) →
  node_at m k = Some Dir → node_at m' k = Some Dir.
Proof. unfold node_at. intros H. case_decide; [done | apply H]. Qed.

(** A walk that succeeds still does when directories stay directories. *)
Lemma walk_mono m m' k (cs : list string) k' :
  (∀ k, m !! k = Some Dir → m' !! k = Some Dir) →
  walk m k cs = inr k' → walk m' k cs = inr k'.
Proof.
  intros Hd. revert k. induction cs as [|c cs IH]; intros k; cbn [walk]; [done|].
  destruct (node_at m k) as [[|?]|] eqn:Hk; [|done|done].
  rewrite (node_at_dir _ _ _ Hd Hk). apply IH.
Qed.

Lemma walk_snoc m k (cs : list string) (c : string) k' :
  walk m k (cs ++ [c]) = inr k' →
  ∃ k0, walk m k cs = inr k0 ∧ node_at m k0 = Some Dir ∧ k' = step k0 c.
Proof.
  rewrite walk_app. destruct (walk m k cs) as [e|k0]; [done|].
  cbn [walk]. destruct (node_at m k0) as [[|?]|] eqn:Hk; [|done|done].
  intros [= <-]. by exists k0.
Qed.

Lemma walk_snoc_dir m k (cs : list string) (c : string) k0 :
  walk m k cs = inr k0 → node_at m k0 = Some Dir →
  walk m k (cs ++ [c]) = inr (step k0 c).
Proof. intros Hw Hk. rewrite walk_app, Hw. cbn [walk]. by rewrite Hk. Qed.

Lemma step_plain k (c : string) : c ≠ "." → c ≠ ".." → step k c = k ++ [c].
Proof. intros. unfold step. by rewrite !decide_False. Qed.

Lemma grows_refl m : grows m m.
Proof. intros k. by left. Qed.

Lemma grows_trans m1 m2 m3 : grows m1 m2 → grows m2 m3 → grows m1 m3.
Proof.
  intros H12 H23 k. destruct (H12 k) as [E1|[N1 D1]], (H23 k) as [E2|[N2 D2]].
  - left. congruence.
  - right. split; congruence.
  - right. split; congruence.
  - congruence.
Qed.

Lemma grows_dir m m' k : grows m m' → m !! k = Some Dir → m' !! k = Some Dir.
Proof. intros H Hk. destruct (H k) as [E|[N _]]; congruence. Qed.

Lemma grows_file m m' k (c : string) :
  grows m m' → m' !! k = Some (File c) → m !! k = Some (File c).
Proof. intros H Hk. destruct (H k) as [E|[_ D]]; congruence. Qed.

Lemma grows_insert m k : m !! k = None → grows m (<[k := Dir]> m).
Proof.
  intros Hk k'. destruct (decide (k = k')) as [<-|Hne].
  - right. by rewrite lookup_insert_eq.
  - left. by rewrite lookup_insert_ne.
Qed.

Lemma file_name_decide (path : string) :
  file_name path ↔
  ¬ (filename path = "" ∨ filename path = "." ∨ filename path = "..").
Proof. unfold file_name. tauto. Qed.

Lemma file_name_nonempty (path : string) : file_name path → path ≠ "".
Proof. intros [Hf _] ->. by apply Hf. Qed.

(** For a path that can name a regular file, resolution is the walk along
    its components, and ends at the place it names. *)
Lemma resolve_file_name t (path : string) :
  file_name path →
  resolve t path = walk (entries t) (start t path) (components path).
Proof.
  intros Hn. unfold resolve.
  rewrite decide_False by (by apply file_name_nonempty).
  rewrite decide_False by apply Hn. by rewrite app_nil_r.
Qed.

Lemma resolve_place t (path : string) k :
  file_name path → resolve t path = inr k → k = place t path ∧ k ≠ [].
Proof.
  intros Hn. rewrite (resolve_file_name _ _ Hn). intros Hw.
  split; [by apply walk_place in Hw|].
  rewrite (components_parent_path path) in Hw by apply Hn.
  apply walk_snoc in Hw as (k0 & _ & _ & ->).
  destruct Hn as (_ & H1 & H2). rewrite step_plain by done.
  by destruct k0.
Qed.

Lemma resolve_mono t t' (path : string) k :
  cwd t' = cwd t →
  (∀ k, entries t !! k = Some Dir → entries t' !! k = Some Dir) →
  resolve t path = inr k → resolve t' path = inr k.
Proof.
  intros Hcwd Hd. unfold resolve, start. rewrite Hcwd.
  case_decide; [done|]. by apply walk_mono.
Qed.

Lemma place_cwd t t' (path : string) :
  cwd t' = cwd t → place t' path = place t path.
Proof. intros H. unfold place, start. by rewrite H. Qed.

Lemma lookup_resolved t (path : string) k :
  resolve t path = inr k → k ≠ [] → t !! path = entries t !! k.
Proof.
  intros Hr Hk. unfold lookup, FS_lookup. rewrite Hr. unfold node_at.
  by rewrite decide_False.
Qed.

(** What the path of a regular file tells: it resolves to the place it
    names, and the file is stored there. *)
Lemma lookup_file t (path c : string) :
  file_name path → t !! path = Some (File c) →
  resolve t path = inr (place t path) ∧ stored t path = Some (File c).
Proof.
  intros Hn Hl. pose proof Hl as Hl'. unfold lookup, FS_lookup in Hl.
  destruct (resolve t path) as [e|k] eqn:Hr; [done|].
  destruct (resolve_place _ _ _ Hn Hr) as [-> Hne]. split; [done|].
  unfold stored. by rewrite <- (lookup_resolved _ _ _ Hr Hne).
Qed.

Lemma lookup_stored t (path : string) :
  file_name path → resolve t path = inr (place t path) →
  t !! path = stored t path.
Proof.
  intros Hn Hr. destruct (resolve_place _ _ _ Hn Hr) as [_ Hne].
  by apply lookup_resolved.
Qed.

(** The directory of an existing file exists. *)
Lemma lookup_parent_path t (path : string) k :
  file_name path → resolve t path = inr k →
  parent_path path = "" ∨ t !! parent_path path = Some Dir.
Proof.
  intros Hn. rewrite (resolve_file_name _ _ Hn).
  rewrite (components_parent_path path) by apply Hn.
  intros (k0 & Hw & Hk0 & _)%walk_snoc.
  destruct (decide (parent_path path = "")) as [|Hp]; [by left|]. right.
  unfold lookup, FS_lookup, resolve. rewrite decide_False by done.
  unfold start in *. rewrite (absolute_parent_path _ Hp).
  rewrite walk_app, Hw. case_decide.
  - cbn [walk]. rewrite Hk0. unfold step. rewrite decide_True by done.
    exact Hk0.
  - exact Hk0.
Qed.

End Resolution.

(** ** The result recorder *)

Section Recorder.

#[local] Opaque header_line.

Implicit Types (m : gmap (list string) node) (k : name) (t : FS).

Lemma create_directory_grows (p : string) t (e : option errno) t' :
  create_directory p t = (e, t') →
  cwd t' = cwd t ∧ grows (entries t) (entries t').
Proof.
  unfold create_directory. case_decide.
  { intros [= _ <-]. split; [done | apply grows_refl]. }
  destruct (walk _ _ _) as [e'|k]; [intros [= _ <-]; split; [done | apply grows_refl]|].
  unfold node_at. case_decide as Hk.
  { intros [= _ <-]. split; [done | apply grows_refl]. }
  destruct (entries t !! k) as [[|c]|] eqn:Hl; intros [= _ <-];
    (split; [done|]); [apply grows_refl | apply grows_refl |].
  cbn [entries set_entries]. by apply grows_insert.
Qed.

Lemma create_each_grows (tops : list string) t (e : option errno) t' :
  create_each tops t = (e, t') →
  cwd t' = cwd t ∧ grows (entries t) (entries t').
Proof.
  revert t. induction tops as [|top rest IH]; intros t; cbn [create_each].
  - intros [= _ <-]. split; [done | apply grows_refl].
  - destruct (create_directory top t) as [[e1|] t1] eqn:H1.
    + intros [= _ <-]. by apply create_directory_grows in H1.
    + intros H2. apply create_directory_grows in H1 as [Hc1 Hg1].
      apply IH in H2 as [Hc2 Hg2]. split; [congruence|].
      by apply (grows_trans _ (entries t1)).
Qed.

(** [create_directories] changes or removes nothing; it only adds
    directories, also when it fails. *)
Lemma create_directories_grows (p : string) t (e : option errno) t' :
  create_directories p t = (e, t') →
  cwd t' = cwd t ∧ grows (entries t) (entries t').
Proof.
  unfold create_directories. case_decide.
  { intros [= _ <-]. split; [done | apply grows_refl]. }
  destruct (t !! p) as [[|c]|];
    [intros [= _ <-]; split; [done | apply grows_refl] ..|].
  destruct (missing_dirs _ _ _ _) as [e'|missing].
  - intros [= _ <-]. split; [done | apply grows_refl].
  - apply create_each_grows.
Qed.

Lemma create_directories_present (p : string) t :
  t !! p = Some Dir → create_directories p t = (None, t).
Proof.
  intros Hp. unfold create_directories. case_decide as H0.
  - subst p. by unfold lookup, FS_lookup, resolve in Hp.
  - by rewrite Hp.
Qed.

Lemma prepare_dirs_grows (path : string) t t1 :
  prepare_dirs path t = Some t1 →
  cwd t1 = cwd t ∧ grows (entries t) (entries t1).
Proof.
  unfold prepare_dirs, make_dirs. case_decide.
  - intros [= <-]. split; [done | apply grows_refl].
  - destruct (create_directories _ t) as [[e|] t'] eqn:Hc; [done|].
    intros [= <-]. by apply create_directories_grows in Hc.
Qed.

Lemma open_app_inv (path : string) t k t2 :
  open_app path t = Some (k, t2) →
  file_name path ∧ k = place t path ∧ resolve t path = inr k ∧
  ((∃ c, entries t !! k = Some (File c) ∧ t2 = t) ∨
   (entries t !! k = None ∧
    t2 = set_entries (<[k := File ""]> (entries t)) t)).
Proof.
  unfold open_app. case_decide as Hn; [done|].
  apply file_name_decide in Hn.
  destruct (resolve t path) as [e|k'] eqn:Hr; [done|].
  destruct (resolve_place _ _ _ Hn Hr) as [Hk' _].
  destruct (entries t !! k') as [[|c]|] eqn:Hl; [done| |].
  - intros [= <- <-]. split; [done|]. split; [done|]. split; [done|].
    left. by exists c.
  - intros [= <- <-]. split; [done|]. split; [done|]. split; [done|].
    by right.
Qed.

(** Writing into a regular file leaves every path leading where it led. *)
Lemma resolve_write_log (path content : string) t (q : string) k (c : string) :
  stored t path = Some (File c) →
  resolve t q = inr k → resolve (write_log path content t) q = inr k.
Proof.
  intros Hs. apply resolve_mono; [done|]. intros k' Hk'.
  unfold write_log. cbn [entries set_entries].
  rewrite lookup_insert_ne; [done|]. intros <-. unfold stored in Hs. congruence.
Qed.

Lemma lookup_write_log (path content : string) t :
  log_open path t → write_log path content t !! path = Some (File content).
Proof.
  intros [Hn [c Hc]]. destruct (lookup_file _ _ _ Hn Hc) as [Hr Hs].
  pose proof (resolve_write_log path content t path _ c Hs Hr) as Hr'.
  destruct (resolve_place _ _ _ Hn Hr) as [_ Hne].
  rewrite (lookup_resolved _ _ _ Hr' Hne).
  unfold write_log. cbn [entries set_entries]. apply lookup_insert_eq.
Qed.

Lemma log_open_write_log (path content : string) t :
  log_open path t → log_open path (write_log path content t).
Proof.
  intros Ho. split; [apply Ho|]. exists content. by apply lookup_write_log.
Qed.

Lemma log_base_write_log (path content : string) t :
  log_base path (write_log path content t) = content.
Proof.
  unfold log_base, stored, write_log, place, start. cbn [entries cwd set_entries].
  by rewrite lookup_insert_eq.
Qed.

Lemma write_log_write_log (path c1 c2 : string) t :
  write_log path c2 (write_log path c1 t) = write_log path c2 t.
Proof.
  unfold write_log, set_entries, place, start. cbn [entries cwd].
  by rewrite insert_insert_eq.
Qed.

Lemma log_base_open (path : string) t (c : string) :
  file_name path → t !! path = Some (File c) → log_base path t = c.
Proof.
  intros Hn Hc. destruct (lookup_file _ _ _ Hn Hc) as [_ Hs].
  unfold log_base. by rewrite Hs.
Qed.

Lemma prepare_log_open (path : string) t :
  log_open path t →
  prepare_dirs path t = Some t ∧ open_app path t = Some (place t path, t).
Proof.
  intros [Hn [c Hc]]. destruct (lookup_file _ _ _ Hn Hc) as [Hr Hs]. split.
  - unfold prepare_dirs, make_dirs. case_decide; [done|].
    destruct (lookup_parent_path _ _ _ Hn Hr) as [|Hd]; [done|].
    by rewrite (create_directories_present _ _ Hd).
  - unfold open_app. rewrite decide_False by (by apply file_name_decide).
    rewrite Hr. unfold stored in Hs. by rewrite Hs.
Qed.

Lemma prepare_log_of_open (path : string) t :
  log_open path t → prepare_log path t = Some t.
Proof.
  intros Hopen. destruct (prepare_log_open _ _ Hopen) as [Hd Ho].
  unfold prepare_log. rewrite Hd. cbn. by rewrite Ho.
Qed.

(** What a successful preparation goes through and leaves behind: the
    directories are made without touching what is stored at the log's
    place, then the log is opened, created empty if it was absent. *)
Lemma prepare_log_inv (path : string) t t2 :
  prepare_log path t = Some t2 →
  ∃ t1, prepare_dirs path t = Some t1 ∧
        open_app path t1 = Some (place t path, t2) ∧
        file_name path ∧ resolve t1 path = inr (place t path) ∧
        cwd t1 = cwd t ∧ grows (entries t) (entries t1) ∧
        stored t1 path = stored t path ∧ stored t path ≠ Some Dir ∧
        t2 = match stored t path with
             | None => write_log path "" t1
             | Some _ => t1
             end ∧
        log_open path t2.
Proof.
  unfold prepare_log. intros Hprep.
  destruct (prepare_dirs path t) as [t1|] eqn:Hmk; [|done].
  cbn in Hprep. destruct (open_app path t1) as [[k t2']|] eqn:Hopen; [|done].
  cbn in Hprep. injection Hprep as ->.
  destruct (prepare_dirs_grows _ _ _ Hmk) as [Hcwd Hg].
  destruct (open_app_inv _ _ _ _ Hopen) as (Hn & -> & Hr & Hcase).
  rewrite (place_cwd _ _ path Hcwd) in *.
  exists t1. split; [done|]. split; [done|]. split; [done|]. split; [done|].
  split; [done|]. split; [done|].
  assert (Hst : stored t1 path = entries t1 !! place t path).
  { unfold stored. by rewrite (place_cwd _ _ path Hcwd). }
  destruct (resolve_place _ _ _ Hn Hr) as [_ Hne].
  destruct Hcase as [(c & Hc & ->)|[Hc ->]].
  - assert (Hs : stored t path = Some (File c)).
    { by apply (grows_file _ _ _ _ Hg). }
    rewrite Hst, Hc, Hs. split; [done|]. split; [done|]. split; [done|].
    split; [done|]. exists c. by rewrite (lookup_resolved _ _ _ Hr Hne).
  - assert (Hs : stored t path = None).
    { unfold stored. destruct (Hg (place t path)) as [<-|[? ?]]; congruence. }
    rewrite Hst, Hc, Hs. split; [done|]. split; [done|].
    split. { unfold write_log. by rewrite (place_cwd _ _ path Hcwd). }
    split; [done|]. exists ""%string.
    assert (Hr' : resolve (set_entries (<[place t path:=File ""]> (entries t1)) t1)
                    path = inr (place t path)).
    { apply (resolve_mono t1); [done| |done]. intros k' Hk'.
      cbn [entries set_entries]. rewrite lookup_insert_ne; [done|]. congruence. }
    rewrite (lookup_resolved _ _ _ Hr' Hne). cbn [entries set_entries].
    apply lookup_insert_eq.
Qed.

Lemma prepare_log_log_open (path : string) t t2 :
  prepare_log path t = Some t2 → log_open path t2.
Proof.
  intros Hprep.
  by destruct (prepare_log_inv _ _ _ Hprep)
    as (_ & _ & _ & _ & _ & _ & _ & _ & _ & _ & ?).
Qed.

End Recorder.
Section AppendRow.

#[local] Opaque header_line.

Lemma ensure_parent_dir_run (path : string) (w : World) (t1 : FS) :
  prepare_dirs path (fs w) = Some t1 →
  ensure_parent_dir path w =
    (Ret tt,
     set_fs t1 (log_calls (if decide (parent_path path = "") then []
                           else [CallCreateDirectories (parent_path path)]) w)).
Proof.
  unfold prepare_dirs, make_dirs, ensure_parent_dir. case_decide.
  - intros [= <-]. unfold mret, M_ret. world_eq. by rewrite app_nil_r.
  - unfold fs_create_directories.
    destruct (create_directories _ _) as [[e|] t']; [done|]. by intros [= <-].
Qed.

(** One call of [ensure_parent_dir], whatever its outcome. *)
Lemma ensure_parent_dir_cases (path : string) (w : World) :
  ensure_parent_dir path w =
    (match fst (make_dirs path (fs w)) with
     | None => Ret tt
     | Some e => Throw (dir_error e (parent_path path))
     end,
     set_fs (snd (make_dirs path (fs w)))
       (log_calls (if decide (parent_path path = "") then []
                   else [CallCreateDirectories (parent_path path)]) w)).
Proof.
  unfold make_dirs, ensure_parent_dir. case_decide.
  - unfold mret, M_ret. cbn [fst snd]. world_eq. by rewrite app_nil_r.
  - unfold fs_create_directories.
    by destruct (create_directories _ _) as [[e|] t'].
Qed.

Lemma make_dirs_added (path : string) (t : FS) :
  dirs_added t (snd (make_dirs path t)).
Proof.
  unfold make_dirs. case_decide; [split; [done | apply grows_refl]|].
  destruct (create_directories _ t) as [e t'] eqn:Hc.
  by apply create_directories_grows in Hc.
Qed.

Lemma ofstream_put_run (k : name) (s c : string) (w : World) :
  entries (fs w) !! k = Some (File c) →
  ofstream_put k s w =
    (Ret tt, set_fs (set_entries (<[k := File (c +:+ s)]> (entries (fs w)))
                                 (fs w)) w).
Proof. intros H. unfold ofstream_put, modify. by rewrite H. Qed.

(** What the existence test of [append_row] answers, once the directories
    are there. *)
Lemma prepare_log_present (path : string) (t t2 : FS) :
  prepare_log path t = Some t2 →
  ∀ t1, prepare_dirs path t = Some t1 → t1 !! path = stored t path.
Proof.
  intros Hprep t1 Hdirs.
  destruct (prepare_log_inv _ _ _ Hprep)
    as (t1' & Hdirs' & Hopen & Hn & Hr & Hcwd & Hg & Hsame & _).
  assert (t1' = t1) as -> by congruence.
  rewrite <- Hsame. apply lookup_stored; [done|].
  by rewrite (place_cwd _ _ path Hcwd).
Qed.

(** One successful call: the row's line lands after the existing content,
    or after a fresh header when the file was absent. *)
Lemma append_row_ok (path : string) (row : list string) (w : World) (t2 : FS) :
  prepare_log path (fs w) = Some t2 →
  append_row path row w =
    (Ret tt,
     set_fs (write_log path (log_base path (fs w) +:+ row_line row) t2)
            (log_calls (append_calls path) w)).
Proof.
  intros Hprep.
  pose proof (prepare_log_present _ _ _ Hprep) as Hpresent.
  destruct (prepare_log_inv _ _ _ Hprep)
    as (t1 & Hdirs & Hopen & Hn & Hr & Hcwd & Hg & Hsame & Hnodir & Ht2 & Hlog).
  specialize (Hpresent t1 Hdirs).
  unfold append_row.
  rewrite (bind_ret _ _ _ _ _ (ensure_parent_dir_run _ _ _ Hdirs)).
  unfold mbind, M_bind, file_exists, ofstream_open_app. wsimpl.
  rewrite Hopen. wsimpl. rewrite Hpresent. unfold log_base, row_line.
  unfold mret, M_ret.
  assert (Hcalls : ∀ l : list fs_call,
    ((l ++ (if decide (parent_path path = "") then []
            else [CallCreateDirectories (parent_path path)]))
       ++ [CallExists path]) ++ [CallOpenApp path] = l ++ append_calls path).
  { intros l. unfold append_calls. by rewrite <- !app_assoc. }
  assert (Hp1 : place t1 path = place (fs w) path) by (by apply place_cwd).
  assert (Hs1 : stored t1 path = entries t1 !! place (fs w) path).
  { unfold stored. by rewrite Hp1. }
  destruct (stored (fs w) path) as [[|c]|] eqn:Hp; [done| |]; subst t2.
  - rewrite bool_decide_true by eauto. wsimpl.
    rewrite (ofstream_put_run _ _ c) by (wsimpl; congruence). wsimpl.
    rewrite (ofstream_put_run _ _ (c +:+ put_fields 0 row))
      by (wsimpl; apply lookup_insert_eq).
    unfold write_log, set_entries. wsimpl. rewrite Hp1.
    rewrite insert_insert_eq, append_assoc.
    world_eq. by rewrite Hcalls.
  - rewrite bool_decide_false by (by intros [? ?]). wsimpl.
    rewrite write_log_write_log.
    unfold write_log. rewrite Hp1. wsimpl.
    rewrite (ofstream_put_run _ _ "") by (wsimpl; apply lookup_insert_eq).
    wsimpl.
    rewrite (ofstream_put_run _ _ ("" +:+ header_line))
      by (wsimpl; apply lookup_insert_eq).
    wsimpl.
    rewrite (ofstream_put_run _ _ (("" +:+ header_line) +:+ put_fields 0 row))
      by (wsimpl; apply lookup_insert_eq).
    unfold set_entries. wsimpl.
    rewrite !insert_insert_eq, !append_assoc.
    change ("" +:+ header_line +:+ put_fields 0 row +:+ nl)
      with (header_line +:+ put_fields 0 row +:+ nl).
    world_eq. by rewrite Hcalls.
Qed.

Lemma append_failure_added (path : string) (t : FS) :
  dirs_added t (snd (append_failure path t)).
Proof.
  unfold append_failure. pose proof (make_dirs_added path t) as H.
  by destruct (make_dirs path t) as [[e|] t1].
Qed.

(** A failed call throws, writes into no file and onto no stream; it may
    leave directories behind. *)
Lemma append_row_fail (path : string) (row : list string) (w : World) :
  prepare_log path (fs w) = None →
  ∃ w', append_row path row w =
          (Throw (fst (append_failure path (fs w))), w') ∧
        fs w' = snd (append_failure path (fs w)) ∧
        fs_calls w' = fs_calls w ++
          match fst (make_dirs path (fs w)) with
          | None => append_calls path
          | Some _ => [CallCreateDirectories (parent_path path)]
          end ∧
        cout w' = cout w ∧ cerr w' = cerr w ∧
        wall_reads w' = wall_reads w ∧ steady_reads w' = steady_reads w ∧
        vectors w' = vectors w ∧ next_vector w' = next_vector w ∧
        sort_inputs w' = sort_inputs w.
Proof.
  unfold prepare_log, prepare_dirs, append_failure. intros Hprep.
  unfold append_row. pose proof (ensure_parent_dir_cases path w) as Hdirs.
  destruct (make_dirs path (fs w)) as [[e|] t1] eqn:Hmk; cbn [fst snd] in *.
  - rewrite (bind_throw _ _ _ _ _ Hdirs). eexists. split; [reflexivity|].
    wsimpl. split; [done|]. split; [|done].
    unfold make_dirs in Hmk. case_decide; [done|]. done.
  - rewrite (bind_ret _ _ _ _ _ Hdirs).
    unfold mbind, M_bind, file_exists, ofstream_open_app. wsimpl.
    cbn in Hprep. destruct (open_app path t1) as [[k t2]|]; [done|]. wsimpl.
    unfold throw. eexists. split; [reflexivity|]. wsimpl.
    split; [done|]. split; [|done].
    unfold append_calls. by rewrite <- !app_assoc.
Qed.


Lemma concat_app (l1 l2 : list string) :
  Str.concat (l1 ++ l2) = Str.concat l1 +:+ Str.concat l2.
Proof.
  induction l1 as [|x l1 IH]; [done|].
  change (Str.concat ((x :: l1) ++ l2)) with (x +:+ Str.concat (l1 ++ l2)).
  change (Str.concat (x :: l1)) with (x +:+ Str.concat l1).
  by rewrite IH, append_assoc.
Qed.

Lemma row_lines_snoc (rows : list (list string)) (row : list string) :
  row_lines (rows ++ [row]) = row_lines rows +:+ row_line row.
Proof.
  unfold row_lines. rewrite fmap_app, concat_app.
  change (Str.concat (row_line <$> [row])) with (row_line row +:+ "").
  by rewrite append_nil_r.
Qed.

End AppendRow.

(** ** The two loops *)

Section Loops.

Context (E : Env).

Lemma for_loop_ret (P : nat → World → Prop) (body : Z → M unit)
    (k : nat) (i hi : Z) (w : World) :
  i + Z.of_nat k = hi →
  P 0%nat w →
  (∀ j w1, (j < k)%nat → P j w1 →
     ∃ w2, body (i + Z.of_nat j) w1 = (Ret tt, w2) ∧ P (S j) w2) →
  ∃ w', for_loop k i hi body w = (Ret tt, w') ∧ P k w'.
Proof.
  revert P i w. induction k as [|k IH]; intros P i w Hhi H0 Hstep; simpl.
  - by exists w.
  - rewrite (proj2 (Z.ltb_lt i hi)) by lia.
    destruct (Hstep 0%nat w ltac:(lia) H0) as (w1 & Hb & H1).
    rewrite Z.add_0_r in Hb. rewrite (bind_ret _ _ _ _ _ Hb).
    apply (IH (λ j, P (S j))); [lia | done |].
    intros j w2 Hj Hj'. destruct (Hstep (S j) w2 ltac:(lia) Hj') as (w3 & Hb3 & H3).
    exists w3. split; [|done]. rewrite <- Hb3. f_equal. lia.
Qed.

Lemma for_loop_throw (body : Z → M unit) (k : nat) (i hi : Z) (w w' : World)
    (e : string) :
  i < hi → body i w = (Throw e, w') →
  for_loop (S k) i hi body w = (Throw e, w').
Proof.
  intros Hi Hb. simpl. rewrite (proj2 (Z.ltb_lt i hi)) by lia.
  by rewrite (bind_throw _ _ _ _ _ Hb).
Qed.

Lemma sorted_copies_S (first j : nat) (xs : list Z) :
  sorted_copies first (S j) xs
    = sorted_copies first j xs ++ [((first + j)%nat, xs)].
Proof. unfold sorted_copies. by rewrite seq_S, fmap_app. Qed.

Lemma sorted_copies_app (first a b : nat) (xs : list Z) :
  sorted_copies first a xs ++ sorted_copies (first + a) b xs
    = sorted_copies first (a + b) xs.
Proof.
  induction b as [|b IH].
  - unfold sorted_copies at 2. cbn [seq fmap list_fmap].
    by rewrite app_nil_r, Nat.add_0_r.
  - rewrite Nat.add_succ_r, !sorted_copies_S, app_assoc, IH.
    by rewrite Nat.add_assoc.
Qed.

Lemma holds_fresh_ne (w : World) (v : nat) (xs : list Z) :
  holds w v xs → v ≠ next_vector w.
Proof. intros [_ ?]. lia. Qed.

(** A warmup repetition sorts a copy and leaves no other trace. *)
Lemma warmup_rep_run (v : nat) (xs : list Z) (i : Z) (w : World) :
  holds w v xs →
  ∃ w', warmup_rep E v i w = (Ret tt, w') ∧ holds w' v xs ∧
        fs w' = fs w ∧ fs_calls w' = fs_calls w ∧
        cout w' = cout w ∧ cerr w' = cerr w ∧
        wall_reads w' = wall_reads w ∧ steady_reads w' = steady_reads w ∧
        next_vector w' = S (next_vector w) ∧
        sort_inputs w' = sort_inputs w ++ [(next_vector w, xs)].
Proof.
  intros Hh. pose proof (holds_fresh_ne _ _ _ Hh) as Hne. destruct Hh as [Hv Hlt].
  unfold warmup_rep, mbind, M_bind, vector_copy, vector_read, vector_new,
    vector_sort, vector_destroy, mret, M_ret, mbind, M_bind.
  wsimpl. rewrite Hv. wsimpl. rewrite lookup_insert_eq. wsimpl.
  eexists. split; [reflexivity|]. wsimpl.
  split; [|done]. split; [|wsimpl; lia]. wsimpl.
  rewrite lookup_delete_ne, !lookup_insert_ne by done. done.
Qed.

Lemma warmup_loop_run (v : nat) (xs : list Z) (hi : Z) (w : World) :
  holds w v xs →
  ∃ w', for_int hi (warmup_rep E v) w = (Ret tt, w') ∧ holds w' v xs ∧
        fs w' = fs w ∧ fs_calls w' = fs_calls w ∧
        cout w' = cout w ∧ cerr w' = cerr w ∧
        wall_reads w' = wall_reads w ∧ steady_reads w' = steady_reads w ∧
        next_vector w' = (next_vector w + Z.to_nat hi)%nat ∧
        sort_inputs w' =
          sort_inputs w ++ sorted_copies (next_vector w) (Z.to_nat hi) xs.
Proof.
  intros Hh. unfold for_int.
  destruct (Z.to_nat hi) as [|k] eqn:Hk.
  { exists w. cbn [for_loop]. unfold sorted_copies. cbn [seq fmap list_fmap].
    by rewrite app_nil_r, Nat.add_0_r. }
  apply (for_loop_ret
    (λ j w', holds w' v xs ∧ fs w' = fs w ∧ fs_calls w' = fs_calls w ∧
             cout w' = cout w ∧ cerr w' = cerr w ∧
             wall_reads w' = wall_reads w ∧ steady_reads w' = steady_reads w ∧
             next_vector w' = (next_vector w + j)%nat ∧
             sort_inputs w' = sort_inputs w ++ sorted_copies (next_vector w) j xs)).
  - lia.
  - unfold sorted_copies. cbn [seq fmap list_fmap].
    by rewrite app_nil_r, Nat.add_0_r.
  - intros j w1 Hj (Hh1 & Hfs & Hcalls & Hout & Herr & Hwall & Hst & Hnext & Hsort).
    destruct (warmup_rep_run v xs (0 + Z.of_nat j) w1 Hh1)
      as (w2 & Hrun & Hh2 & Hfs2 & Hcalls2 & Hout2 & Herr2 & Hwall2 & Hst2
          & Hnext2 & Hsort2).
    exists w2. split; [done|].
    rewrite Hfs2, Hcalls2, Hout2, Herr2, Hwall2, Hst2, Hnext2, Hsort2, Hsort, Hnext.
    split; [done|]. do 6 (split; [done|]). split; [lia|].
    by rewrite sorted_copies_S, app_assoc.
Qed.

(** The row a measured repetition builds in world [w]. *)
Lemma measured_rep_ok (a : Args) (v : nat) (xs : list Z) (n : Z)
    (dist : string) (rep : Z) (w : World) (t2 : FS) :
  holds w v xs →
  prepare_log (out a) (fs w) = Some t2 →
  let row :=
    make_row (put_time (wall_clock E (wall_reads w))) a dist n rep
      (duration_ms (steady_clock E (S (steady_reads w))
                    - steady_clock E (steady_reads w)))
      (if validate a then is_sorted_non_decreasing (std_sort E xs) else true) in
  ∃ w', measured_rep E a v n dist rep w = (Ret tt, w') ∧ holds w' v xs ∧
        cout w' = cout w +:+ row_line row ∧ cerr w' = cerr w ∧
        fs w' = write_log (out a) (log_base (out a) (fs w) +:+ row_line row) t2 ∧
        wall_reads w' = S (wall_reads w) ∧
        steady_reads w' = S (S (steady_reads w)) ∧
        next_vector w' = S (next_vector w) ∧
        sort_inputs w' = sort_inputs w ++ [(next_vector w, xs)].
Proof.
  intros Hh Hprep row.
  pose proof (holds_fresh_ne _ _ _ Hh) as Hne. destruct Hh as [Hv Hlt].
  unfold measured_rep, mbind, M_bind, vector_copy, vector_read, vector_new,
    steady_now, vector_sort, now_iso_local, wall_read, cout_put, modify,
    mret, M_ret, mbind, M_bind.
  wsimpl. rewrite Hv. wsimpl. rewrite !lookup_insert_eq. wsimpl.
  fold row.
  match goal with
  | |- context [append_row ?p ?r ?w0] =>
      rewrite (append_row_ok p r w0 t2 Hprep)
  end.
  unfold vector_destroy. wsimpl.
  eexists. split; [reflexivity|]. wsimpl.
  split; [split; [|wsimpl; lia]|].
  { wsimpl. by rewrite lookup_delete_ne, !lookup_insert_ne by done. }
  unfold row_line. rewrite append_assoc. done.
Qed.

Lemma measured_rep_fail (a : Args) (v : nat) (xs : list Z) (n : Z)
    (dist : string) (rep : Z) (w : World) :
  holds w v xs →
  prepare_log (out a) (fs w) = None →
  let row :=
    make_row (put_time (wall_clock E (wall_reads w))) a dist n rep
      (duration_ms (steady_clock E (S (steady_reads w))
                    - steady_clock E (steady_reads w)))
      (if validate a then is_sorted_non_decreasing (std_sort E xs) else true) in
  ∃ w', measured_rep E a v n dist rep w =
          (Throw (fst (append_failure (out a) (fs w))), w') ∧
        cout w' = cout w +:+ row_line row ∧ cerr w' = cerr w ∧
        fs w' = snd (append_failure (out a) (fs w)) ∧
        holds w' v xs ∧
        sort_inputs w' = sort_inputs w ++ [(next_vector w, xs)] ∧
        wall_reads w' = S (wall_reads w) ∧
        steady_reads w' = S (S (steady_reads w)).
Proof.
  intros Hh Hprep row.
  pose proof (holds_fresh_ne _ _ _ Hh) as Hne. destruct Hh as [Hv Hlt].
  unfold measured_rep, mbind, M_bind, vector_copy, vector_read, vector_new,
    steady_now, vector_sort, now_iso_local, wall_read, cout_put, modify,
    mret, M_ret, mbind, M_bind.
  wsimpl. rewrite Hv. wsimpl. rewrite !lookup_insert_eq. wsimpl.
  fold row.
  match goal with
  | |- context [append_row ?p ?r ?w0] =>
      destruct (append_row_fail p r w0 Hprep)
        as (w' & Hrun & Hfs & _ & Hout & Herr & Hwall & Hst & Hvec & Hnext
            & Hsort)
  end.
  wsimpl in Hrun. rewrite Hrun. exists w'. split; [done|].
  rewrite Hout, Herr, Hsort, Hfs, Hwall, Hst. unfold holds. rewrite Hvec, Hnext.
  wsimpl. unfold row_line. rewrite append_assoc.
  split; [done|]. split; [done|]. split; [done|]. split; [|done].
  split; [|lia]. by rewrite !lookup_insert_ne by done.
Qed.

Lemma measured_rows_S (a : Args) (xs : list Z) (wall0 steady0 j : nat) :
  measured_rows E a xs wall0 steady0 (S j) =
  measured_rows E a xs wall0 steady0 j ++ [measured_row E a xs wall0 steady0 j].
Proof. unfold measured_rows. by rewrite seq_S, fmap_app. Qed.

(** The measured loop when the log can be opened: every repetition runs,
    echoes its row and appends it, reading the wall clock once and the
    steady clock twice; the file system ends as the first preparation left
    it, with all the lines in the log. *)
Lemma measured_loop_run (a : Args) (v : nat) (xs : list Z) (w : World)
    (count : nat) (t2 : FS) :
  holds w v xs →
  prepare_log (out a) (fs w) = Some t2 →
  let rows := measured_rows E a xs (wall_reads w) (steady_reads w) in
  ∃ w', for_loop count 0 (Z.of_nat count)
          (measured_rep E a v (wrap_int (Z.of_nat (length xs)))
             (infer_distribution (dataset a))) w = (Ret tt, w') ∧
        holds w' v xs ∧
        cout w' = cout w +:+ row_lines (rows count) ∧ cerr w' = cerr w ∧
        wall_reads w' = (wall_reads w + count)%nat ∧
        steady_reads w' = (steady_reads w + 2 * count)%nat ∧
        next_vector w' = (next_vector w + count)%nat ∧
        sort_inputs w' =
          sort_inputs w ++ sorted_copies (next_vector w) count xs ∧
        fs w' = match count with
                | O => fs w
                | S _ => write_log (out a)
                           (log_base (out a) (fs w) +:+ row_lines (rows count)) t2
                end.
Proof.
  intros Hh Hprep rows.
  pose proof (prepare_log_log_open _ _ _ Hprep) as Hopen2.
  destruct (for_loop_ret
    (λ j w1, holds w1 v xs ∧
             cout w1 = cout w +:+ row_lines (rows j) ∧ cerr w1 = cerr w ∧
             wall_reads w1 = (wall_reads w + j)%nat ∧
             steady_reads w1 = (steady_reads w + 2 * j)%nat ∧
             next_vector w1 = (next_vector w + j)%nat ∧
             sort_inputs w1 =
               sort_inputs w ++ sorted_copies (next_vector w) j xs ∧
             fs w1 = match j with
                     | O => fs w
                     | S _ => write_log (out a)
                                (log_base (out a) (fs w) +:+ row_lines (rows j)) t2
                     end)
    (measured_rep E a v (wrap_int (Z.of_nat (length xs)))
       (infer_distribution (dataset a)))
    count 0 (Z.of_nat count) w) as (w' & Hrun & HP).
  - lia.
  - unfold sorted_copies, rows, measured_rows, row_lines.
    cbn [seq fmap list_fmap Str.concat].
    rewrite append_nil_r, app_nil_r, !Nat.add_0_r. done.
  - intros j w1 Hj (Hh1 & Hout & Herr & Hwall & Hst & Hnext & Hsort & Hfs).
    assert (∃ t, prepare_log (out a) (fs w1) = Some t ∧
                 log_base (out a) (fs w1)
                   = log_base (out a) (fs w) +:+ row_lines (rows j) ∧
                 ∀ c, write_log (out a) c t = write_log (out a) c t2)
      as (t & Hprep1 & Hbase & Hwrite).
    { destruct j as [|j].
      - exists t2. rewrite Hfs. split; [done|]. split; [|done].
        simpl. by rewrite append_nil_r.
      - exists (fs w1). rewrite Hfs. split; [|split].
        + by apply prepare_log_of_open, log_open_write_log.
        + apply log_base_write_log.
        + intros c. apply write_log_write_log. }
    destruct (measured_rep_ok a v xs (wrap_int (Z.of_nat (length xs)))
                (infer_distribution (dataset a)) (0 + Z.of_nat j) w1 t Hh1 Hprep1)
      as (w2 & Hrun2 & Hh2 & Hout2 & Herr2 & Hfs2 & Hwall2 & Hst2 & Hnext2
          & Hsort2).
    exists w2. split; [done|].
    assert (Hrow :
      make_row (put_time (wall_clock E (wall_reads w1))) a
        (infer_distribution (dataset a)) (wrap_int (Z.of_nat (length xs)))
        (0 + Z.of_nat j)
        (duration_ms (steady_clock E (S (steady_reads w1))
                      - steady_clock E (steady_reads w1)))
        (if validate a then is_sorted_non_decreasing (std_sort E xs) else true)
      = measured_row E a xs (wall_reads w) (steady_reads w) j).
    { unfold measured_row. by rewrite Hwall, Hst, Z.add_0_l. }
    rewrite Hrow in Hout2, Hfs2.
    unfold rows. rewrite measured_rows_S, row_lines_snoc. fold rows.
    rewrite Hout2, Herr2, Hwall2, Hst2, Hnext2, Hsort2.
    rewrite Hout, Herr, Hwall, Hst, Hnext, Hsort.
    rewrite append_assoc.
    split; [done|]. split; [done|]. split; [done|].
    split; [lia|]. split; [lia|]. split; [lia|]. split.
    { by rewrite sorted_copies_S, app_assoc. }
    by rewrite Hfs2, Hwrite, Hbase, append_assoc.
  - by exists w'.
Qed.

Lemma measured_loop_ok (a : Args) (v : nat) (xs : list Z) (w : World)
    (count : nat) :
  holds w v xs →
  is_Some (prepare_log (out a) (fs w)) →
  let rows := measured_rows E a xs (wall_reads w) (steady_reads w) in
  ∃ w', for_loop count 0 (Z.of_nat count)
          (measured_rep E a v (wrap_int (Z.of_nat (length xs)))
             (infer_distribution (dataset a))) w = (Ret tt, w') ∧
        holds w' v xs ∧
        cout w' = cout w +:+ row_lines (rows count) ∧ cerr w' = cerr w ∧
        sort_inputs w' =
          sort_inputs w ++ sorted_copies (next_vector w) count xs ∧
        match count with
        | O => fs w' = fs w
        | S _ => fs w' !! out a =
                   Some (File (log_base (out a) (fs w) +:+ row_lines (rows count)))
        end.
Proof.
  intros Hh [t2 Hlog] rows.
  destruct (measured_loop_run a v xs w count t2 Hh Hlog)
    as (w' & Hrun & Hh1 & Hout & Herr & _ & _ & _ & Hsort & Hfs).
  exists w'. split; [done|].
  split; [done|]. split; [done|]. split; [done|]. split; [done|].
  destruct count; [done|]. rewrite Hfs.
  apply lookup_write_log, (prepare_log_log_open _ _ _ Hlog).
Qed.

(** The measured loop when the log cannot be opened: the first repetition
    echoes its row, then the exception leaves the loop. *)
Lemma measured_loop_fail (a : Args) (v : nat) (xs : list Z) (w : World)
    (count : nat) :
  holds w v xs →
  prepare_log (out a) (fs w) = None →
  ∃ w', for_loop (S count) 0 (Z.of_nat (S count))
          (measured_rep E a v (wrap_int (Z.of_nat (length xs)))
             (infer_distribution (dataset a))) w =
          (Throw (fst (append_failure (out a) (fs w))), w') ∧
        cout w' = cout w +:+
          row_line (measured_row E a xs (wall_reads w) (steady_reads w) 0) ∧
        cerr w' = cerr w ∧
        fs w' = snd (append_failure (out a) (fs w)) ∧
        holds w' v xs ∧
        sort_inputs w' = sort_inputs w ++ [(next_vector w, xs)] ∧
        wall_reads w' = S (wall_reads w) ∧
        steady_reads w' = S (S (steady_reads w)).
Proof.
  intros Hh Hprep.
  destruct (measured_rep_fail a v xs (wrap_int (Z.of_nat (length xs)))
              (infer_distribution (dataset a)) 0 w Hh Hprep)
    as (w' & Hrun & Hout & Herr & Hfiles & Hh' & Hsort & Hwall & Hst).
  exists w'. split; [apply for_loop_throw; [lia | done]|].
  split; [|done]. rewrite Hout. unfold measured_row.
  by rewrite !Nat.add_0_r.
Qed.

End Loops.

(** ** Command line *)

Section ParseArgs.

#[local] Opaque usage_text.

Lemma put_cerr_twice (m1 m2 : string) (w : World) :
  put_cerr m2 (put_cerr m1 w) = put_cerr (m1 +:+ m2) w.
Proof. unfold put_cerr. simpl. by rewrite append_assoc. Qed.

Lemma need_value_outcome (rest : list string)
    (k : string → list string → M Args) (w : World) :
  (∀ v rest', rest = v :: rest' → parse_loop_outcome w (k v rest' w)) →
  parse_loop_outcome w (need_value rest k w).
Proof.
  intros Hk. destruct rest as [|v rest']; simpl.
  - split; [done|]. by exists ""%string.
  - by apply Hk.
Qed.

Lemma stoi_then_outcome (v : string) (k : Z → M Args) (w : World) :
  (∀ z, stoi v = StoiValue z → parse_loop_outcome w (k z w)) →
  parse_loop_outcome w ((stoi_call v ≫= k) w).
Proof.
  intros Hk. unfold stoi_call, mbind, M_bind.
  destruct (stoi v) as [z| |]; simpl; [by apply Hk | done | done].
Qed.

Lemma parse_loop_cases_le (n : nat) (argv : list string) (a : Args) (w : World) :
  (length argv ≤ n)%nat → parse_loop_outcome w (parse_loop a argv w).
Proof.
  revert argv a. induction n as [|n IH]; intros argv a Hlen.
  - destruct argv; [done | simpl in Hlen; lia].
  - destruct argv as [|arg rest]; [done|]. simpl in Hlen. simpl.
    repeat case_decide.
    + apply need_value_outcome. intros v rest' ->. apply IH. simpl in Hlen. lia.
    + apply need_value_outcome. intros v rest' ->. apply IH. simpl in Hlen. lia.
    + apply need_value_outcome. intros v rest' ->.
      apply stoi_then_outcome. intros z _. apply IH. simpl in Hlen. lia.
    + apply need_value_outcome. intros v rest' ->.
      apply stoi_then_outcome. intros z _. apply IH. simpl in Hlen. lia.
    + apply need_value_outcome. intros v rest' ->. apply IH. simpl in Hlen. lia.
    + apply IH. lia.
    + split; [done|]. exists ("Unknown arg: " +:+ arg +:+ nl).
      change ((cerr_put ("Unknown arg: " +:+ arg +:+ nl);; usage_and_exit) w)
        with (@Exit Args 2, put_cerr usage_text (put_cerr ("Unknown arg: " +:+ arg +:+ nl) w)).
      by rewrite put_cerr_twice.
Qed.

Lemma parse_loop_cases (argv : list string) (a : Args) (w : World) :
  parse_loop_outcome w (parse_loop a argv w).
Proof. by apply (parse_loop_cases_le (length argv)). Qed.

(** How [parse_args] can end. *)
Lemma usage_text_nonempty (m : string) : m +:+ usage_text ≠ "".
Proof.
  intros Heq. apply (f_equal String.length) in Heq.
  rewrite length_append in Heq. vm_compute (String.length usage_text) in Heq.
  simpl in Heq. lia.
Qed.

Lemma parse_args_cases (argv : list string) (w : World) :
  match parse_args argv w with
  | (Ret a, w') =>
      w' = w ∧ dataset a ≠ "" ∧ 0 <= warmup a ∧ 0 < reps a ∧ algo a = "builtin"
  | (Throw e, w') => e = "stoi"%string ∧ w' = w
  | (Exit c, w') =>
      c = 2 ∧ ∃ msg, msg ≠ "" ∧ rejection_message msg ∧ w' = put_cerr msg w
  end.
Proof.
  unfold parse_args, mbind at 1, M_bind.
  pose proof (parse_loop_cases (tail argv) default_args w) as Hloop.
  destruct (parse_loop default_args (tail argv) w) as [[a| |c] w1];
    cbn [parse_loop_outcome] in Hloop.
  - subst w1. case_decide as Hd.
    { split; [done|]. exists (("--dataset is required" +:+ nl) +:+ usage_text).
      split; [apply usage_text_nonempty|].
      split; [left; by eexists | apply put_cerr_twice]. }
    destruct ((warmup a <? 0) || (reps a <=? 0)) eqn:Hrange.
    { split; [done|]. exists range_message.
      split; [done|]. split; [right; by left | reflexivity]. }
    destruct (bool_decide (algo a = "builtin")) eqn:Halgo; cbn [negb].
    + apply bool_decide_eq_true in Halgo.
      apply orb_false_iff in Hrange as [H1 H2].
      apply Z.ltb_ge in H1. apply Z.leb_gt in H2. done.
    + split; [done|]. exists algo_message.
      split; [done|]. split; [right; by right | reflexivity].
  - done.
  - destruct Hloop as [-> [msg ->]]. split; [done|].
    exists (msg +:+ usage_text).
    split; [apply usage_text_nonempty|]. split; [left; by eexists | done].
Qed.

End ParseArgs.

(** ** The whole run *)

Section Main.

Context (E : Env).

Lemma result_pair {A} (m : M A) (w : World) (r : result A) (w' : World) :
  fst (m w) = r → snd (m w) = w' → m w = (r, w').
Proof. destruct (m w). simpl. by intros -> ->. Qed.

Lemma parse_args_ret (argv : list string) (w : World) (a : Args) :
  fst (parse_args argv w) = Ret a →
  parse_args argv w = (Ret a, w) ∧
  dataset a ≠ "" ∧ 0 <= warmup a ∧ 0 < reps a ∧ algo a = "builtin".
Proof.
  intros H. pose proof (parse_args_cases argv w) as Hc.
  destruct (parse_args argv w) as [[a'| |] w']; simpl in H; try done.
  injection H as ->. destruct Hc as (-> & ?). done.
Qed.

(** Up to the loops: the options, the dataset in a fresh vector object. *)
Lemma main_try_loaded (argv : list string) (w : World) (a : Args) (xs : list Z) :
  fst (parse_args argv w) = Ret a →
  fst (read_bin_int32_le (dataset a) w) = Ret xs →
  ∃ w1, main_try E argv w =
          (run_loops E a (next_vector w) (wrap_int (Z.of_nat (length xs)))
             (infer_distribution (dataset a));; mret 0) w1 ∧
        holds w1 (next_vector w) xs ∧
        fs w1 = fs w ∧ cout w1 = cout w ∧ cerr w1 = cerr w ∧
        wall_reads w1 = wall_reads w ∧ steady_reads w1 = steady_reads w ∧
        next_vector w1 = S (next_vector w) ∧
        sort_inputs w1 = sort_inputs w.
Proof.
  intros Hparse Hload.
  destruct (parse_args_ret _ _ _ Hparse) as [Hp _].
  pose proof (result_pair _ _ _ _ Hload (read_bin_int32_le_world _ _)) as Hl.
  unfold main_try.
  rewrite (bind_ret _ _ _ _ _ Hp), (bind_ret _ _ _ _ _ Hl).
  unfold mbind at 1, M_bind, vector_new. wsimpl.
  unfold mbind at 1, M_bind, vector_size, vector_read, mbind, M_bind, mret, M_ret.
  wsimpl. rewrite lookup_insert_eq. wsimpl.
  eexists. split; [reflexivity|]. wsimpl.
  split; [|done]. split; [apply lookup_insert_eq | wsimpl; lia].
Qed.

Lemma main_ok (argv : list string) (w : World) (a : Args) (xs : list Z) :
  fst (parse_args argv w) = Ret a →
  fst (read_bin_int32_le (dataset a) w) = Ret xs →
  is_Some (prepare_log (out a) (fs w)) →
  let rows := measured_rows E a xs (wall_reads w) (steady_reads w)
                (Z.to_nat (reps a)) in
  ∃ w', main E argv w = (0, w') ∧
        cout w' = cout w +:+ row_lines rows ∧ cerr w' = cerr w ∧
        fs w' !! out a =
          Some (File (log_base (out a) (fs w) +:+ row_lines rows)) ∧
        sort_inputs w' = sort_inputs w ++
          sorted_copies (S (next_vector w))
            (Z.to_nat (warmup a) + Z.to_nat (reps a)) xs ∧
        holds w' (next_vector w) xs.
Proof.
  intros Hparse Hload Hlog rows.
  destruct (parse_args_ret _ _ _ Hparse) as (_ & _ & Hwarm & Hreps & _).
  destruct (main_try_loaded _ _ _ _ Hparse Hload)
    as (w1 & Htry & Hh1 & Hfs1 & Hout1 & Herr1 & Hwall1 & Hst1 & Hnext1 & Hsort1).
  destruct (warmup_loop_run E _ _ (warmup a) _ Hh1)
    as (w2 & Hrun2 & Hh2 & Hfs2 & _ & Hout2 & Herr2 & Hwall2 & Hst2 & Hnext2
        & Hsort2).
  assert (Hlog2 : is_Some (prepare_log (out a) (fs w2)))
    by (by rewrite Hfs2, Hfs1).
  destruct (measured_loop_ok E a _ xs w2 (Z.to_nat (reps a)) Hh2 Hlog2)
    as (w3 & Hrun3 & Hh3 & Hout3 & Herr3 & Hsort3 & Hfs3).
  rewrite Z2Nat.id in Hrun3 by lia.
  exists w3. split.
  - unfold main. rewrite Htry. unfold run_loops.
    unfold mbind at 1, M_bind. unfold mbind at 1, M_bind.
    rewrite Hrun2. unfold for_int. rewrite Hrun3. done.
  - rewrite Hwall2, Hst2, Hwall1, Hst1 in Hout3, Hfs3. fold rows in Hout3, Hfs3.
    rewrite Hout3, Herr3, Hsort3, Hout2, Herr2, Hsort2, Hout1, Herr1, Hsort1.
    rewrite Hnext2, Hnext1.
    split; [done|]. split; [done|]. split.
    { destruct (Z.to_nat (reps a)) eqn:Hn; [lia|].
      by rewrite Hfs3, Hfs2, Hfs1. }
    split; [|done]. by rewrite <- app_assoc, sorted_copies_app.
Qed.

Lemma main_append_fail (argv : list string) (w : World) (a : Args) (xs : list Z) :
  fst (parse_args argv w) = Ret a →
  fst (read_bin_int32_le (dataset a) w) = Ret xs →
  prepare_log (out a) (fs w) = None →
  ∃ w', main E argv w = (1, w') ∧
        cout w' = cout w +:+
          row_line (measured_row E a xs (wall_reads w) (steady_reads w) 0) ∧
        cerr w' = cerr w +:+
          ("Error: " +:+ fst (append_failure (out a) (fs w)) +:+ nl) ∧
        fs w' = snd (append_failure (out a) (fs w)) ∧
        sort_inputs w' = sort_inputs w ++
          sorted_copies (S (next_vector w)) (Z.to_nat (warmup a) + 1) xs ∧
        holds w' (next_vector w) xs ∧
        wall_reads w' = S (wall_reads w) ∧
        steady_reads w' = S (S (steady_reads w)).
Proof.
  intros Hparse Hload Hlog.
  destruct (parse_args_ret _ _ _ Hparse) as (_ & _ & Hwarm & Hreps & _).
  destruct (main_try_loaded _ _ _ _ Hparse Hload)
    as (w1 & Htry & Hh1 & Hfs1 & Hout1 & Herr1 & Hwall1 & Hst1 & Hnext1 & Hsort1).
  destruct (warmup_loop_run E _ _ (warmup a) _ Hh1)
    as (w2 & Hrun2 & Hh2 & Hfs2 & _ & Hout2 & Herr2 & Hwall2 & Hst2 & Hnext2
        & Hsort2).
  assert (Hlog2 : prepare_log (out a) (fs w2) = None) by (by rewrite Hfs2, Hfs1).
  destruct (Z.to_nat (reps a)) as [|count] eqn:Hcount; [lia|].
  destruct (measured_loop_fail E a _ xs w2 count Hh2 Hlog2)
    as (w3 & Hrun3 & Hout3 & Herr3 & Hfiles3 & Hh3 & Hsort3 & Hwall3 & Hst3).
  rewrite <- Hcount, Z2Nat.id in Hrun3 by lia.
  eexists. split.
  - unfold main. rewrite Htry. unfold run_loops.
    unfold mbind at 1, M_bind. unfold mbind at 1, M_bind.
    rewrite Hrun2. unfold for_int. rewrite Hrun3. reflexivity.
  - unfold cerr_put, modify. wsimpl.
    rewrite Hout3, Herr3, Hsort3, Hfiles3, Hwall3, Hst3, Hwall2, Hst2, Hwall1, Hst1.
    rewrite Hout2, Herr2, Hsort2, Hout1, Herr1, Hsort1, Hnext2, Hnext1, Hfs2, Hfs1.
    split; [done|]. split; [done|]. split; [done|].
    split.
    { rewrite <- app_assoc, <- sorted_copies_app. do 2 f_equal.
      unfold sorted_copies. cbn [seq fmap list_fmap]. by rewrite Nat.add_0_r. }
    destruct Hh3 as [? ?]. split; done.
Qed.

Lemma main_parse_exit (argv : list string) (w w' : World) (c : Z) :
  parse_args argv w = (Exit c, w') → main E argv w = (c, w').
Proof.
  intros H. unfold main, main_try. by rewrite (bind_exit _ _ _ _ _ H).
Qed.

Lemma main_parse_throw (argv : list string) (w w' : World) (e : string) :
  parse_args argv w = (Throw e, w') →
  main E argv w = (1, put_cerr ("Error: " +:+ e +:+ nl) w').
Proof.
  intros H. unfold main, main_try. by rewrite (bind_throw _ _ _ _ _ H).
Qed.

Lemma read_bin_int32_le_no_exit (path : string) (w : World) (c : Z) :
  fst (read_bin_int32_le path w) ≠ Exit c.
Proof.
  rewrite read_bin_int32_le_cases.
  destruct (fs w !! path) as [node|]; [|done]. cbv zeta.
  destruct (istream_read 4 _) as [[header rest]|]; [|done].
  destruct (istream_read _ rest) as [[payload [|x rest']]|]; done.
Qed.

Lemma main_load_throw (argv : list string) (w : World) (a : Args) (e : string) :
  fst (parse_args argv w) = Ret a →
  fst (read_bin_int32_le (dataset a) w) = Throw e →
  main E argv w =
    (1, put_cerr ("Error: " +:+ e +:+ nl) (log_call (CallOpenIn (dataset a)) w)).
Proof.
  intros Hparse Hload.
  destruct (parse_args_ret _ _ _ Hparse) as [Hp _].
  pose proof (result_pair _ _ _ _ Hload (read_bin_int32_le_world _ _)) as Hl.
  unfold main, main_try.
  rewrite (bind_ret _ _ _ _ _ Hp), (bind_throw _ _ _ _ _ Hl). done.
Qed.

End Main.

(** The exit status does not depend on the sort routine or the clocks. *)
Lemma main_status_independent (E1 E2 : Env) (argv : list string) (w : World) :
  fst (main E1 argv w) = fst (main E2 argv w).
Proof.
  destruct (parse_args argv w) as [[a|e|c] w1] eqn:Hparse.
  - assert (Hp : fst (parse_args argv w) = Ret a) by (by rewrite Hparse).
    destruct (fst (read_bin_int32_le (dataset a) w)) as [xs|e|c] eqn:Hload.
    + destruct (prepare_log (out a) (fs w)) as [t2|] eqn:Hlog.
      * destruct (main_ok E1 argv w a xs Hp Hload) as (w1' & -> & _); [eauto|].
        destruct (main_ok E2 argv w a xs Hp Hload) as (w2' & -> & _); [eauto|].
        done.
      * destruct (main_append_fail E1 argv w a xs Hp Hload Hlog) as (? & -> & _).
        destruct (main_append_fail E2 argv w a xs Hp Hload Hlog) as (? & -> & _).
        done.
    + by rewrite !(main_load_throw _ argv w a e Hp Hload).
    + by apply read_bin_int32_le_no_exit in Hload.
  - by rewrite !(main_parse_throw _ _ _ _ _ Hparse).
  - by rewrite !(main_parse_exit _ _ _ _ _ Hparse).
Qed.

(** ** Rendered numbers *)

Section Numbers.

Lemma digit_char_is_digit (d : Z) :
  0 <= d <= 9 → is_digit (digit_char d) = true.
Proof.
  intros Hd. unfold is_digit, digit_char, byte_val.
  rewrite N_ascii_embedding by lia. rewrite Z2N.id by lia.
  apply andb_true_intro. split; [apply Z.leb_le | apply Z.leb_le]; lia.
Qed.

Lemma dec_go_digits (fuel : nat) (n : Z) (acc : string) :
  all_digits acc = true → all_digits (dec_go fuel n acc) = true.
Proof.
  revert n acc. induction fuel as [|k IH]; intros n acc Hacc; [done|].
  cbn [dec_go].
  assert (Hd : all_digits (String (digit_char (n mod 10)) acc) = true).
  { cbn [all_digits]. rewrite Hacc, digit_char_is_digit; [done|].
    pose proof (Z.mod_pos_bound n 10). lia. }
  destruct (n <? 10); [done | by apply IH].
Qed.

Lemma dec_go_nonempty (fuel : nat) (n : Z) (acc : string) :
  acc ≠ "" → dec_go fuel n acc ≠ "".
Proof.
  revert n acc. induction fuel as [|k IH]; intros n acc Hacc; [done|].
  cbn [dec_go]. destruct (n <? 10); [done | by apply IH].
Qed.

Lemma dec_digits (n : Z) : all_digits (dec n) = true ∧ dec n ≠ "".
Proof.
  unfold dec. split.
  - by apply dec_go_digits.
  - cbn [dec_go]. destruct (n <? 10); [done | by apply dec_go_nonempty].
Qed.

Lemma digit_val_digit_char (d : Z) : 0 <= d <= 9 → digit_val (digit_char d) = d.
Proof.
  intros Hd. unfold digit_val, digit_char, byte_val.
  rewrite N_ascii_embedding by lia. rewrite Z2N.id by lia. lia.
Qed.

(** [dec] loses no digit: the text denotes the number. *)
Lemma dec_go_value (fuel : nat) (n : Z) (acc : string) :
  0 <= n < 2 ^ Z.of_nat fuel →
  decimal_value (dec_go fuel n acc)
    = n * 10 ^ Z.of_nat (String.length acc) + decimal_value acc.
Proof.
  revert n acc. induction fuel as [|k IH]; intros n acc Hn.
  - cbn [dec_go]. change (2 ^ Z.of_nat 0) with 1 in Hn. lia.
  - cbn [dec_go].
    assert (Hmod : 0 <= n mod 10 <= 9)
      by (pose proof (Z.mod_pos_bound n 10); lia).
    assert (Hacc : decimal_value (String (digit_char (n mod 10)) acc)
                   = n mod 10 * 10 ^ Z.of_nat (String.length acc)
                     + decimal_value acc).
    { cbn [decimal_value]. by rewrite digit_val_digit_char. }
    destruct (Z.ltb_spec n 10) as [Hlt|Hge].
    + rewrite Hacc, Z.mod_small by lia. done.
    + rewrite IH.
      * rewrite Hacc. cbn [String.length].
        rewrite Nat2Z.inj_succ, Z.pow_succ_r by lia.
        pose proof (Z.div_mod n 10 ltac:(lia)) as Hdm.
        set (p := 10 ^ Z.of_nat (String.length acc)) in *.
        set (q := n / 10) in *. set (r := n mod 10) in *. nia.
      * rewrite Nat2Z.inj_succ, Z.pow_succ_r in Hn by lia.
        split; [apply Z.div_pos; lia|].
        apply Z.div_lt_upper_bound; lia.
Qed.

Lemma dec_value (n : Z) : 0 <= n → decimal_value (dec n) = n.
Proof.
  intros Hn. unfold dec. rewrite dec_go_value.
  - cbn [String.length decimal_value]. change (10 ^ Z.of_nat 0) with 1. lia.
  - split; [done|]. rewrite Nat2Z.inj_succ, Z2Nat.id by apply Z.log2_nonneg.
    destruct (decide (n = 0)) as [->|]; [done|].
    apply Z.log2_spec. lia.
Qed.


(** Fixed notation with precision 3: an optional sign, at least one digit,
    the point, exactly three digits. *)
Lemma fixed3_shape (v : double) :
  ∃ whole d1 d2 d3,
    fixed3 v = (if d_neg v then "-" else "") +:+ whole +:+ "." +:+
               String d1 (String d2 (String d3 "")) ∧
    whole ≠ "" ∧ all_digits whole = true ∧
    is_digit d1 = true ∧ is_digit d2 = true ∧ is_digit d3 = true.
Proof.
  unfold fixed3, pad3.
  set (r := thousandths v).
  pose proof (Z.mod_pos_bound r 1000 ltac:(lia)) as Hr.
  eexists (dec (r / 1000)), _, _, _. split; [reflexivity|].
  destruct (dec_digits (r / 1000)) as [Hd Hne].
  split; [done|]. split; [done|].
  split; [|split]; apply digit_char_is_digit.
  - split; [apply Z.div_pos; lia | apply Z.lt_succ_r, Z.div_lt_upper_bound; lia].
  - pose proof (Z.mod_pos_bound (r mod 1000 / 10) 10). lia.
  - pose proof (Z.mod_pos_bound (r mod 1000) 10). lia.
Qed.

(** The line of a row: its twelve fields as they are, commas between. *)
Lemma row_line_make_row (stamp : string) (a : Args) (dist : string) (n rep : Z)
    (time_ms : double) (ok : bool) :
  row_line (make_row stamp a dist n rep time_ms ok) =
    stamp +:+ "," +:+ "sort" +:+ "," +:+ "cpp" +:+ "," +:+ "c++20"
    +:+ "," +:+ algo a +:+ "," +:+ dataset a +:+ "," +:+ dist
    +:+ "," +:+ to_string n +:+ "," +:+ to_string (warmup a)
    +:+ "," +:+ to_string rep +:+ "," +:+ fixed3 time_ms
    +:+ "," +:+ (if ok then "true" else "false") +:+ nl.
Proof.
  unfold row_line, make_row. cbn [put_fields].
  change ("" +:+ stamp) with stamp.
  rewrite !append_assoc. reflexivity.
Qed.

End Numbers.

(** ** Sequences of appends *)

Section AppendRows.

#[local] Opaque header_line.


Lemma count_char_app (c : ascii) (s1 s2 : string) :
  count_char c (s1 +:+ s2) = (count_char c s1 + count_char c s2)%nat.
Proof.
  induction s1 as [|d s1 IH]; [done|].
  cbn [String.append count_char]. rewrite IH. lia.
Qed.




End AppendRows.

(** ** More on the validation check *)

Section SortedMore.

Lemma adjacent_cons (x : Z) (l : list Z) :
  (∀ i, (i + 1 < length (x :: l))%nat → nth i (x :: l) 0 <= nth (i + 1) (x :: l) 0)
  ↔ HdRel Z.le x l ∧
    (∀ i, (i + 1 < length l)%nat → nth i l 0 <= nth (i + 1) l 0).
Proof.
  split.
  - intros H. split.
    + destruct l as [|y l]; constructor. apply (H 0%nat). simpl. lia.
    + intros i Hi. apply (H (S i)). simpl. lia.
  - intros [Hhd H] [|i] Hi.
    + destruct l as [|y l]; [simpl in Hi; lia|]. by inversion Hhd.
    + apply (H i). simpl in Hi. lia.
Qed.

Lemma adjacent_Sorted (a : list Z) :
  (∀ i, (i + 1 < length a)%nat → nth i a 0 <= nth (i + 1) a 0) ↔ Sorted Z.le a.
Proof.
  induction a as [|x l IH].
  - split; [constructor | intros _ i Hi; simpl in Hi; lia].
  - rewrite adjacent_cons, IH. split.
    + intros [? ?]. by constructor.
    + intros H. by inversion H.
Qed.

End SortedMore.

(** ** More on infer_distribution *)

Section InferMore.

Lemma filename_contains (p : string) : Str.contains sep (filename p) = false.
Proof.
  induction p as [|c rest IH]; [done|]. simpl.
  destruct (Str.contains sep rest) eqn:Hr; [done|].
  destruct (Ascii.eqb c sep) eqn:Hc; [done|].
  simpl. rewrite Ascii.eqb_sym, Hc. done.
Qed.

Lemma substr0_prefix (s : string) (n : nat) :
  ∃ rest, s = Str.substr0 s n +:+ rest ∧ (String.length (Str.substr0 s n) ≤ n)%nat.
Proof.
  revert n. induction s as [|c s IH]; intros [|n]; simpl.
  - by exists ""%string.
  - exists ""%string. split; [done | lia].
  - exists (String c s). done.
  - destruct (IH n) as (rest & Hs & Hlen). exists rest.
    split; [by rewrite <- Hs | lia].
Qed.

Lemma contains_substr0 (c : ascii) (s : string) (n : nat) :
  Str.contains c s = false → Str.contains c (Str.substr0 s n) = false.
Proof.
  destruct (substr0_prefix s n) as (rest & Hs & _). intros H.
  rewrite Hs, contains_app in H. by apply orb_false_iff in H as [? _].
Qed.

Lemma occurs_substr0 (needle s : string) (n j : nat) :
  Str.occurs_at needle (Str.substr0 s n) j →
  Str.occurs_at needle s j ∧ (j + String.length needle ≤ n)%nat.
Proof.
  destruct (substr0_prefix s n) as (rest & Hs & Hlen).
  intros (pre & post & Heq & Hj). split.
  - exists pre, (post +:+ rest). split; [|done].
    rewrite Hs at 1. rewrite Heq. by rewrite !append_assoc.
  - rewrite Heq, !length_append in Hlen. lia.
Qed.

Lemma infer_distribution_no_marker (path : string) :
  ¬ Str.occurs "_n" (infer_distribution path).
Proof.
  unfold infer_distribution.
  destruct (Str.find (filename path) "_n") as [pos|] eqn:Hf.
  - destruct (find_Some _ _ _ Hf) as [_ Hmin]. intros [j Hj].
    apply occurs_substr0 in Hj as [Hj Hlen]. apply Hmin in Hj.
    simpl in Hlen. lia.
  - by apply find_None.
Qed.

Lemma infer_distribution_no_sep (path : string) :
  Str.contains sep (infer_distribution path) = false.
Proof.
  unfold infer_distribution.
  destruct (Str.find (filename path) "_n") as [pos|]; [|done].
  apply contains_substr0, filename_contains.
Qed.

End InferMore.

(** ** std::stoi against std::to_string *)

Section Stoi.

Lemma is_nat_digit (c : ascii) :
  Ascii.is_nat c = if is_digit c then Some (Z.to_nat (digit_val c)) else None.
Proof. destruct c as [[] [] [] [] [] [] [] []]; reflexivity. Qed.

Lemma is_digit_range (c : ascii) : is_digit c = true → 0 <= digit_val c <= 9.
Proof.
  unfold is_digit, digit_val. intros H. apply andb_true_iff in H as [H1 H2].
  apply Z.leb_le in H1, H2. lia.
Qed.

Lemma digits_value_stop (rest : string) (acc : option Z) :
  starts_with_digit rest = false → digits_value rest acc = acc.
Proof.
  destruct rest as [|c rest]; [done|]. simpl. intros Hc.
  by rewrite is_nat_digit, Hc.
Qed.

Lemma digits_value_app (s rest : string) (a : Z) :
  all_digits s = true → starts_with_digit rest = false →
  digits_value (s +:+ rest) (Some a)
    = Some (a * 10 ^ Z.of_nat (String.length s) + decimal_value s).
Proof.
  revert a. induction s as [|c s IH]; intros a Hs Hrest.
  - simpl. rewrite digits_value_stop by done. f_equal. lia.
  - cbn [all_digits] in Hs. apply andb_true_iff in Hs as [Hc Hs].
    cbn [String.append digits_value]. rewrite is_nat_digit, Hc.
    cbn [default from_option]. rewrite IH by done. f_equal.
    pose proof (is_digit_range c Hc).
    cbn [decimal_value String.length]. rewrite Z2Nat.id by lia.
    rewrite Nat2Z.inj_succ, Z.pow_succ_r by lia. unfold id. ring.
Qed.

Lemma digits_value_dec (n : Z) (rest : string) :
  0 <= n → starts_with_digit rest = false →
  digits_value (dec n +:+ rest) None = Some n.
Proof.
  intros Hn Hrest. destruct (dec_digits n) as [Hd Hne].
  pose proof (dec_value n Hn) as Hv.
  destruct (dec n) as [|c s]; [done|].
  cbn [all_digits] in Hd. apply andb_true_iff in Hd as [Hc Hs].
  cbn [String.append digits_value]. rewrite is_nat_digit, Hc.
  cbn [default from_option]. rewrite digits_value_app by done. f_equal.
  pose proof (is_digit_range c Hc).
  cbn [decimal_value] in Hv. rewrite Z2Nat.id by lia. lia.
Qed.

Lemma skip_spaces_digit (c : ascii) (s : string) :
  is_digit c = true → skip_spaces (String c s) = String c s.
Proof.
  intros Hc. cbn [skip_spaces].
  assert (Ascii.is_space c = false) as ->; [|done].
  destruct c as [[] [] [] [] [] [] [] []]; try reflexivity; discriminate Hc.
Qed.

Lemma stoi_unsigned (c : ascii) (s : string) :
  is_digit c = true →
  stoi (String c s) =
    match digits_value (String c s) None with
    | None => StoiInvalid
    | Some m =>
        if (- 2^31 <=? m) && (m <=? 2^31 - 1) then StoiValue m else StoiOutOfRange
    end.
Proof.
  intros Hc. unfold stoi. rewrite skip_spaces_digit by done.
  destruct c as [[] [] [] [] [] [] [] []]; try reflexivity; discriminate Hc.
Qed.

Lemma stoi_negative (s : string) :
  stoi (String "-" s) =
    match digits_value s None with
    | None => StoiInvalid
    | Some m =>
        if (- 2^31 <=? - m) && (- m <=? 2^31 - 1) then StoiValue (- m)
        else StoiOutOfRange
    end.
Proof. reflexivity. Qed.

Lemma stoi_to_string_app (v : Z) (rest : string) :
  int32_range v → starts_with_digit rest = false →
  stoi (to_string v +:+ rest) = StoiValue v.
Proof.
  intros [Hlo Hhi] Hrest. unfold to_string.
  destruct (v <? 0) eqn:Hneg.
  - apply Z.ltb_lt in Hneg.
    change (("-" +:+ dec (- v)) +:+ rest) with (String "-" (dec (- v) +:+ rest)).
    rewrite stoi_negative, digits_value_dec by (done || lia).
    rewrite Z.opp_involutive.
    rewrite (proj2 (Z.leb_le _ _)), (proj2 (Z.leb_le _ _)) by lia. done.
  - apply Z.ltb_ge in Hneg.
    pose proof (digits_value_dec v rest Hneg Hrest) as Hdv.
    destruct (dec_digits v) as [Hd Hne].
    destruct (dec v) as [|c s] eqn:Hdec; [done|].
    cbn [all_digits] in Hd. apply andb_true_iff in Hd as [Hc _].
    change (String c s +:+ rest) with (String c (s +:+ rest)) in *.
    rewrite stoi_unsigned, Hdv by done.
    rewrite (proj2 (Z.leb_le _ _)), (proj2 (Z.leb_le _ _)) by lia. done.
Qed.

End Stoi.

(** ** More on the command line *)

Section ParseMore.

#[local] Opaque usage_text.

Lemma stoi_range (v : string) (z : Z) : stoi v = StoiValue z → int32_range z.
Proof.
  unfold stoi.
  destruct (match skip_spaces v with
            | String "-" rest => (true, rest)
            | String "+" rest => (false, rest)
            | _ => (false, skip_spaces v)
            end) as [neg s2].
  destruct (digits_value s2 None) as [m|]; [|done].
  destruct ((- 2 ^ 31 <=? (if neg then - m else m))
            && ((if neg then - m else m) <=? 2 ^ 31 - 1)) eqn:Hr; [|done].
  intros [= <-]. apply andb_true_iff in Hr as [H1 H2].
  apply Z.leb_le in H1, H2. unfold int32_range. lia.
Qed.

Lemma need_value_ret (rest : list string) (k : string → list string → M Args)
    (w w1 : World) (a1 : Args) :
  need_value rest k w = (Ret a1, w1) →
  ∃ v rest', rest = v :: rest' ∧ k v rest' w = (Ret a1, w1).
Proof. destruct rest as [|v rest']; [done|]. intros H. by exists v, rest'. Qed.

Lemma stoi_call_ret {A} (v : string) (k : Z → M A) (w w1 : World) (a1 : A) :
  (stoi_call v ≫= k) w = (Ret a1, w1) →
  ∃ z, stoi v = StoiValue z ∧ k z w = (Ret a1, w1).
Proof.
  unfold stoi_call, mbind, M_bind.
  destruct (stoi v) as [z| |]; [|done|done]. intros H. by exists z.
Qed.

Lemma stoi_call_value {A} (v : string) (z : Z) (k : Z → M A) (w : World) :
  stoi v = StoiValue z → (stoi_call v ≫= k) w = k z w.
Proof. intros H. unfold stoi_call, mbind, M_bind. by rewrite H. Qed.

(** What one step of the option loop does when the loop goes on to return:
    the options after the step and the arguments left. *)
Lemma parse_loop_step (a a1 : Args) (arg : string) (rest : list string)
    (w w1 : World) :
  parse_loop a (arg :: rest) w = (Ret a1, w1) →
  ∃ a' rest',
    parse_loop a' rest' w = (Ret a1, w1) ∧
    (length rest' ≤ length rest)%nat ∧
    (∀ more, parse_loop a (arg :: rest ++ more) w = parse_loop a' (rest' ++ more) w) ∧
    (∀ flag, flag ∉ arg :: rest → flag ∉ rest') ∧
    (arg ≠ "--dataset" → dataset a' = dataset a) ∧
    (arg ≠ "--algo" → algo a' = algo a) ∧
    (arg ≠ "--warmup" → warmup a' = warmup a) ∧
    (arg ≠ "--reps" → reps a' = reps a) ∧
    (arg ≠ "--out" → out a' = out a) ∧
    (arg ≠ "--no-validate" → validate a' = validate a) ∧
    (int32_range (warmup a) → int32_range (warmup a')) ∧
    (int32_range (reps a) → int32_range (reps a')).
Proof.
  assert (Hflag : ∀ (v : string) (rest' : list string) (flag : string),
            flag ∉ arg :: v :: rest' → flag ∉ rest').
  { intros v rest' flag H. by apply not_elem_of_cons in H as [_ [_ ?]%not_elem_of_cons]. }
  cbn [parse_loop]. repeat case_decide.
  - intros (v & rest' & -> & Hk)%need_value_ret.
    eexists; exists rest'. split; [exact Hk|]. split; [simpl; lia|].
    split; [done|]. split; [apply Hflag|]. simpl. done.
  - intros (v & rest' & -> & Hk)%need_value_ret.
    eexists; exists rest'. split; [exact Hk|]. split; [simpl; lia|].
    split; [done|]. split; [apply Hflag|]. simpl. done.
  - intros (v & rest' & -> & (z & Hz & Hk)%stoi_call_ret)%need_value_ret.
    eexists; exists rest'. split; [exact Hk|]. split; [simpl; lia|].
    split; [intros more; cbn [app need_value]; by rewrite (stoi_call_value _ _ _ _ Hz)|].
    split; [apply Hflag|]. simpl.
    repeat (split; [done|]). split; [|done]. intros _. by apply stoi_range in Hz.
  - intros (v & rest' & -> & (z & Hz & Hk)%stoi_call_ret)%need_value_ret.
    eexists; exists rest'. split; [exact Hk|]. split; [simpl; lia|].
    split; [intros more; cbn [app need_value]; by rewrite (stoi_call_value _ _ _ _ Hz)|].
    split; [apply Hflag|]. simpl.
    repeat (split; [done|]). intros _. by apply stoi_range in Hz.
  - intros (v & rest' & -> & Hk)%need_value_ret.
    eexists; exists rest'. split; [exact Hk|]. split; [simpl; lia|].
    split; [done|]. split; [apply Hflag|]. simpl. done.
  - intros Hk. eexists; exists rest. split; [exact Hk|]. split; [lia|].
    split; [done|].
    split; [intros flag Hf; by apply not_elem_of_cons in Hf as [_ ?]|]. simpl. done.
  - done.
Qed.

Lemma parse_loop_nil (a a1 : Args) (w w1 : World) :
  parse_loop a [] w = (Ret a1, w1) → a1 = a ∧ w1 = w.
Proof. by intros [= -> ->]. Qed.

Lemma parse_loop_concat_le (n : nat) (args more : list string) (a a1 : Args)
    (w w1 : World) :
  (length args ≤ n)%nat →
  parse_loop a args w = (Ret a1, w1) →
  parse_loop a (args ++ more) w = parse_loop a1 more w1.
Proof.
  revert args a. induction n as [|n IH]; intros [|arg rest] a Hlen Hrun;
    try (simpl in Hlen; lia);
    try (apply parse_loop_nil in Hrun as [-> ->]; done).
  destruct (parse_loop_step _ _ _ _ _ _ Hrun) as (a' & rest' & Hk & Hl & Happ & _).
  rewrite <- app_comm_cons, Happ. apply IH; [simpl in Hlen; lia | done].
Qed.

Lemma parse_loop_kept_le (n : nat) (args : list string) (a a1 : Args)
    (w w1 : World) :
  (length args ≤ n)%nat →
  parse_loop a args w = (Ret a1, w1) →
  ("--dataset" ∉ args → dataset a1 = dataset a) ∧
  ("--algo" ∉ args → algo a1 = algo a) ∧
  ("--warmup" ∉ args → warmup a1 = warmup a) ∧
  ("--reps" ∉ args → reps a1 = reps a) ∧
  ("--out" ∉ args → out a1 = out a) ∧
  ("--no-validate" ∉ args → validate a1 = validate a) ∧
  (int32_range (warmup a) → int32_range (warmup a1)) ∧
  (int32_range (reps a) → int32_range (reps a1)).
Proof.
  revert args a. induction n as [|n IH]; intros [|arg rest] a Hlen Hrun;
    try (simpl in Hlen; lia);
    try (apply parse_loop_nil in Hrun as [-> ->]; done).
  destruct (parse_loop_step _ _ _ _ _ _ Hrun)
    as (a' & rest' & Hk & Hl & _ & Hflag & H1 & H2 & H3 & H4 & H5 & H6 & H7 & H8).
  destruct (IH rest' a' ltac:(simpl in Hlen; lia) Hk)
    as (I1 & I2 & I3 & I4 & I5 & I6 & I7 & I8).
  repeat split.
  - intros H. rewrite I1, H1; [done| |by apply Hflag].
    intros ->. apply H. by left.
  - intros H. rewrite I2, H2; [done| |by apply Hflag].
    intros ->. apply H. by left.
  - intros H. rewrite I3, H3; [done| |by apply Hflag].
    intros ->. apply H. by left.
  - intros H. rewrite I4, H4; [done| |by apply Hflag].
    intros ->. apply H. by left.
  - intros H. rewrite I5, H5; [done| |by apply Hflag].
    intros ->. apply H. by left.
  - intros H. rewrite I6, H6; [done| |by apply Hflag].
    intros ->. apply H. by left.
  - by apply I7, H7.
  - by apply I7, H7.
  - by apply I8, H8.
  - by apply I8, H8.
Qed.

Lemma parse_args_loop (argv : list string) (w : World) (a : Args) :
  fst (parse_args argv w) = Ret a →
  parse_loop default_args (tail argv) w = (Ret a, w).
Proof.
  unfold parse_args, mbind at 1, M_bind.
  pose proof (parse_loop_cases (tail argv) default_args w) as Hloop.
  destruct (parse_loop default_args (tail argv) w) as [[a'| |c] w1];
    cbn [parse_loop_outcome] in Hloop; [|done|done].
  subst w1. case_decide; [done|].
  destruct ((warmup a' <? 0) || (reps a' <=? 0)); [done|].
  destruct (bool_decide (algo a' = "builtin")); [|done].
  by intros [= ->].
Qed.

End ParseMore.

(** ** The dataset format, from the bytes to the values and back *)

Section CodecMore.

Lemma byte_of_byte_val (c : ascii) : byte_of (byte_val c) = c.
Proof.
  unfold byte_of, byte_val. pose proof (N_ascii_bounded c).
  rewrite Z.mod_small by lia. rewrite N2Z.id. apply ascii_N_embedding.
Qed.

Lemma byte_of_mod (z z' : Z) : z mod 256 = z' mod 256 → byte_of z = byte_of z'.
Proof. unfold byte_of. by intros ->. Qed.

Lemma testbit_byte_val (c : ascii) (i : Z) : 8 <= i → Z.testbit (byte_val c) i = false.
Proof.
  intros Hi. pose proof (byte_val_bound c).
  rewrite <- (Z.mod_small (byte_val c) (2^8)) by lia.
  apply Z.mod_pow2_bits_high. lia.
Qed.

(** Byte [k] of the 32-bit word put together from four bytes. *)
Lemma le_uint32_bytes (b0 b1 b2 b3 : ascii) :
  let u := le_uint32 b0 b1 b2 b3 in
  u mod 2^8 = byte_val b0 ∧ (Z.shiftr u 8) mod 2^8 = byte_val b1 ∧
  (Z.shiftr u 16) mod 2^8 = byte_val b2 ∧ (Z.shiftr u 24) mod 2^8 = byte_val b3.
Proof.
  assert (Hbit : ∀ k i, 0 <= k → 0 <= i →
    Z.testbit (Z.shiftr (le_uint32 b0 b1 b2 b3) k) i =
      Z.testbit (byte_val b0) (i + k) || Z.testbit (byte_val b1) (i + k - 8)
      || Z.testbit (byte_val b2) (i + k - 16) || Z.testbit (byte_val b3) (i + k - 24)).
  { intros k i Hk Hi. unfold le_uint32.
    rewrite Z.shiftr_spec, !Z.lor_spec, !Z.shiftl_spec by lia.
    by rewrite !orb_assoc. }
  assert (Hbyte : ∀ k x, 0 <= k →
    (∀ i, 0 <= i < 8 →
       Z.testbit (Z.shiftr (le_uint32 b0 b1 b2 b3) k) i = Z.testbit (byte_val x) i) →
    (Z.shiftr (le_uint32 b0 b1 b2 b3) k) mod 2^8 = byte_val x).
  { intros k x Hk Hi. apply Z.bits_inj'. intros i Hi0.
    rewrite Z.testbit_mod_pow2 by lia.
    destruct (Z.ltb_spec i 8); cbn [andb].
    - apply Hi. lia.
    - symmetry. by apply testbit_byte_val. }
  cbv zeta. rewrite <- (Z.shiftr_0_r (le_uint32 b0 b1 b2 b3)) at 1.
  repeat split; apply Hbyte; try lia; intros i Hi; rewrite Hbit by lia.
  - rewrite (Z.testbit_neg_r _ (i + 0 - 8)), (Z.testbit_neg_r _ (i + 0 - 16)),
      (Z.testbit_neg_r _ (i + 0 - 24)) by lia.
    rewrite !orb_false_r. f_equal. lia.
  - rewrite (testbit_byte_val b0), (Z.testbit_neg_r _ (i + 8 - 16)),
      (Z.testbit_neg_r _ (i + 8 - 24)) by lia.
    rewrite !orb_false_r. cbn [orb]. f_equal. lia.
  - rewrite (testbit_byte_val b0), (testbit_byte_val b1),
      (Z.testbit_neg_r _ (i + 16 - 24)) by lia.
    rewrite !orb_false_r. cbn [orb]. f_equal. lia.
  - rewrite (testbit_byte_val b0), (testbit_byte_val b1), (testbit_byte_val b2)
      by lia.
    cbn [orb]. f_equal. lia.
Qed.

Lemma encode_le32_le_uint32 (b0 b1 b2 b3 : ascii) :
  encode_le32 (le_uint32 b0 b1 b2 b3)
    = String b0 (String b1 (String b2 (String b3 ""))).
Proof.
  destruct (le_uint32_bytes b0 b1 b2 b3) as (H0 & H1 & H2 & H3).
  assert (Hb : ∀ z b, z mod 2^8 = byte_val b → byte_of z = b).
  { intros z b Hz. rewrite <- (byte_of_byte_val b), <- Hz.
    apply byte_of_mod. change (2^8) with 256. by rewrite Z.mod_mod. }
  unfold encode_le32.
  by rewrite (Hb _ _ H0), (Hb _ _ H1), (Hb _ _ H2), (Hb _ _ H3).
Qed.

Lemma shiftr_minus_pow32 (u k : Z) :
  0 <= k <= 24 →
  (Z.shiftr (u - 2^32) k) mod 256 = (Z.shiftr u k) mod 256.
Proof.
  intros Hk. rewrite !Z.shiftr_div_pow2 by lia.
  replace (u - 2^32) with (u + (- 2^(32 - k)) * 2^k).
  - rewrite Z.div_add by (apply Z.pow_nonzero; lia).
    replace (- 2^(32 - k)) with ((- 2^(24 - k)) * 256).
    + by rewrite Z.mod_add.
    + replace (32 - k) with ((24 - k) + 8) by lia.
      rewrite Z.pow_add_r by lia. lia.
  - replace 32 with ((32 - k) + k) at 2 by lia.
    rewrite Z.pow_add_r by lia. lia.
Qed.

Lemma encode_le32_as_int32 (u : Z) : encode_le32 (as_int32 u) = encode_le32 u.
Proof.
  unfold as_int32. destruct (u <? 2^31); [done|].
  assert (Hb : ∀ k, 0 <= k <= 24 →
            byte_of (Z.shiftr (u - 2^32) k) = byte_of (Z.shiftr u k))
    by (intros; apply byte_of_mod, shiftr_minus_pow32; lia).
  assert (H0 : byte_of (u - 2^32) = byte_of u).
  { apply byte_of_mod. pose proof (shiftr_minus_pow32 u 0 ltac:(lia)) as H.
    by rewrite !Z.shiftr_0_r in H. }
  unfold encode_le32. by rewrite H0, !Hb by lia.
Qed.

Lemma as_int32_range (u : Z) : 0 <= u < 2^32 → int32_range (as_int32 u).
Proof.
  unfold as_int32, int32_range. intros Hu.
  destruct (Z.ltb_spec u (2^31)); lia.
Qed.

Lemma decode_int32s_range (payload : string) (n : nat) :
  String.length payload = (4 * n)%nat → Forall int32_range (decode_int32s payload).
Proof.
  revert payload. induction n as [|n IH]; intros payload Hlen.
  - destruct payload; [constructor | done].
  - destruct payload as [|b0 [|b1 [|b2 [|b3 rest]]]]; simpl in Hlen; try lia.
    cbn [decode_int32s]. constructor.
    + apply as_int32_range, le_uint32_bound.
    + apply IH. lia.
Qed.

Lemma encode_decode_payload (payload : string) (n : nat) :
  String.length payload = (4 * n)%nat →
  encode_payload (decode_int32s payload) = payload.
Proof.
  revert payload. induction n as [|n IH]; intros payload Hlen.
  - by destruct payload.
  - destruct payload as [|b0 [|b1 [|b2 [|b3 rest]]]]; simpl in Hlen; try lia.
    cbn [decode_int32s]. unfold encode_payload in *.
    rewrite fmap_cons. cbn [Str.concat].
    rewrite encode_le32_as_int32, encode_le32_le_uint32, IH by lia. done.
Qed.

Lemma istream_read_cons (k : nat) (c : ascii) (unread : string) :
  istream_read (S k) (String c unread) =
    match istream_read k unread with
    | Some (got, rest) => Some (String c got, rest)
    | None => None
    end.
Proof. reflexivity. Qed.

Lemma istream_read_inv (k : nat) (unread got rest : string) :
  istream_read k unread = Some (got, rest) →
  unread = got +:+ rest ∧ String.length got = k.
Proof.
  revert unread got. induction k as [|k IH]; intros unread got.
  - by intros [= <- <-].
  - destruct unread as [|c unread]; [done|]. rewrite istream_read_cons.
    destruct (istream_read k unread) as [[got' rest']|] eqn:Hk; [|done].
    intros [= <- <-]. destruct (IH _ _ Hk) as [-> <-]. done.
Qed.

Lemma encode_header_count (header : string) :
  String.length header = 4%nat → encode_le32 (header_count header) = header.
Proof.
  destruct header as [|b0 [|b1 [|b2 [|b3 [|? ?]]]]]; try done.
  intros _. apply encode_le32_le_uint32.
Qed.

Lemma read_bin_int32_le_ret_inv (path : string) (w : World) (vs : list Z) :
  fst (read_bin_int32_le path w) = Ret vs →
  fs w !! path = Some (File (dataset_bytes vs)) ∧
  Forall int32_range vs ∧ Z.of_nat (length vs) < 2^32.
Proof.
  rewrite read_bin_int32_le_cases.
  destruct (fs w !! path) as [[|c]|]; [done| |done]. cbv zeta.
  destruct (istream_read 4 c) as [[header rest]|] eqn:Hh; [|done].
  destruct (istream_read _ rest) as [[payload [|x rest']]|] eqn:Hp; [|done|done].
  intros [= <-].
  apply istream_read_inv in Hh as [-> Hlh]. apply istream_read_inv in Hp as [-> Hlp].
  pose proof (header_count_bound header) as Hb.
  assert (Hlen : String.length payload = (4 * Z.to_nat (header_count header))%nat)
    by lia.
  pose proof (length_decode_int32s _ _ Hlen) as Hn.
  split; [|split].
  - unfold dataset_bytes. rewrite Hn, Z2Nat.id by lia.
    rewrite encode_header_count, (encode_decode_payload _ _ Hlen) by done.
    by rewrite append_nil_r.
  - by apply (decode_int32s_range _ _ Hlen).
  - lia.
Qed.

Lemma read_bin_int32_le_ret_intro (path : string) (w : World) (vs : list Z) :
  fs w !! path = Some (File (dataset_bytes vs)) →
  Forall int32_range vs → Z.of_nat (length vs) < 2^32 →
  fst (read_bin_int32_le path w) = Ret vs.
Proof.
  intros Hfile Hvs Hlen. rewrite read_bin_int32_le_cases, Hfile.
  cbv beta iota zeta. unfold dataset_bytes.
  rewrite (istream_read_app (encode_le32 _)), header_count_encode by lia.
  replace (Z.to_nat (Z.of_nat (length vs) * 4))
    with (String.length (encode_payload vs))
    by (rewrite length_encode_payload; lia).
  rewrite <- (append_nil_r (encode_payload vs)) at 2.
  rewrite istream_read_app.
  rewrite <- (append_nil_r (encode_payload vs)).
  by rewrite decode_encode_payload.
Qed.

End CodecMore.
(** ** What a run leaves behind in the file system *)

Section Frame.

#[local] Opaque header_line.

Lemma fs_extends_refl (path : string) (t : FS) : fs_extends path t t.
Proof. split; [done|]. intros k _. by left. Qed.

Lemma fs_extends_trans (path : string) (t1 t2 t3 : FS) :
  fs_extends path t1 t2 → fs_extends path t2 t3 → fs_extends path t1 t3.
Proof.
  intros [C12 H12] [C23 H23]. split; [congruence|]. intros k Hk.
  assert (Hk2 : k ≠ place t2 path) by (by rewrite (place_cwd _ _ path C12)).
  destruct (H12 k Hk) as [E12|[N1 D2]], (H23 k Hk2) as [E23|[N2 D3]].
  - left. congruence.
  - right. split; congruence.
  - right. split; congruence.
  - congruence.
Qed.

Lemma dirs_added_extends (path : string) (t t' : FS) :
  dirs_added t t' → fs_extends path t t'.
Proof. intros [Hc Hg]. split; [done|]. intros k _. apply Hg. Qed.

Lemma write_log_extends (path content : string) (t : FS) :
  fs_extends path t (write_log path content t).
Proof.
  split; [done|]. intros k Hk. left. unfold write_log.
  cbn [entries set_entries]. by rewrite lookup_insert_ne.
Qed.

Lemma prepare_log_extends (path : string) (t t2 : FS) :
  prepare_log path t = Some t2 → fs_extends path t t2.
Proof.
  intros Hprep.
  destruct (prepare_log_inv _ _ _ Hprep)
    as (t1 & _ & _ & _ & _ & Hcwd & Hg & _ & _ & -> & _).
  assert (H1 : fs_extends path t t1) by (by apply dirs_added_extends).
  destruct (stored t path); [done|].
  apply (fs_extends_trans _ _ t1); [done | apply write_log_extends].
Qed.

(** What a successful run of appends leaves: the file system as the first
    preparation left it, with the log's content replaced. *)
Lemma write_log_prepared_extends (path content : string) (t t2 : FS) :
  prepare_log path t = Some t2 →
  fs_extends path t (write_log path content t2).
Proof.
  intros Hprep. apply (fs_extends_trans _ _ t2).
  - by apply prepare_log_extends.
  - apply write_log_extends.
Qed.

Lemma append_row_extends (path : string) (row : list string) (w : World) :
  fs_extends path (fs w) (fs (snd (append_row path row w))).
Proof.
  destruct (prepare_log path (fs w)) as [t2|] eqn:Hprep.
  - rewrite (append_row_ok _ _ _ _ Hprep). wsimpl.
    by apply write_log_prepared_extends.
  - destruct (append_row_fail _ row _ Hprep) as (w' & Hrun & Hfs & _).
    rewrite Hrun. cbn [snd]. rewrite Hfs.
    apply dirs_added_extends, append_failure_added.
Qed.

End Frame.

Section Run.

Context (E : Env).

Lemma measured_rows_length (a : Args) (xs : list Z) (wall0 steady0 count : nat) :
  length (measured_rows E a xs wall0 steady0 count) = count.
Proof. unfold measured_rows. by rewrite length_fmap, length_seq. Qed.


Lemma run_rows_length (a : Args) (xs : list Z) (w : World) :
  length (run_rows E a xs w) = Z.to_nat (reps a).
Proof. apply measured_rows_length. Qed.

Lemma run_rows_lookup (a : Args) (xs : list Z) (w : World) (i : nat) :
  (i < Z.to_nat (reps a))%nat →
  run_rows E a xs w !! i
    = Some (measured_row E a xs (wall_reads w) (steady_reads w) i).
Proof.
  intros Hi. unfold run_rows, measured_rows.
  rewrite list_lookup_fmap, lookup_seq_lt by done. done.
Qed.

(** A whole run that can open its log: the dataset is loaded, the warmup
    loop runs without a trace outside the vectors, and the measured loop
    echoes and appends the rows. *)
Lemma main_run (argv : list string) (w : World) (a : Args) (xs : list Z)
    (t2 : FS) :
  fst (parse_args argv w) = Ret a →
  fst (read_bin_int32_le (dataset a) w) = Ret xs →
  prepare_log (out a) (fs w) = Some t2 →
  let values := next_vector w in
  let n := wrap_int (Z.of_nat (length xs)) in
  let dist := infer_distribution (dataset a) in
  let rows := run_rows E a xs w in
  ∃ w0 w1 w',
    main_try E argv w = (run_loops E a values n dist;; mret 0) w0 ∧
    cout w0 = cout w ∧ cerr w0 = cerr w ∧ fs w0 = fs w ∧
    for_int (warmup a) (warmup_rep E values) w0 = (Ret tt, w1) ∧
    cout w1 = cout w0 ∧ cerr w1 = cerr w0 ∧ fs w1 = fs w0 ∧
    fs_calls w1 = fs_calls w0 ∧
    wall_reads w1 = wall_reads w ∧ steady_reads w1 = steady_reads w ∧
    for_int (reps a) (measured_rep E a values n dist) w1 = (Ret tt, w') ∧
    main E argv w = (0, w') ∧
    cout w' = cout w +:+ row_lines rows ∧ cerr w' = cerr w ∧
    fs w' = write_log (out a) (log_base (out a) (fs w) +:+ row_lines rows) t2 ∧
    wall_reads w' = (wall_reads w + Z.to_nat (reps a))%nat ∧
    steady_reads w' = (steady_reads w + 2 * Z.to_nat (reps a))%nat.
Proof.
  intros Hparse Hload Hlog values n dist rows.
  destruct (parse_args_ret _ _ _ Hparse) as (_ & _ & Hwarm & Hreps & _).
  destruct (main_try_loaded E _ _ _ _ Hparse Hload)
    as (w1 & Htry & Hh1 & Hfs1 & Hout1 & Herr1 & Hwall1 & Hst1 & Hnext1 & Hsort1).
  destruct (warmup_loop_run E _ _ (warmup a) _ Hh1)
    as (w2 & Hrun2 & Hh2 & Hfs2 & Hcalls2 & Hout2 & Herr2 & Hwall2 & Hst2
        & Hnext2 & Hsort2).
  assert (Hlog2 : prepare_log (out a) (fs w2) = Some t2)
    by (by rewrite Hfs2, Hfs1).
  destruct (measured_loop_run E a _ xs w2 (Z.to_nat (reps a)) t2 Hh2 Hlog2)
    as (w3 & Hrun3 & Hh3 & Hout3 & Herr3 & Hwall3 & Hst3 & _ & _ & Hfs3).
  rewrite Z2Nat.id in Hrun3 by lia.
  exists w1, w2, w3.
  split; [done|]. split; [done|]. split; [done|]. split; [done|].
  split; [done|]. split; [done|]. split; [done|]. split; [done|].
  split; [done|]. split; [congruence|]. split; [congruence|].
  split; [done|]. split.
  - unfold main. rewrite Htry. unfold run_loops.
    unfold mbind at 1, M_bind. unfold mbind at 1, M_bind.
    rewrite Hrun2. unfold for_int. rewrite Hrun3. done.
  - rewrite Hwall2, Hst2, Hwall1, Hst1 in Hout3, Hfs3.
    rewrite Hwall2, Hwall1 in Hwall3. rewrite Hst2, Hst1 in Hst3.
    fold (run_rows E a xs w) in Hout3, Hfs3. fold rows in Hout3, Hfs3.
    rewrite Hout3, Herr3, Hout2, Herr2, Hout1, Herr1, Hwall3, Hst3.
    split; [done|]. split; [done|]. split; [|done].
    destruct (Z.to_nat (reps a)) eqn:Hn; [lia|].
    by rewrite Hfs3, Hfs2, Hfs1.
Qed.

(** The same, without the phases. *)
Lemma main_run_ok (argv : list string) (w : World) (a : Args) (xs : list Z)
    (t2 : FS) :
  fst (parse_args argv w) = Ret a →
  fst (read_bin_int32_le (dataset a) w) = Ret xs →
  prepare_log (out a) (fs w) = Some t2 →
  let rows := run_rows E a xs w in
  ∃ w', main E argv w = (0, w') ∧
        cout w' = cout w +:+ row_lines rows ∧ cerr w' = cerr w ∧
        fs w' = write_log (out a) (log_base (out a) (fs w) +:+ row_lines rows) t2 ∧
        fs w' !! out a =
          Some (File (log_base (out a) (fs w) +:+ row_lines rows)) ∧
        log_open (out a) (fs w') ∧
        wall_reads w' = (wall_reads w + Z.to_nat (reps a))%nat ∧
        steady_reads w' = (steady_reads w + 2 * Z.to_nat (reps a))%nat.
Proof.
  intros Hparse Hload Hlog rows.
  destruct (main_run argv w a xs t2 Hparse Hload Hlog)
    as (w0 & w1 & w' & _ & _ & _ & _ & _ & _ & _ & _ & _ & _ & _ & _ & Hmain
        & Hout & Herr & Hfs & Hwall & Hst).
  pose proof (prepare_log_log_open _ _ _ Hlog) as Hopen.
  exists w'. split; [done|]. split; [done|]. split; [done|]. split; [done|].
  rewrite Hfs. split; [by apply lookup_write_log|].
  split; [by apply log_open_write_log | done].
Qed.

End Run.

(** ** The text of a row *)

Section RowText.

Lemma pad2_digits (x : Z) : 0 <= x <= 99 → digits_of 2 x (pad2 x).
Proof.
  intros Hx. unfold digits_of, pad2. split; [done|].
  assert (H1 : 0 <= x / 10 mod 10 <= 9)
    by (pose proof (Z.mod_pos_bound (x / 10) 10); lia).
  assert (H0 : 0 <= x mod 10 <= 9) by (pose proof (Z.mod_pos_bound x 10); lia).
  split.
  - cbn [all_digits]. by rewrite !digit_char_is_digit.
  - cbn [decimal_value String.length]. rewrite !digit_val_digit_char by done.
    change (10 ^ Z.of_nat 1) with 10. change (10 ^ Z.of_nat 0) with 1.
    rewrite (Z.mod_small (x / 10)).
    + pose proof (Z.div_mod x 10). lia.
    + split; [apply Z.div_pos; lia | apply Z.div_lt_upper_bound; lia].
Qed.

Lemma dec_four_digits (n : Z) : 1000 <= n <= 9999 → digits_of 4 n (dec n).
Proof.
  intros Hn. destruct (dec_digits n) as [Hd _].
  split; [|split; [done | apply dec_value; lia]].
  unfold dec.
  assert (9 <= Z.log2 n) as Hlog.
  { change 9 with (Z.log2 512). apply Z.log2_le_mono. lia. }
  destruct (Z.to_nat (Z.log2 n)) as [|[|[|k]]] eqn:Hk; try lia.
  cbn [dec_go].
  rewrite (proj2 (Z.ltb_ge n 10)) by lia.
  rewrite (proj2 (Z.ltb_ge (n / 10) 10))
    by (apply Z.div_le_lower_bound; lia).
  rewrite (proj2 (Z.ltb_ge (n / 10 / 10) 10))
    by (rewrite Z.div_div by lia; apply Z.div_le_lower_bound; lia).
  rewrite (proj2 (Z.ltb_lt (n / 10 / 10 / 10) 10))
    by (rewrite !Z.div_div by lia; apply Z.div_lt_upper_bound; lia).
  done.
Qed.

(** Commas and line feeds in the text of a field: [c] is one of the two. *)
Lemma is_digit_not_separator (c d : ascii) :
  c = ","%char ∨ c = "010"%char → is_digit d = true → Ascii.eqb c d = false.
Proof.
  intros [-> | ->];
    destruct d as [[] [] [] [] [] [] [] []]; try reflexivity; discriminate.
Qed.

Lemma count_separator_digits (c : ascii) (s : string) :
  c = ","%char ∨ c = "010"%char → all_digits s = true → count_char c s = 0%nat.
Proof.
  intros Hc. induction s as [|d s IH]; [done|]. cbn [all_digits count_char].
  intros [Hd Hs]%andb_true_iff. by rewrite (is_digit_not_separator c d Hc Hd), IH.
Qed.

Lemma count_separator_to_string (c : ascii) (v : Z) :
  c = ","%char ∨ c = "010"%char → count_char c (to_string v) = 0%nat.
Proof.
  intros Hc. unfold to_string.
  destruct (v <? 0); rewrite ?count_char_app, (count_separator_digits c (dec _))
    by (done || apply dec_digits); [|done].
  by destruct Hc as [-> | ->].
Qed.

Lemma count_separator_pad2 (c : ascii) (x : Z) :
  c = ","%char ∨ c = "010"%char → count_char c (pad2 x) = 0%nat.
Proof.
  intros Hc. apply count_separator_digits; [done|]. unfold pad2. cbn [all_digits].
  rewrite !digit_char_is_digit; [done| |].
  - pose proof (Z.mod_pos_bound x 10). lia.
  - pose proof (Z.mod_pos_bound (x / 10) 10). lia.
Qed.

Lemma count_separator_put_time (c : ascii) (t : tm) :
  c = ","%char ∨ c = "010"%char → count_char c (put_time t) = 0%nat.
Proof.
  intros Hc. unfold put_time.
  rewrite !count_char_app, count_separator_to_string, !count_separator_pad2 by done.
  by destruct Hc as [-> | ->].
Qed.

Lemma count_separator_fixed3 (c : ascii) (v : double) :
  c = ","%char ∨ c = "010"%char → count_char c (fixed3 v) = 0%nat.
Proof.
  intros Hc.
  destruct (fixed3_shape v) as (whole & d1 & d2 & d3 & -> & _ & Hw & H1 & H2 & H3).
  rewrite !count_char_app, (count_separator_digits c whole Hc Hw).
  cbn [count_char].
  rewrite (is_digit_not_separator c d1 Hc H1), (is_digit_not_separator c d2 Hc H2),
    (is_digit_not_separator c d3 Hc H3).
  by destruct Hc as [-> | ->], (d_neg v).
Qed.

(** The separators in the line of a row: eleven commas and one line feed,
    and whatever the three fields taken from the command line hold. *)
Lemma count_separator_make_row (c : ascii) (t : tm) (a : Args) (dist : string)
    (n rep : Z) (time_ms : double) (ok : bool) :
  c = ","%char ∨ c = "010"%char →
  count_char c (row_line (make_row (put_time t) a dist n rep time_ms ok)) =
    ((if Ascii.eqb c "," then 11 else 1) + count_char c (algo a)
     + count_char c (dataset a) + count_char c dist)%nat.
Proof.
  intros Hc. rewrite row_line_make_row, !count_char_app.
  rewrite count_separator_put_time, !count_separator_to_string,
    count_separator_fixed3 by done.
  destruct Hc as [-> | ->].
  - change (count_char "," ",") with 1%nat.
    change (count_char "," "sort") with 0%nat.
    change (count_char "," "cpp") with 0%nat.
    change (count_char "," "c++20") with 0%nat.
    change (count_char "," nl) with 0%nat.
    change (Ascii.eqb "," ",") with true.
    destruct ok;
      [change (count_char "," "true") with 0%nat
      |change (count_char "," "false") with 0%nat]; lia.
  - change (count_char "010" ",") with 0%nat.
    change (count_char "010" "sort") with 0%nat.
    change (count_char "010" "cpp") with 0%nat.
    change (count_char "010" "c++20") with 0%nat.
    change (count_char "010" nl) with 1%nat.
    change (Ascii.eqb "010" ",") with false.
    destruct ok;
      [change (count_char "010" "true") with 0%nat
      |change (count_char "010" "false") with 0%nat]; lia.
Qed.

Lemma filename_suffix (p : string) : ∃ dir, p = dir +:+ filename p.
Proof.
  induction p as [|c rest [dir IH]]; [by exists ""%string|].
  cbn [filename]. destruct (Str.contains sep rest).
  - exists (String c dir). cbn [String.append]. by rewrite <- IH.
  - destruct (Ascii.eqb c sep).
    + by exists (String c "").
    + by exists ""%string.
Qed.

Lemma count_separator_infer_distribution (c : ascii) (path : string) :
  c = ","%char ∨ c = "010"%char →
  count_char c path = 0%nat → count_char c (infer_distribution path) = 0%nat.
Proof.
  intros Hc Hp. unfold infer_distribution.
  destruct (Str.find (filename path) "_n") as [pos|];
    [|by destruct Hc as [-> | ->]].
  destruct (filename_suffix path) as [dir Hdir].
  destruct (substr0_prefix (filename path) pos) as (rest & Hrest & _).
  rewrite Hdir, Hrest, !count_char_app in Hp. lia.
Qed.

(** The sign of the elapsed time is that of the tick count. *)
Lemma d_neg_duration_ms (ticks : Z) : d_neg (duration_ms ticks) = (ticks <? 0).
Proof.
  unfold duration_ms. destruct (Z.eqb_spec ticks 0) as [->|]; [done|].
  destruct (round53 (Z.abs ticks) 1) as [m1 e1].
  destruct (scale2 m1 1000000 (- e1)) as [num den].
  by destruct (round53 num den) as [m2 e2].
Qed.

End RowText.
(** ** Directory creation *)

Section Directories.

Implicit Types (m : gmap (list string) node) (k : name) (t s : FS).

Lemma prefix_trans (a b c : string) :
  Str.prefix a b = true → Str.prefix b c = true → Str.prefix a c = true.
Proof.
  rewrite !prefix_true. intros [p1 ->] [p2 ->]. exists (p1 +:+ p2).
  by rewrite append_assoc.
Qed.

Lemma prefix_refl (a : string) : Str.prefix a a = true.
Proof. apply prefix_true. exists ""%string. by rewrite append_nil_r. Qed.

Lemma remove_filename_prefix (p : string) : ∃ post, p = remove_filename p +:+ post.
Proof. exists (filename p). apply remove_filename_filename. Qed.

(** The parent of a path is a beginning of the path. *)
Lemma parent_path_prefix (p : string) : Str.prefix (parent_path p) p = true.
Proof.
  apply prefix_true. unfold parent_path.
  destruct (all_sep p) eqn:Hp; [exists ""%string; by rewrite append_nil_r|].
  destruct (remove_filename_prefix p) as [post1 H1].
  destruct (strip_trailing_sep_split (remove_filename p)) as (post2 & H2 & _).
  case_decide as Hr.
  - case_decide as Hq; [by exists p|].
    apply strip_trailing_sep_empty in Hr.
    destruct (remove_filename p) as [|c q'] eqn:Hrm; [done|].
    cbn [all_sep] in Hr. apply andb_true_iff in Hr as [Hc _].
    apply Ascii.eqb_eq in Hc as ->.
    exists (q' +:+ post1). by rewrite H1 at 1.
  - exists (post2 +:+ post1). rewrite <- append_assoc, <- H2. done.
Qed.

Lemma filename_strip_trailing_sep (q : string) :
  strip_trailing_sep q ≠ "" → filename (strip_trailing_sep q) ≠ "".
Proof.
  induction q as [|c rest IH]; [done|]. cbn [strip_trailing_sep].
  destruct (all_sep rest) eqn:Hrest.
  - destruct (Ascii.eqb c sep) eqn:Hc; [done|]. intros _.
    cbn [filename Str.contains]. by rewrite Hc.
  - intros _. cbn [filename].
    assert (Hne : strip_trailing_sep rest ≠ "").
    { intros H0. apply strip_trailing_sep_empty in H0. congruence. }
    specialize (IH Hne).
    destruct (Str.contains sep (strip_trailing_sep rest)); [done|].
    destruct (Ascii.eqb c sep); [done|done].
Qed.

(** A parent that ends in a separator is a root directory. *)
Lemma filename_parent_path (p : string) :
  filename (parent_path p) = "" → all_sep (parent_path p) = true.
Proof.
  unfold parent_path. destruct (all_sep p) eqn:Hp; [done|].
  case_decide as Hr; [by case_decide|].
  intros Hf. by apply filename_strip_trailing_sep in Hr.
Qed.

Lemma components_parent_path_trailing (p : string) :
  filename p = "" → components (parent_path p) = components p.
Proof.
  intros Hf. unfold parent_path. destruct (all_sep p) eqn:Hp; [done|].
  assert (Hq : remove_filename p = p).
  { rewrite (remove_filename_filename p) at 2. by rewrite Hf, append_nil_r. }
  rewrite Hq. case_decide as Hr.
  - apply strip_trailing_sep_empty in Hr. congruence.
  - apply components_strip_trailing_sep.
Qed.

Lemma parent_path_trailing (p : string) :
  filename p = "" → all_sep p = false →
  parent_path p ≠ "" ∧ filename (parent_path p) ≠ "".
Proof.
  intros Hf Hp.
  assert (Hq : remove_filename p = p).
  { rewrite (remove_filename_filename p) at 2. by rewrite Hf, append_nil_r. }
  unfold parent_path. rewrite Hp, Hq.
  case_decide as Hr.
  - apply strip_trailing_sep_empty in Hr. congruence.
  - split; [done | by apply filename_strip_trailing_sep].
Qed.

Lemma node_at_root m : node_at m [] = Some Dir.
Proof. done. Qed.

Lemma lookup_all_sep t (p : string) :
  all_sep p = true → p ≠ "" → t !! p = Some Dir.
Proof.
  intros Hp Hne. unfold lookup, FS_lookup, resolve, start.
  rewrite decide_False by done.
  rewrite (components_all_sep _ Hp), (all_sep_filename _ Hp).
  destruct p as [|c rest]; [done|]. cbn [all_sep absolute] in *.
  apply andb_true_iff in Hp as [-> _]. done.
Qed.

Lemma dirs_added_refl t : dirs_added t t.
Proof. split; [done | apply grows_refl]. Qed.

Lemma dirs_added_trans t1 t2 t3 :
  dirs_added t1 t2 → dirs_added t2 t3 → dirs_added t1 t3.
Proof.
  intros [C1 G1] [C2 G2]. split; [congruence|].
  by apply (grows_trans _ (entries t2)).
Qed.

Lemma walk_dirs_added t s k (cs : list string) k' :
  dirs_added t s → walk (entries t) k cs = inr k' →
  walk (entries s) k cs = inr k'.
Proof.
  intros [_ Hg]. apply walk_mono. intros k0. by apply grows_dir.
Qed.

Lemma node_at_dirs_added t s k :
  dirs_added t s → node_at (entries t) k = Some Dir →
  node_at (entries s) k = Some Dir.
Proof.
  intros [_ Hg]. apply node_at_dir. intros k0. by apply grows_dir.
Qed.

Lemma start_dirs_added t s (p : string) : dirs_added t s → start s p = start t p.
Proof. intros [Hc _]. unfold start. by rewrite Hc. Qed.

(** An existing directory is reached, and the other way round. *)
Lemma lookup_reaches t (p : string) : t !! p = Some Dir → reaches t p.
Proof.
  unfold lookup, FS_lookup, resolve. case_decide; [done|].
  destruct (walk _ _ _) as [e|k] eqn:Hw; [done|]. intros Hk.
  case_decide.
  - apply walk_snoc in Hw as (k0 & Hw0 & Hd & ->).
    unfold step in Hk. rewrite decide_True in Hk by done. by exists k0.
  - rewrite app_nil_r in Hw. by exists k.
Qed.

Lemma reaches_lookup t (p : string) : p ≠ "" → reaches t p → t !! p = Some Dir.
Proof.
  intros Hp (k & Hw & Hd). unfold lookup, FS_lookup, resolve.
  rewrite decide_False by done. case_decide.
  - rewrite (walk_snoc_dir _ _ _ _ _ Hw Hd). unfold step.
    by rewrite decide_True.
  - by rewrite app_nil_r, Hw.
Qed.

Lemma reaches_dirs_added t s (p : string) :
  dirs_added t s → reaches t p → reaches s p.
Proof.
  intros Hs (k & Hw & Hd). exists k.
  rewrite (start_dirs_added _ _ _ Hs).
  split; [by apply (walk_dirs_added t) | by apply (node_at_dirs_added t)].
Qed.

Lemma tree_parent t k :
  tree t → node_at (entries t) k = Some Dir →
  node_at (entries t) (removelast k) = Some Dir.
Proof.
  intros [_ Ht] Hk. unfold node_at in Hk. case_decide as Hk0.
  - by subst k.
  - apply Ht. by rewrite Hk.
Qed.

Lemma tree_insert t k :
  tree t → entries t !! k = None →
  node_at (entries t) (removelast k) = Some Dir →
  tree (set_entries (<[k := Dir]> (entries t)) t).
Proof.
  intros [Hc Ht] Hk Hp.
  assert (Hd : ∀ k', node_at (entries t) k' = Some Dir →
                     node_at (<[k := Dir]> (entries t)) k' = Some Dir).
  { intros k'. apply node_at_dir. intros k0 H0.
    rewrite lookup_insert_ne; [done | congruence]. }
  split; cbn [entries cwd set_entries]; [by apply Hd|].
  intros k' Hk'. apply Hd. destruct (decide (k = k')) as [<-|Hne]; [done|].
  rewrite lookup_insert_ne in Hk' by done. by apply Ht.
Qed.

(** One prefix of the path: a [.] or [..] leads on to a directory as it
    is; any other name is created, or is there, or is taken by a file,
    which is the only way [create_directory] fails here. *)
Lemma create_directory_step s (pp : string) k0 :
  tree s → filename pp ≠ "" →
  walk (entries s) (start s pp) (components (parent_path pp)) = inr k0 →
  node_at (entries s) k0 = Some Dir →
  (filename pp = "." ∨ filename pp = ".." → reaches s pp) ∧
  (¬ (filename pp = "." ∨ filename pp = "..") →
     match create_directory pp s with
     | (None, s') => tree s' ∧ dirs_added s s' ∧ reaches s' pp
     | (Some e, s') => e = EEXIST ∧ s' = s ∧ ∃ c, s !! pp = Some (File c)
     end).
Proof.
  intros Ht Hf Hw Hd.
  assert (Hpp : pp ≠ "") by (by intros ->).
  pose proof (components_parent_path pp Hf) as Hcs.
  pose proof (walk_snoc_dir _ _ _ (filename pp) _ Hw Hd) as Hw'.
  rewrite <- Hcs in Hw'. split.
  - intros Hdot. exists (step k0 (filename pp)). split; [done|].
    unfold step. destruct Hdot as [->| ->]; cbn; [done|].
    by apply tree_parent.
  - intros Hplain. unfold create_directory. rewrite decide_False by done.
    rewrite Hw'. rewrite step_plain in * by tauto.
    set (k := k0 ++ [filename pp]) in *.
    assert (Hk : k ≠ []) by (unfold k; by destruct k0).
    unfold node_at at 1. rewrite decide_False by done.
    destruct (entries s !! k) as [[|c]|] eqn:Hl.
    + split; [done|]. split; [apply dirs_added_refl|]. exists k.
      split; [done|]. unfold node_at. by rewrite decide_False.
    + split; [done|]. split; [done|]. exists c.
      unfold lookup, FS_lookup, resolve. rewrite !decide_False by done.
      rewrite app_nil_r, Hw'. unfold node_at. by rewrite decide_False.
    + assert (Hadd : dirs_added s (set_entries (<[k:=Dir]> (entries s)) s)).
      { split; [done|]. by apply grows_insert. }
      split; [|split; [done|]].
      * apply tree_insert; [done | done|]. unfold k.
        by rewrite removelast_last.
      * exists k. rewrite (start_dirs_added _ _ _ Hadd).
        split; [by apply (walk_dirs_added s)|].
        cbn [entries set_entries]. unfold node_at. rewrite decide_False by done.
        apply lookup_insert_eq.
Qed.

Lemma create_each_app (l1 l2 : list string) s :
  create_each (l1 ++ l2) s =
  match create_each l1 s with
  | (None, s1) => create_each l2 s1
  | (Some e, s1) => (Some e, s1)
  end.
Proof.
  revert s. induction l1 as [|top l1 IH]; intros s; [done|].
  cbn [app create_each]. destruct (create_directory top s) as [[e|] s1]; [done|].
  apply IH.
Qed.

(** What creating the collected prefixes, the outermost first, achieves
    from any later state of the tree [t]. *)
Definition creates (t : FS) (pp : string) (news : list string) : Prop :=
  ∀ s, dirs_added t s → tree s →
    match create_each news s with
    | (None, s') => tree s' ∧ dirs_added s s' ∧ reaches s' pp
    | (Some e, s') =>
        e = EEXIST ∧ dirs_added s s' ∧
        ∃ q c, q ∈ news ∧ s' !! q = Some (File c)
    end.

Lemma creates_step t (pp : string) (news : list string) :
  filename pp ≠ "" →
  (∀ s, dirs_added t s → tree s →
     match create_each news s with
     | (None, s') =>
         tree s' ∧ dirs_added s s' ∧
         ∃ k0, walk (entries s') (start s' pp) (components (parent_path pp))
                 = inr k0 ∧ node_at (entries s') k0 = Some Dir
     | (Some e, s') =>
         e = EEXIST ∧ dirs_added s s' ∧
         ∃ q c, q ∈ news ∧ s' !! q = Some (File c)
     end) →
  creates t pp
    (news ++ if decide (filename pp = "." ∨ filename pp = "..") then []
             else [pp]).
Proof.
  intros Hf Hup s Hs Hts. specialize (Hup s Hs Hts).
  rewrite create_each_app.
  destruct (create_each news s) as [[e|] s1].
  - destruct Hup as (-> & Hadd & q & c & Hq & Hc).
    split; [done|]. split; [done|]. exists q, c. split; [|done].
    apply elem_of_app. by left.
  - destruct Hup as (Ht1 & Hadd & k0 & Hw & Hd).
    destruct (create_directory_step s1 pp k0 Ht1 Hf Hw Hd) as [Hdot Hplain].
    case_decide as Hcase.
    + cbn [create_each]. split; [done|]. split; [done|]. by apply Hdot.
    + cbn [create_each]. specialize (Hplain Hcase).
      destruct (create_directory pp s1) as [[e|] s2].
      * destruct Hplain as (-> & -> & c & Hc). split; [done|]. split; [done|].
        exists pp, c. split; [|done]. apply elem_of_app. right.
        by apply list_elem_of_singleton.
      * destruct Hplain as (Ht2 & Hadd2 & Hr). split; [done|].
        split; [by apply (dirs_added_trans _ s1) | done].
Qed.

Lemma missing_dirs_spec t (fuel : nat) (pp : string) (missing : list string) :
  tree t → filename pp ≠ "" → (String.length pp ≤ fuel)%nat →
  match missing_dirs fuel t pp missing with
  | inr result =>
      ∃ news, result = news ++ missing ∧ creates t pp news ∧
              Forall (λ q, Str.prefix q pp = true) news
  | inl e =>
      (e = ENOTDIR ∧ ∃ q c, t !! q = Some (File c) ∧ Str.prefix q pp = true) ∨
      (e = ENAMETOOLONG ∧
       (1000 < length missing + length (components pp))%nat)
  end.
Proof.
  intros Ht. revert pp missing.
  induction fuel as [|fuel IH]; intros pp missing Hf Hlen.
  { destruct pp; [done | cbn [String.length] in Hlen; lia]. }
  cbn [missing_dirs].
  set (new := if decide (filename pp = "." ∨ filename pp = "..") then []
              else [pp]).
  assert (Hmiss : (if decide (filename pp = "." ∨ filename pp = "..")
                   then missing else pp :: missing) = new ++ missing).
  { unfold new. by case_decide. }
  rewrite Hmiss.
  pose proof (components_parent_path pp Hf) as Hcs.
  assert (Hcount1 : length (components pp)
                    = S (length (components (parent_path pp)))).
  { rewrite Hcs at 1. rewrite length_app. cbn [length]. lia. }
  assert (Hcount : (length (new ++ missing) ≤ S (length missing))%nat).
  { rewrite length_app. unfold new. case_decide; cbn [length]; lia. }
  assert (Hnew : Forall (λ q, Str.prefix q pp = true) new).
  { unfold new. case_decide; [done|]. repeat constructor. apply prefix_refl. }
  clear Hmiss.
  destruct (decide (1000 < length (new ++ missing))%nat) as [Hlimit|Hlimit];
    [right; split; [done | lia]|].
  assert (Hbase : ∀ s, dirs_added t s → tree s →
            (parent_path pp = "" ∨ t !! parent_path pp = Some Dir) →
            ∃ k0, walk (entries s) (start s pp) (components (parent_path pp))
                    = inr k0 ∧ node_at (entries s) k0 = Some Dir).
  { intros s Hs Hts [Hup|Hup].
    - rewrite Hup. exists (start s pp). split; [done|].
      unfold start. rewrite (contains_absolute pp) by (by apply parent_path_empty).
      apply Hts.
    - assert (Hne : parent_path pp ≠ "").
      { intros H0. rewrite H0 in Hup. by unfold lookup, FS_lookup, resolve in Hup. }
      apply lookup_reaches, (reaches_dirs_added _ _ _ Hs) in Hup.
      destruct Hup as (k0 & Hw & Hd). exists k0. split; [|done].
      unfold start in *. by rewrite absolute_parent_path in Hw. }
  destruct (decide (parent_path pp = "")) as [Hup|Hup].
  { exists new. split; [done|]. split; [|done].
    rewrite <- (app_nil_l new). apply creates_step; [done|].
    intros s Hs Hts. cbn [create_each]. split; [done|].
    split; [apply dirs_added_refl|]. apply Hbase; [done | done | by left]. }
  destruct (t !! parent_path pp) as [[|c]|] eqn:Hl.
  - exists new. split; [done|]. split; [|done].
    rewrite <- (app_nil_l new). apply creates_step; [done|].
    intros s Hs Hts. cbn [create_each]. split; [done|].
    split; [apply dirs_added_refl|]. apply Hbase; [done | done | by right].
  - left. split; [done|]. exists (parent_path pp), c. split; [done|].
    apply parent_path_prefix.
  - assert (Hsep : all_sep (parent_path pp) = false).
    { destruct (all_sep (parent_path pp)) eqn:Hs; [|done].
      by rewrite (lookup_all_sep _ _ Hs Hup) in Hl. }
    assert (Hfup : filename (parent_path pp) ≠ "").
    { intros H0. apply filename_parent_path in H0. congruence. }
    assert (Hlen' : (String.length (parent_path pp) ≤ fuel)%nat).
    { assert (Hpp : all_sep pp = false).
      { destruct (all_sep pp) eqn:Hs; [|done].
        by rewrite (all_sep_filename _ Hs) in Hf. }
      pose proof (length_parent_path pp Hpp). lia. }
    specialize (IH (parent_path pp) (new ++ missing) Hfup Hlen').
    destruct (missing_dirs fuel t (parent_path pp) (new ++ missing))
      as [e|result].
    + destruct IH as [(-> & q & c & Hq & Hpre)|[-> Hbig]].
      * left. split; [done|]. exists q, c. split; [done|].
        apply (prefix_trans _ _ _ Hpre), parent_path_prefix.
      * right. split; [done|]. lia.
    + destruct IH as (news & -> & Hcreates & Hpre).
      exists (news ++ new). split; [by rewrite app_assoc|]. split.
      * apply creates_step; [done|]. intros s Hs Hts.
        specialize (Hcreates s Hs Hts).
        destruct (create_each news s) as [[e|] s1]; [done|].
        destruct Hcreates as (Ht1 & Hadd & k0 & Hw & Hd).
        split; [done|]. split; [done|]. exists k0. split; [|done].
        unfold start in *. by rewrite absolute_parent_path in Hw.
      * apply Forall_app. split; [|done].
        eapply Forall_impl; [exact Hpre|]. intros q Hq. cbn in Hq.
        apply (prefix_trans _ _ _ Hq), parent_path_prefix.
Qed.

(** [fs::create_directories(p)] on a tree: when it returns, [p] is a
    directory; when it throws, a regular file sits at a beginning of [p],
    or more than 1000 prefixes would have had to be created.  Either way
    it has only added directories. *)
Lemma create_directories_spec (p : string) t :
  tree t → p ≠ "" →
  match create_directories p t with
  | (None, t') => tree t' ∧ dirs_added t t' ∧ t' !! p = Some Dir
  | (Some e, t') =>
      dirs_added t t' ∧
      (((e = ENOTDIR ∨ e = EEXIST) ∧
        ∃ q c, t' !! q = Some (File c) ∧ Str.prefix q p = true) ∨
       (e = ENAMETOOLONG ∧ (1000 < length (components p))%nat))
  end.
Proof.
  intros Ht Hp. unfold create_directories. rewrite decide_False by done.
  destruct (t !! p) as [[|c]|] eqn:Hl.
  - split; [done|]. split; [apply dirs_added_refl | done].
  - split; [apply dirs_added_refl|]. left. split; [by left|].
    exists p, c. split; [done | apply prefix_refl].
  - set (pp := if decide (filename p = "" ∧ all_sep p = false)
               then parent_path p else p).
    assert (Hsep : all_sep p = false).
    { destruct (all_sep p) eqn:Hs; [|done].
      by rewrite (lookup_all_sep _ _ Hs Hp) in Hl. }
    assert (Hpp : filename pp ≠ "" ∧ Str.prefix pp p = true ∧
                  components pp = components p ∧
                  (∀ s, start s pp = start s p) ∧
                  (String.length pp ≤ String.length p)%nat).
    { unfold pp. case_decide as Hcase.
      - destruct Hcase as [Hf _].
        destruct (parent_path_trailing p Hf Hsep) as [Hne Hfp].
        split; [done|]. split; [apply parent_path_prefix|].
        split; [by apply components_parent_path_trailing|].
        split; [intros s; unfold start; by rewrite absolute_parent_path|].
        pose proof (length_parent_path p Hsep). lia.
      - split; [|split; [apply prefix_refl | done]].
        intros Hf. apply Hcase. by split. }
    destruct Hpp as (Hf & Hpre & Hcs & Hstart & Hlen).
    pose proof (missing_dirs_spec t (String.length p) pp [] Ht Hf Hlen) as Hm.
    destruct (missing_dirs (String.length p) t pp []) as [e|missing].
    + split; [apply dirs_added_refl|].
      destruct Hm as [(-> & q & c & Hq & Hqpre)|[-> Hbig]].
      * left. split; [by left|]. exists q, c. split; [done|].
        by apply (prefix_trans _ _ _ Hqpre).
      * right. split; [done|]. cbn [length] in Hbig. by rewrite <- Hcs.
    + destruct Hm as (news & -> & Hcreates & Hnews). rewrite app_nil_r.
      specialize (Hcreates t (dirs_added_refl t) Ht).
      destruct (create_each news t) as [[e|] t'].
      * destruct Hcreates as (-> & Hadd & q & c & Hq & Hc).
        split; [done|]. left. split; [by right|]. exists q, c. split; [done|].
        rewrite Forall_forall in Hnews.
        by apply (prefix_trans _ _ _ (Hnews q Hq)).
      * destruct Hcreates as (Ht' & Hadd & k & Hw & Hd).
        split; [done|]. split; [done|]. apply reaches_lookup; [done|].
        exists k. by rewrite <- Hstart, <- Hcs.
Qed.

Lemma tree_check (t : FS) : tree_ok t = true → tree t.
Proof.
  unfold tree_ok. intros [Hc Hall]%andb_true_iff.
  apply bool_decide_eq_true in Hc, Hall. split; [done|].
  intros k [n Hk]. by apply (Hall k n).
Qed.

End Directories.
Section TreePaths.

Implicit Types (m : gmap (list string) node) (k : name) (t : FS).




End TreePaths.

(** ** Labels put into file names *)

Section InferBack.

Lemma occurs_at_shift (needle : string) (c : ascii) (h : string) :
  Str.occurs needle h → Str.occurs needle (String c h).
Proof. intros [j Hj]. exists (S j). by apply occurs_at_S. Qed.

(** An occurrence of "_n" that starts inside [label] in [label ++ "_n" ++ ...]
    lies within [label]. *)
Lemma occurs_at_marker_before (label rest : string) (j : nat) :
  Str.occurs_at "_n" (label +:+ "_n" +:+ rest) j →
  (j < String.length label)%nat → Str.occurs "_n" label.
Proof.
  revert j. induction label as [|c l IH]; intros j Hj Hlt;
    [cbn [String.length] in Hlt; lia|].
  change (String c l +:+ "_n" +:+ rest) with (String c (l +:+ "_n" +:+ rest)) in Hj.
  destruct j as [|k].
  - apply occurs_at_0 in Hj. exists 0%nat. apply occurs_at_0.
    destruct l as [|d l'].
    + cbn in Hj. destruct (Ascii.eqb "_" c); [|done]. cbn in Hj. done.
    + cbn [String.append Str.prefix] in Hj |- *.
      destruct (Ascii.eqb "_" c); [|done]. by destruct (Ascii.eqb "n" d).
  - apply occurs_at_S in Hj. apply occurs_at_shift, (IH k); [done|].
    cbn [String.length] in Hlt. lia.
Qed.

Lemma infer_distribution_built (label rest : string) :
  ¬ Str.occurs "_n" label → Str.contains sep (label +:+ "_n" +:+ rest) = false →
  infer_distribution (label +:+ "_n" +:+ rest) = label.
Proof.
  intros Hplain Hsep. apply (infer_first_occurrence _ label rest).
  - by apply filename_no_sep.
  - rewrite filename_no_sep by done. intros j Hj.
    destruct (decide (String.length label ≤ j)%nat) as [|Hlt]; [done|].
    destruct Hplain. apply (occurs_at_marker_before label rest j Hj). lia.
Qed.

End InferBack.

(** ** The elapsed time as it is printed *)

Section ElapsedTime.

Lemma round_half_even_exact (q d : Z) : 0 < d → round_half_even (q * d) d = q.
Proof.
  intros Hd. unfold round_half_even.
  rewrite Z.div_mul, Z.mod_mul by lia.
  by rewrite (proj2 (Z.ltb_lt (2 * 0) d)) by lia.
Qed.

Lemma log2_bounds (K : Z) :
  0 < K < 2^53 → 0 <= Z.log2 K <= 52 ∧ 2 ^ Z.log2 K <= K < 2 ^ (Z.log2 K + 1).
Proof.
  intros HK. pose proof (Z.log2_spec K ltac:(lia)) as Hs.
  pose proof (Z.log2_nonneg K).
  pose proof (proj1 (Z.log2_lt_pow2 K 53 ltac:(lia)) ltac:(lia)).
  replace (Z.succ (Z.log2 K)) with (Z.log2 K + 1) in Hs by lia. lia.
Qed.

Lemma log2_product (K den : Z) :
  0 < K → 0 < den →
  Z.log2 (K * den) = Z.log2 K + Z.log2 den ∨
  Z.log2 (K * den) = Z.log2 K + Z.log2 den + 1.
Proof.
  intros HK Hd.
  pose proof (Z.log2_spec K HK) as [HK1 HK2].
  pose proof (Z.log2_spec den Hd) as [Hd1 Hd2].
  pose proof (Z.log2_nonneg K). pose proof (Z.log2_nonneg den).
  assert (Hlo : Z.log2 K + Z.log2 den <= Z.log2 (K * den)).
  { rewrite <- (Z.log2_pow2 (Z.log2 K + Z.log2 den)) by lia.
    apply Z.log2_le_mono. rewrite Z.pow_add_r by lia. nia. }
  assert (Hhi : Z.log2 (K * den) < Z.log2 K + Z.log2 den + 2).
  { apply Z.log2_lt_pow2; [nia|].
    replace (Z.log2 K + Z.log2 den + 2)
      with (Z.succ (Z.log2 K) + Z.succ (Z.log2 den)) by lia.
    rewrite Z.pow_add_r by lia. nia. }
  lia.
Qed.

Lemma round53_unfold (num den : Z) :
  round53 num den =
    let e1 := Z.log2 num - Z.log2 den - 52 in
    let e := if 2 ^ 52 <=? fst (scale2 num den e1) / snd (scale2 num den e1)
             then e1 else e1 - 1 in
    let m := round_half_even (fst (scale2 num den e)) (snd (scale2 num den e)) in
    if m =? 2 ^ 53 then (2 ^ 52, e + 1) else (m, e).
Proof.
  unfold round53. cbv zeta.
  destruct (scale2 num den (Z.log2 num - Z.log2 den - 52)) as [n1 d1].
  cbn [fst snd]. by destruct (scale2 num den _) as [n2 d2].
Qed.

Lemma scale2_down (num den e : Z) :
  e <= 0 → 0 < den →
  fst (scale2 num den e) = num * 2 ^ (- e) ∧ snd (scale2 num den e) = den.
Proof.
  intros He Hd. unfold scale2. destruct (Z.leb_spec 0 e); cbn [fst snd].
  - assert (e = 0) as -> by lia. change (2 ^ (- 0)) with 1. change (2 ^ 0) with 1. lia.
  - done.
Qed.

(** A quotient that is a whole number below 2^53 is represented exactly. *)
Lemma round53_exact (K den : Z) :
  0 < K < 2^53 → 0 < den →
  round53 (K * den) den = (K * 2 ^ (52 - Z.log2 K), Z.log2 K - 52).
Proof.
  intros HK Hd. destruct (log2_bounds K HK) as [HL [HK1 HK2]].
  rewrite round53_unfold. cbv zeta.
  set (L := Z.log2 K) in *.
  assert (Hm : 2^52 <= K * 2 ^ (52 - L) < 2^53).
  { replace (2^52) with (2 ^ L * 2 ^ (52 - L))
      by (rewrite <- Z.pow_add_r by lia; f_equal; lia).
    replace (2^53) with (2 ^ (L + 1) * 2 ^ (52 - L))
      by (rewrite <- Z.pow_add_r by lia; f_equal; lia).
    assert (0 < 2 ^ (52 - L)) by (apply Z.pow_pos_nonneg; lia). nia. }
  assert (He : (if 2 ^ 52 <=? fst (scale2 (K * den) den
                                     (Z.log2 (K * den) - Z.log2 den - 52))
                          / snd (scale2 (K * den) den
                                   (Z.log2 (K * den) - Z.log2 den - 52))
                then Z.log2 (K * den) - Z.log2 den - 52
                else Z.log2 (K * den) - Z.log2 den - 52 - 1) = L - 52).
  { destruct (log2_product K den ltac:(lia) Hd) as [Hp|Hp]; rewrite Hp; fold L.
    - replace (L + Z.log2 den - Z.log2 den - 52) with (L - 52) by lia.
      destruct (scale2_down (K * den) den (L - 52)) as [-> ->]; [lia | lia |].
      replace (- (L - 52)) with (52 - L) by lia.
      replace (K * den * 2 ^ (52 - L)) with (K * 2 ^ (52 - L) * den) by lia.
      rewrite Z.div_mul by lia.
      by rewrite (proj2 (Z.leb_le (2^52) _)) by lia.
    - replace (L + Z.log2 den + 1 - Z.log2 den - 52) with (L - 51) by lia.
      assert (Hlt : fst (scale2 (K * den) den (L - 51))
                    / snd (scale2 (K * den) den (L - 51)) < 2^52).
      { destruct (decide (L = 52)) as [HL52|HL52].
        - rewrite HL52 in *. unfold scale2.
          change (52 - 51) with 1. change (0 <=? 1) with true. cbn [fst snd].
          change (2 ^ 1) with 2.
          replace (K * den) with (den * K) by lia.
          rewrite Z.div_mul_cancel_l by lia.
          apply Z.div_lt_upper_bound; [lia|]. change (52 + 1) with 53 in HK2. lia.
        - destruct (scale2_down (K * den) den (L - 51)) as [-> ->]; [lia | lia |].
          replace (- (L - 51)) with (51 - L) by lia.
          replace (K * den * 2 ^ (51 - L)) with (K * 2 ^ (51 - L) * den) by lia.
          rewrite Z.div_mul by lia.
          replace (2^52) with (2 ^ (L + 1) * 2 ^ (51 - L))
            by (rewrite <- Z.pow_add_r by lia; f_equal; lia).
          assert (0 < 2 ^ (51 - L)) by (apply Z.pow_pos_nonneg; lia). nia. }
      rewrite (proj2 (Z.leb_gt (2^52) _)) by exact Hlt. lia. }
  rewrite He.
  destruct (scale2_down (K * den) den (L - 52)) as [-> ->]; [lia | lia |].
  replace (- (L - 52)) with (52 - L) by lia.
  replace (K * den * 2 ^ (52 - L)) with (K * 2 ^ (52 - L) * den) by lia.
  rewrite round_half_even_exact by lia.
  by rewrite (proj2 (Z.eqb_neq _ (2^53))) by lia.
Qed.

(** Rounding to the nearest integer is off by at most a half. *)
Lemma round_half_even_bound (num den : Z) :
  0 < den → 2 * Z.abs (round_half_even num den * den - num) <= den.
Proof.
  intros Hd. unfold round_half_even.
  pose proof (Z.div_mod num den ltac:(lia)) as Hdm.
  pose proof (Z.mod_pos_bound num den Hd) as Hr.
  set (q := num / den) in *. set (r := num mod den) in *.
  destruct (Z.ltb_spec (2 * r) den); [lia|].
  destruct (Z.ltb_spec den (2 * r)); [lia|].
  destruct (Z.even q); lia.
Qed.

Lemma round_half_even_near (num den q : Z) :
  0 < den → 2 * Z.abs (num - q * den) < den → round_half_even num den = q.
Proof.
  intros Hd Hnear. unfold round_half_even.
  pose proof (Z.div_mod num den ltac:(lia)) as Hdm.
  pose proof (Z.mod_pos_bound num den Hd) as Hr.
  set (q' := num / den) in *. set (r := num mod den) in *.
  assert (q' = q ∨ q' = q - 1) as [Hq|Hq] by nia.
  - rewrite (proj2 (Z.ltb_lt (2 * r) den)) by nia. done.
  - rewrite (proj2 (Z.ltb_ge (2 * r) den)) by nia.
    rewrite (proj2 (Z.ltb_lt den (2 * r))) by nia. lia.
Qed.

(** What [round53] delivers for a quotient below 2^51: the exponent is
    negative and the significand is the quotient scaled and rounded. *)
Lemma round53_spec (n d : Z) :
  0 < n → 0 < d → Z.log2 n - Z.log2 d <= 50 →
  ∃ m e, round53 n d = (m, e) ∧ e <= Z.log2 n - Z.log2 d - 51 ∧
         2 * Z.abs (m * d - n * 2 ^ (- e)) <= d.
Proof.
  intros Hn Hd Hlog. rewrite round53_unfold. cbv zeta.
  set (e1 := Z.log2 n - Z.log2 d - 52) in *.
  set (e := if 2 ^ 52 <=? _ then e1 else e1 - 1).
  assert (He : e <= e1 ∧ e1 - 1 <= e) by (subst e; destruct (_ <=? _); lia).
  destruct (scale2_down n d e) as [-> ->]; [lia | lia |].
  pose proof (round_half_even_bound (n * 2 ^ (- e)) d Hd) as Hb.
  set (m := round_half_even (n * 2 ^ (- e)) d) in *.
  destruct (Z.eqb_spec m (2^53)) as [Hm|Hm].
  - exists (2^52), (e + 1). split; [done|]. split; [lia|].
    rewrite Hm in Hb.
    replace (- e) with (Z.succ (- (e + 1))) in Hb by lia.
    rewrite Z.pow_succ_r in Hb by lia.
    set (X := n * 2 ^ (- (e + 1))). 
    replace (n * (2 * 2 ^ (- (e + 1)))) with (2 * X) in Hb by (subst X; lia).
    change (2^53) with (2 * 2^52) in Hb. lia.
  - exists m, e. split; [done|]. split; [lia | done].
Qed.

(** The time field is the tick count in nanoseconds rounded to the nearest
    microsecond, shown in milliseconds: [ticks = 1000 u + r] with [r] small
    prints [u] thousandths. *)
Lemma fixed3_duration_ms (ticks u r : Z) :
  0 <= ticks < 2^53 → ticks = 1000 * u + r → -498 <= r <= 498 →
  fixed3 (duration_ms ticks) = to_string (u / 1000) +:+ "." +:+ pad3 (u mod 1000).
Proof.
  intros Ht Hu Hr.
  assert (Hu0 : 0 <= u) by lia.
  assert (Hstr : to_string (u / 1000) = dec (u / 1000)).
  { unfold to_string. rewrite (proj2 (Z.ltb_ge _ 0)); [done|].
    apply Z.div_pos; lia. }
  rewrite Hstr.
  destruct (decide (ticks = 0)) as [->|Hne].
  { assert (u = 0) as -> by lia. reflexivity. }
  unfold duration_ms. rewrite (proj2 (Z.eqb_neq _ 0)) by done.
  rewrite Z.abs_eq by lia.
  pose proof (round53_exact ticks 1 ltac:(lia) ltac:(lia)) as H1.
  rewrite Z.mul_1_r in H1. rewrite H1.
  destruct (log2_bounds ticks ltac:(lia)) as [HL _].
  set (Lt := Z.log2 ticks) in *.
  unfold scale2 at 1. rewrite (proj2 (Z.leb_le 0 (- (Lt - 52)))) by lia.
  replace (- (Lt - 52)) with (52 - Lt) by lia.
  set (s := 52 - Lt) in *.
  assert (Hs : 0 < 2 ^ s) by (apply Z.pow_pos_nonneg; lia).
  destruct (round53_spec (ticks * 2 ^ s) (1000000 * 2 ^ s))
    as (m2 & e2 & Hround & He2 & Hb); [nia | nia | |].
  { rewrite !Z.log2_mul_pow2 by lia. fold Lt. change (Z.log2 1000000) with 19. lia. }
  rewrite Hround.
  rewrite !Z.log2_mul_pow2 in He2 by lia. fold Lt in He2.
  change (Z.log2 1000000) with 19 in He2.
  rewrite (proj2 (Z.ltb_ge ticks 0)) by lia.
  unfold fixed3, thousandths. cbn [d_neg d_mant d_expo].
  unfold scale2. rewrite (proj2 (Z.leb_le 0 (- e2))) by lia.
  assert (Hp : 2 ^ 18 <= 2 ^ (- e2)) by (apply Z.pow_le_mono_r; lia).
  change (2 ^ 18) with 262144 in Hp.
  rewrite (round_half_even_near _ _ u); [done | lia |].
  set (P := 2 ^ (- e2)) in *.
  assert (Hb' : 2 * Z.abs (m2 * 1000000 - ticks * P) <= 1000000).
  { replace (m2 * (1000000 * 2 ^ s) - ticks * 2 ^ s * P)
      with ((m2 * 1000000 - ticks * P) * 2 ^ s) in Hb by lia.
    rewrite Z.abs_mul, (Z.abs_eq (2 ^ s)) in Hb by lia. nia. }
  nia.
Qed.

End ElapsedTime.
(** ** The rows of a run *)

Section Rows.

Context (E : Env).

Lemma measured_row_length (a : Args) (xs : list Z) (wall0 steady0 i : nat) :
  length (measured_row E a xs wall0 steady0 i) = 12%nat.
Proof. reflexivity. Qed.



Lemma to_string_field (a : Args) (xs : list Z) (wall0 steady0 i : nat) :
  measured_row E a xs wall0 steady0 i !! 9%nat = Some (to_string (Z.of_nat i)).
Proof. reflexivity. Qed.

Lemma main_records (argv : list string) (w : World) (a : Args) (xs : list Z) :
  fst (parse_args argv w) = Ret a →
  fst (read_bin_int32_le (dataset a) w) = Ret xs →
  is_Some (prepare_log (out a) (fs w)) →
  records E argv w a (run_rows E a xs w).
Proof.
  intros Hparse Hload [t2 Hlog].
  destruct (main_run_ok E argv w a xs t2 Hparse Hload Hlog)
    as (w' & Hmain & Hout & Herr & _ & Hfs & _).
  by exists w'.
Qed.

End Rows.


(** C7: from the moment the dataset is loaded into its vector object (the
    first object the process creates) to the end of the run, that object
    holds the loaded values; every call of the sort routine, in a warmup or a
    measured repetition, is on an object of its own, created for that
    repetition after the dataset's, and holding the loaded values when the
    call is made.  This holds whether or not the log can be written. *)
Theorem dataset_vector_never_mutated (E : Env) (argv : list string)
    (w : World) (a : Args) (xs : list Z) :
  fst (parse_args argv w) = Ret a →
  fst (read_bin_int32_le (dataset a) w) = Ret xs →
  ∃ status w' calls,
    main E argv w = (status, w') ∧
    vectors w' !! next_vector w = Some xs ∧
    sort_inputs w' =
      sort_inputs w ++ sorted_copies (S (next_vector w)) calls xs ∧
    (∀ object content,
       (object, content) ∈ sorted_copies (S (next_vector w)) calls xs →
       object ≠ next_vector w ∧ content = xs) ∧
    NoDup (fst <$> sorted_copies (S (next_vector w)) calls xs) ∧
    (is_Some (prepare_log (out a) (fs w)) →
       status = 0 ∧ calls = (Z.to_nat (warmup a) + Z.to_nat (reps a))%nat) ∧
    (prepare_log (out a) (fs w) = None →
       status = 1 ∧ calls = (Z.to_nat (warmup a) + 1)%nat).
Proof.
  intros Hparse Hload.
  assert (Hcopies : ∀ first count,
    (∀ object content,
       (object, content) ∈ sorted_copies (S first) count xs →
       object ≠ first ∧ content = xs) ∧
    NoDup (fst <$> sorted_copies (S first) count xs)).
  { intros first count. unfold sorted_copies. split.
    - intros object content Hin.
      apply list_elem_of_fmap in Hin as (k & [= -> ->] & _). split; [lia | done].
    - rewrite <- list_fmap_compose. apply NoDup_fmap_2; [|apply NoDup_seq].
      intros i j Hij. cbn in Hij. lia. }
  destruct (prepare_log (out a) (fs w)) as [t2|] eqn:Hlog.
  - destruct (main_ok E argv w a xs Hparse Hload) as
      (w' & Hmain & _ & _ & _ & Hsort & [Hv _]); [by rewrite Hlog|].
    exists 0, w', (Z.to_nat (warmup a) + Z.to_nat (reps a))%nat.
    split; [done|]. split; [done|]. split; [done|].
    split; [apply Hcopies|]. split; [apply Hcopies|]. split; [done|]. done.
  - destruct (main_append_fail E argv w a xs Hparse Hload Hlog) as
      (w' & Hmain & _ & _ & _ & Hsort & [Hv _] & _).
    exists 1, w', (Z.to_nat (warmup a) + 1)%nat.
    split; [done|]. split; [done|]. split; [done|].
    split; [apply Hcopies|]. split; [apply Hcopies|].
    split; [by intros [? ?] | done].
Qed.

Lemma dataset_vector_never_mutated_witness :
  ∃ w', main Demo.env_broken Demo.argv Demo.world = (0, w') ∧
        vectors w' !! 0%nat = Some [3; -1; 2] ∧
        sort_inputs w' =
          [(1%nat, [3; -1; 2]); (2%nat, [3; -1; 2]); (3%nat, [3; -1; 2])].
Proof.
  destruct (dataset_vector_never_mutated Demo.env_broken Demo.argv Demo.world
              Demo.args [3; -1; 2])
    as (status & w' & calls & Hmain & Hv & Hsort & _ & _ & Hok & _).
  - vm_compute. reflexivity.
  - vm_compute. reflexivity.
  - destruct Hok as [-> ->]; [eexists; vm_compute; reflexivity|].
    exists w'. split; [exact Hmain|]. split; [exact Hv | exact Hsort].
Defined.

(** C9: a measured repetition writes the line of its row to the console
    before it calls [append_row] with that same row, so the line is on the
    console whether the append returns or throws.  In a run whose log can be
    opened the console and the log grow by the same lines, those of the
    rows of the run, one per repetition; in a run whose log cannot be
    opened the first repetition's line is on the console although the
    append threw, no file has gained any content, the exception is reported
    on the error stream and the status is 1. *)
Theorem console_echo_precedes_append (E : Env) (argv : list string)
    (w : World) (a : Args) (xs : list Z) :
  fst (parse_args argv w) = Ret a →
  fst (read_bin_int32_le (dataset a) w) = Ret xs →
  let rows := run_rows E a xs w in
  let first := measured_row E a xs (wall_reads w) (steady_reads w) 0 in
  (∀ v n dist rep w0, holds w0 v xs →
     let row :=
       make_row (put_time (wall_clock E (wall_reads w0))) a dist n rep
         (duration_ms (steady_clock E (S (steady_reads w0))
                       - steady_clock E (steady_reads w0)))
         (if validate a then is_sorted_non_decreasing (std_sort E xs)
          else true) in
     let after := measured_rep E a v n dist rep w0 in
     cout (snd after) = cout w0 +:+ row_line row ∧
     match prepare_log (out a) (fs w0) with
     | Some t2 =>
         fst after = Ret tt ∧
         fs (snd after) =
           write_log (out a) (log_base (out a) (fs w0) +:+ row_line row) t2
     | None =>
         fst after = Throw (fst (append_failure (out a) (fs w0))) ∧
         dirs_added (fs w0) (fs (snd after))
     end) ∧
  (is_Some (prepare_log (out a) (fs w)) →
     Z.of_nat (length rows) = reps a ∧
     ∃ w', main E argv w = (0, w') ∧
           cout w' = cout w +:+ row_lines rows ∧
           fs w' !! out a =
             Some (File (log_base (out a) (fs w) +:+ row_lines rows))) ∧
  (prepare_log (out a) (fs w) = None →
     rows !! 0%nat = Some first ∧
     ∃ w', main E argv w = (1, w') ∧
           cout w' = cout w +:+ row_line first ∧
           cerr w' = cerr w +:+
             ("Error: " +:+ fst (append_failure (out a) (fs w)) +:+ nl) ∧
           dirs_added (fs w) (fs w')).
Proof.
  intros Hparse Hload rows first.
  destruct (parse_args_ret _ _ _ Hparse) as (_ & _ & _ & Hreps & _).
  split; [|split].
  - intros v n dist rep w0 Hh row after.
    destruct (prepare_log (out a) (fs w0)) as [t2|] eqn:Hlog.
    + destruct (measured_rep_ok E a v xs n dist rep w0 t2 Hh Hlog)
        as (w' & Hrun & _ & Hout & _ & Hfs & _).
      unfold after. rewrite Hrun. done.
    + destruct (measured_rep_fail E a v xs n dist rep w0 Hh Hlog)
        as (w' & Hrun & Hout & _ & Hfs & _).
      unfold after. rewrite Hrun. cbn [fst snd]. split; [done|].
      split; [done|]. rewrite Hfs. apply append_failure_added.
  - intros [t2 Hlog].
    split; [unfold rows; rewrite run_rows_length; lia|].
    destruct (main_run_ok E argv w a xs t2 Hparse Hload Hlog)
      as (w' & Hmain & Hout & _ & _ & Hfs & _).
    by exists w'.
  - intros Hlog. split; [apply run_rows_lookup; lia|].
    destruct (main_append_fail E argv w a xs Hparse Hload Hlog)
      as (w' & Hmain & Hout & Herr & Hfs & _).
    exists w'. split; [done|]. split; [done|]. split; [done|].
    rewrite Hfs. apply append_failure_added.
Qed.

Lemma console_echo_precedes_append_witness :
  ∃ w',
    main Demo.env Demo.argv Demo.world_blocked = (1, w') ∧
    cout w' =
      "2026-10-30T04:02:00,sort,cpp,c++20,builtin,data/random_n3_seed1.bin,random,3,1,0,1.235,true"
      +:+ nl ∧
    cerr w' =
      "Error: filesystem error: cannot create directories: Not a directory [results]"
      +:+ nl ∧
    fs w' = fs Demo.world_blocked.
Proof.
  destruct (console_echo_precedes_append Demo.env Demo.argv Demo.world_blocked
              Demo.args [3; -1; 2]) as (_ & _ & Hfail).
  - vm_compute. reflexivity.
  - vm_compute. reflexivity.
  - destruct Hfail as (_ & w' & Hmain & Hout & Herr & Hfiles);
      [vm_compute; reflexivity|].
    exists w'. split; [exact Hmain|]. split; [exact Hout|].
    split; [exact Herr|].
    assert (Hw : w' = snd (main Demo.env Demo.argv Demo.world_blocked))
      by (rewrite Hmain; reflexivity).
    rewrite Hw. vm_compute. reflexivity.
Defined.
(** C5: the rows a run records are, for i = 0 .. reps-1, the twelve fields
    timestamp, task, language, language version, algorithm, dataset file,
    distribution, n, warmup runs, rep_idx, time_ms and ok, in this order;
    the line of a row is its fields joined by commas as they are, with
    nothing quoted or escaped, and a line feed; time_ms is in fixed
    notation with exactly three decimals and ok is [true] or [false]; the
    console and the log receive these lines and no others; the header names
    the same twelve columns. *)
Theorem recorded_row_format (E : Env) (argv : list string) (w : World)
    (a : Args) (xs : list Z) :
  fst (parse_args argv w) = Ret a →
  fst (read_bin_int32_le (dataset a) w) = Ret xs →
  is_Some (prepare_log (out a) (fs w)) →
  let rows := run_rows E a xs w in
  (∃ w', main E argv w = (0, w') ∧
         cout w' = cout w +:+ row_lines rows ∧
         fs w' !! out a =
           Some (File (log_base (out a) (fs w) +:+ row_lines rows))) ∧
  length rows = Z.to_nat (reps a) ∧
  (∀ i, (i < Z.to_nat (reps a))%nat →
     let stamp := put_time (wall_clock E (wall_reads w + i)) in
     let n := wrap_int (Z.of_nat (length xs)) in
     let time_ms :=
       fixed3 (duration_ms (steady_clock E (S (steady_reads w + 2 * i))
                            - steady_clock E (steady_reads w + 2 * i))) in
     let ok : bool :=
       if validate a then is_sorted_non_decreasing (std_sort E xs) else true in
     let row :=
       [stamp; "sort"; "cpp"; "c++20"; algo a; dataset a;
        infer_distribution (dataset a); to_string n; to_string (warmup a);
        to_string (Z.of_nat i); time_ms; if ok then "true" else "false"] in
     rows !! i = Some row ∧
     row_line row =
       stamp +:+ "," +:+ "sort" +:+ "," +:+ "cpp" +:+ "," +:+ "c++20"
       +:+ "," +:+ algo a +:+ "," +:+ dataset a
       +:+ "," +:+ infer_distribution (dataset a)
       +:+ "," +:+ to_string n +:+ "," +:+ to_string (warmup a)
       +:+ "," +:+ to_string (Z.of_nat i)
       +:+ "," +:+ time_ms
       +:+ "," +:+ (if ok then "true" else "false") +:+ nl ∧
     ∃ neg whole d1 d2 d3,
       time_ms = (if neg : bool then "-" else "") +:+ whole +:+ "." +:+
                 String d1 (String d2 (String d3 "")) ∧
       whole ≠ "" ∧ all_digits whole = true ∧
       is_digit d1 = true ∧ is_digit d2 = true ∧ is_digit d3 = true) ∧
  header_line =
    row_line ["timestamp_iso"; "task"; "language"; "language_version";
              "algo"; "dataset_file"; "distribution"; "n"; "warmup_runs";
              "rep_idx"; "time_ms"; "ok"].
Proof.
  intros Hparse Hload [t2 Hlog] rows.
  split.
  { destruct (main_run_ok E argv w a xs t2 Hparse Hload Hlog)
      as (w' & Hmain & Hout & _ & _ & Hfs & _).
    by exists w'. }
  split; [apply run_rows_length|]. split; [|reflexivity].
  intros i Hi stamp n time_ms ok row.
  split; [by apply run_rows_lookup|].
  split; [apply (row_line_make_row stamp a _ n (Z.of_nat i) _ ok)|].
  unfold time_ms. set (t := duration_ms _).
  destruct (fixed3_shape t) as (whole & d1 & d2 & d3 & Hfix & Hshape).
  by exists (d_neg t), whole, d1, d2, d3.
Qed.

Lemma recorded_row_format_witness :
  ∃ w', main Demo.env Demo.argv Demo.world = (0, w') ∧
        fs w' !! "results/raw.csv" =
          Some (File
            ("timestamp_iso,task,language,language_version,algo,dataset_file,distribution,n,warmup_runs,rep_idx,time_ms,ok"
             +:+ nl +:+
             "2026-10-30T04:02:00,sort,cpp,c++20,builtin,data/random_n3_seed1.bin,random,3,1,0,1.235,true"
             +:+ nl +:+
             "2026-10-30T04:02:01,sort,cpp,c++20,builtin,data/random_n3_seed1.bin,random,3,1,1,1.235,true"
             +:+ nl)).
Proof.
  destruct (recorded_row_format Demo.env Demo.argv Demo.world Demo.args
              [3; -1; 2]) as ((w' & Hmain & _ & Hfs) & _).
  - vm_compute. reflexivity.
  - vm_compute. reflexivity.
  - eexists. vm_compute. reflexivity.
  - exists w'. split; [exact Hmain|].
    assert (Hw : w' = snd (main Demo.env Demo.argv Demo.world))
      by (rewrite Hmain; reflexivity).
    rewrite Hw. vm_compute. reflexivity.
Defined.

(** C4: the validation is the end-to-end test of a[i] <= a[i+1]; with
    validation on, the ok field of every row of the run is its result on
    the sorted copy, with validation off it is [true]; and whatever that
    result, the run goes through all repetitions, records them all and ends
    with status 0: the status of a run does not depend on the sort routine
    at all. *)
Theorem validation_outcome_recorded (E : Env) (argv : list string) (w : World)
    (a : Args) (xs : list Z) :
  fst (parse_args argv w) = Ret a →
  fst (read_bin_int32_le (dataset a) w) = Ret xs →
  is_Some (prepare_log (out a) (fs w)) →
  let rows := run_rows E a xs w in
  (∀ l, is_sorted_non_decreasing l = true ↔
        ∀ i, (i + 1 < length l)%nat → nth i l 0 <= nth (i + 1) l 0) ∧
  (∀ E', fst (main E' argv w) = fst (main E argv w)) ∧
  (∃ w', main E argv w = (0, w') ∧
         cout w' = cout w +:+ row_lines rows ∧
         fs w' !! out a =
           Some (File (log_base (out a) (fs w) +:+ row_lines rows))) ∧
  Z.of_nat (length rows) = reps a ∧
  ∀ i, (i < Z.to_nat (reps a))%nat →
    ∃ row, rows !! i = Some row ∧
           row !! 11%nat =
             Some (if validate a
                   then (if is_sorted_non_decreasing (std_sort E xs)
                         then "true" else "false")
                   else "true").
Proof.
  intros Hparse Hload [t2 Hlog] rows.
  split; [apply is_sorted_non_decreasing_spec|].
  split; [intros E'; apply main_status_independent|].
  destruct (parse_args_ret _ _ _ Hparse) as (_ & _ & _ & Hreps & _).
  split.
  { destruct (main_run_ok E argv w a xs t2 Hparse Hload Hlog)
      as (w' & Hmain & Hout & _ & _ & Hfs & _).
    by exists w'. }
  split; [unfold rows; rewrite run_rows_length; lia|].
  intros i Hi. eexists. split; [by apply run_rows_lookup|].
  unfold measured_row, make_row. cbn [lookup list_lookup].
  by destruct (validate a).
Qed.

Lemma validation_outcome_recorded_witness :
  ∃ w', main Demo.env_broken Demo.argv Demo.world = (0, w') ∧
        cout w' =
          "2026-10-30T04:02:00,sort,cpp,c++20,builtin,data/random_n3_seed1.bin,random,3,1,0,1.235,false"
          +:+ nl +:+
          "2026-10-30T04:02:01,sort,cpp,c++20,builtin,data/random_n3_seed1.bin,random,3,1,1,1.235,false"
          +:+ nl.
Proof.
  destruct (validation_outcome_recorded Demo.env_broken Demo.argv Demo.world
              Demo.args [3; -1; 2]) as (_ & _ & (w' & Hmain & _) & _).
  - vm_compute. reflexivity.
  - vm_compute. reflexivity.
  - eexists. vm_compute. reflexivity.
  - exists w'. split; [exact Hmain|].
    assert (Hw : w' = snd (main Demo.env_broken Demo.argv Demo.world))
      by (rewrite Hmain; reflexivity).
    rewrite Hw. vm_compute. reflexivity.
Defined.


(** * Rejected command lines *)

Section Rejections.

#[local] Opaque usage_text.




End Rejections.




(** * Further properties of the parts *)

(** X1: a distribution label holds neither a path separator nor the marker
    "_n", so taking the label of a label always gives "unknown". *)
Theorem infer_distribution_label_plain (path : string) :
  Str.contains sep (infer_distribution path) = false ∧
  ¬ Str.occurs "_n" (infer_distribution path) ∧
  infer_distribution (infer_distribution path) = "unknown".
Proof.
  split; [apply infer_distribution_no_sep|].
  split; [apply infer_distribution_no_marker|].
  apply infer_absent.
  rewrite filename_no_sep by apply infer_distribution_no_sep.
  apply infer_distribution_no_marker.
Qed.

(** X2: a label without "_n" and without a path separator is got back
    from any file name built as <label>_n<rest>, in any directory. *)
Theorem infer_distribution_recovers_label (dir label rest : string) :
  ¬ Str.occurs "_n" label →
  Str.contains sep label = false → Str.contains sep rest = false →
  infer_distribution (label +:+ "_n" +:+ rest) = label ∧
  infer_distribution (dir +:+ String sep (label +:+ "_n" +:+ rest)) = label.
Proof.
  intros Hplain Hl Hr.
  assert (Hsep : Str.contains sep (label +:+ "_n" +:+ rest) = false).
  { rewrite !contains_app, Hl, Hr. done. }
  split; [by apply infer_distribution_built|].
  rewrite infer_strips_directories by done. by apply infer_distribution_built.
Qed.

Lemma infer_distribution_recovers_label_witness :
  infer_distribution ("datasets/ints" +:+ String sep ("few_unique" +:+ "_n" +:+ "1000_seed7.bin"))
  = "few_unique".
Proof.
  apply (infer_distribution_recovers_label "datasets/ints" "few_unique" "1000_seed7.bin").
  - intros Hocc. by apply (find_None "few_unique" "_n").
  - reflexivity.
  - reflexivity.
Defined.

(** X3: for a local time in the years 1000 to 9999 the timestamp has the
    form YYYY-MM-DDTHH:MM:SS: four digits for the year, two each for month
    (counted from 1), day, hour, minute and second, 19 characters in all;
    taking it reads the wall clock once and changes nothing else. *)
Theorem now_iso_local_shape (E : Env) (w : World) :
  tm_valid (wall_clock E (wall_reads w)) →
  let t := wall_clock E (wall_reads w) in
  ∃ year month day hour minute second,
    now_iso_local E w =
      (Ret (year +:+ "-" +:+ month +:+ "-" +:+ day +:+ "T" +:+
            hour +:+ ":" +:+ minute +:+ ":" +:+ second), tick_wall w) ∧
    digits_of 4 (tm_year t + 1900) year ∧ digits_of 2 (tm_mon t + 1) month ∧
    digits_of 2 (tm_mday t) day ∧ digits_of 2 (tm_hour t) hour ∧
    digits_of 2 (tm_min t) minute ∧ digits_of 2 (tm_sec t) second.
Proof.
  intros (Hy & Hm & Hd & Hh & Hmi & Hs) t.
  exists (to_string (tm_year t + 1900)), (pad2 (tm_mon t + 1)), (pad2 (tm_mday t)),
    (pad2 (tm_hour t)), (pad2 (tm_min t)), (pad2 (tm_sec t)).
  split; [reflexivity|].
  split.
  { unfold to_string. rewrite (proj2 (Z.ltb_ge _ 0)) by (subst t; lia).
    by apply dec_four_digits. }
  repeat split; apply pad2_digits; subst t; lia.
Qed.

Lemma now_iso_local_shape_witness :
  fst (now_iso_local Demo.env Demo.world) = Ret "2026-10-30T04:02:00".
Proof.
  destruct (now_iso_local_shape Demo.env Demo.world)
    as (y & m & d & h & mi & s & Hrun & _).
  - unfold tm_valid. cbn. lia.
  - reflexivity.
Defined.

(** X4: the validation check accepts exactly the vectors that are sorted in
    the usual sense: every element is at most every later one. *)
Theorem is_sorted_non_decreasing_strongly_sorted (a : list Z) :
  is_sorted_non_decreasing a = true ↔ StronglySorted Z.le a.
Proof.
  rewrite is_sorted_non_decreasing_spec, adjacent_Sorted. split.
  - apply Sorted_StronglySorted. intros x y z. apply Z.le_trans.
  - apply StronglySorted_Sorted.
Qed.

(** X5: the loader returns the values [vs] exactly for the file that holds
    their count and their little-endian encodings and nothing else; what it
    returns are 32-bit integers, fewer than 2^32 of them.  So a loaded
    dataset written back in the same format gives the file again. *)
Theorem read_bin_int32_le_exact (path : string) (w : World) (vs : list Z) :
  fst (read_bin_int32_le path w) = Ret vs ↔
  fs w !! path = Some (File (dataset_bytes vs)) ∧
  Forall int32_range vs ∧ Z.of_nat (length vs) < 2^32.
Proof.
  split.
  - apply read_bin_int32_le_ret_inv.
  - intros (? & ? & ?). by apply read_bin_int32_le_ret_intro.
Qed.

(** X6: the loader only reads.  It asks the file system once, for the
    dataset, and leaves files, streams, clocks and vectors as they are; it
    never ends the process itself; it reports "Failed to open: <path>"
    exactly when nothing is found at the path. *)
Theorem read_bin_int32_le_reads_only (path : string) (w : World) :
  snd (read_bin_int32_le path w) = log_call (CallOpenIn path) w ∧
  (∀ c, fst (read_bin_int32_le path w) ≠ Exit c) ∧
  (fs w !! path = None ↔
     fst (read_bin_int32_le path w) = Throw ("Failed to open: " +:+ path)).
Proof.
  split; [apply read_bin_int32_le_world|].
  split; [intros c; apply read_bin_int32_le_no_exit|].
  rewrite read_bin_int32_le_cases.
  destruct (fs w !! path) as [node|]; [|done]. cbv zeta.
  split; [done|].
  destruct (istream_read 4 _) as [[header rest]|]; [|discriminate].
  destruct (istream_read _ rest) as [[payload [|x rest']]|]; discriminate.
Qed.

(** X7: ensure_parent_dir on a file system that is a tree.  It does nothing
    for a path without a directory part; otherwise, when it returns, the
    parent directory exists, nothing that existed was changed or removed,
    what is new are directories, the file system is still a tree, and a
    second call changes nothing.  It throws only when a regular file sits
    at a beginning of the path, or when more than 1000 directories would
    have had to be made; then, too, it has at most added directories. *)
Theorem ensure_parent_dir_outcome (path : string) (w : World) :
  tree (fs w) →
  match ensure_parent_dir path w with
  | (Ret _, w') =>
      (parent_path path = "" → w' = w) ∧
      (parent_path path ≠ "" → fs w' !! parent_path path = Some Dir) ∧
      dirs_added (fs w) (fs w') ∧ tree (fs w') ∧
      fs (snd (ensure_parent_dir path w')) = fs w'
  | (Throw e, w') =>
      dirs_added (fs w) (fs w') ∧
      ((∃ q c, fs w' !! q = Some (File c) ∧ Str.prefix q path = true) ∨
       (1000 < length (components (parent_path path)))%nat) ∧
      ∃ err, e = dir_error err (parent_path path) ∧
             (err = ENOTDIR ∨ err = EEXIST ∨ err = ENAMETOOLONG)
  | (Exit _, _) => False
  end.
Proof.
  intros Ht. unfold ensure_parent_dir. case_decide as Hp.
  - cbn. split; [done|]. split; [done|].
    split; [apply dirs_added_refl|]. done.
  - unfold fs_create_directories.
    pose proof (create_directories_spec (parent_path path) (fs w) Ht Hp) as Hc.
    destruct (create_directories (parent_path path) (fs w)) as [[e|] t].
    + wsimpl. destruct Hc as [Hadd Hwhy]. split; [done|].
      destruct Hwhy as [[He (q & c & Hq & Hpre)]|[-> Hbig]].
      * split.
        { left. exists q, c. split; [done|].
          apply (prefix_trans _ _ _ Hpre), parent_path_prefix. }
        exists e. split; [done|]. destruct He; [by left | right; by left].
      * split; [by right|]. exists ENAMETOOLONG. split; [done|]. right. by right.
    + wsimpl. destruct Hc as (Ht' & Hadd & Hdir).
      split; [done|]. split; [done|]. split; [done|]. split; [done|].
      by rewrite (create_directories_present _ _ Hdir).
Qed.

(** The last part shows why a failing call is only said to add directories:
    [m] is made before the regular file [results] is met. *)
Lemma ensure_parent_dir_outcome_witness :
  fs (snd (ensure_parent_dir "results/2026/raw.csv" Demo.world)) !! "results/2026"
    = Some Dir ∧
  fst (ensure_parent_dir "results/raw.csv" Demo.world_blocked)
    = Throw "filesystem error: cannot create directories: Not a directory [results]" ∧
  fst (ensure_parent_dir "m/../results/x/raw.csv" Demo.world_blocked)
    = Throw "filesystem error: cannot create directories: File exists [m/../results/x]" ∧
  fs Demo.world_blocked !! "m" = None ∧
  fs (snd (ensure_parent_dir "m/../results/x/raw.csv" Demo.world_blocked)) !! "m"
    = Some Dir.
Proof.
  split; [|by vm_compute].
  pose proof (ensure_parent_dir_outcome "results/2026/raw.csv" Demo.world) as H.
  destruct (ensure_parent_dir "results/2026/raw.csv" Demo.world)
    as [[[]|e|c] w'] eqn:Hrun.
  - apply H; [|discriminate]. apply tree_check. vm_compute. reflexivity.
  - vm_compute in Hrun. discriminate Hrun.
  - vm_compute in Hrun. discriminate Hrun.
Defined.
(** X8: whether it succeeds or throws, append_row changes or removes
    nothing in the file system other than what is stored at the place its
    path names, whichever way the path is written; it adds nothing but the
    log and directories, keeps what an existing log held as the beginning
    of its content, and writes to neither console stream. *)
Theorem append_row_touches_only_the_log (path : string) (row : list string)
    (w : World) :
  fs_extends path (fs w) (fs (snd (append_row path row w))) ∧
  (∀ c, stored (fs w) path = Some (File c) →
     ∃ added, stored (fs (snd (append_row path row w))) path
                = Some (File (c +:+ added))) ∧
  cout (snd (append_row path row w)) = cout w ∧
  cerr (snd (append_row path row w)) = cerr w.
Proof.
  split; [apply append_row_extends|].
  destruct (prepare_log path (fs w)) as [t2|] eqn:Hprep.
  - rewrite (append_row_ok _ _ _ _ Hprep). wsimpl. split; [|done].
    intros c Hc. exists (row_line row).
    unfold log_base. rewrite Hc. unfold stored, write_log, place, start.
    cbn [entries cwd set_entries]. apply lookup_insert_eq.
  - destruct (append_row_fail _ row _ Hprep)
      as (w' & Hrun & Hfs & _ & Hout & Herr & _).
    rewrite Hrun. cbn [snd]. split; [|done].
    intros c Hc. exists ""%string. rewrite append_nil_r, Hfs.
    destruct (append_failure_added path (fs w)) as [Hcwd Hg].
    unfold stored in *. rewrite (place_cwd _ _ path Hcwd).
    destruct (Hg (place (fs w) path)) as [->|[? _]]; [done | congruence].
Qed.

(** X9: the two ways append_row fails.  Either the directories cannot be
    made: that exception leaves append_row as it is and nothing further is
    tried.  Or the directories are made and the log cannot be opened: the
    exception is "Failed to open output CSV: <path>", raised after the
    existence test and the open; the directories made stay.  Either way no
    file holds anything new. *)
Theorem append_row_failure (path : string) (row : list string) (w : World)
    (e : string) :
  fst (append_row path row w) = Throw e →
  dirs_added (fs w) (fs (snd (append_row path row w))) ∧
  ((fst (ensure_parent_dir path w) = Throw e ∧
    snd (append_row path row w) = snd (ensure_parent_dir path w)) ∨
   (fst (ensure_parent_dir path w) = Ret tt ∧
    e = "Failed to open output CSV: " +:+ path ∧
    open_app path (fs (snd (ensure_parent_dir path w))) = None ∧
    fs (snd (append_row path row w)) = fs (snd (ensure_parent_dir path w)) ∧
    fs_calls (snd (append_row path row w)) = fs_calls w ++ append_calls path)).
Proof.
  destruct (prepare_log path (fs w)) as [t2|] eqn:Hprep.
  { by rewrite (append_row_ok _ _ _ _ Hprep). }
  destruct (append_row_fail _ row _ Hprep)
    as (w' & Hrun & Hfs & Hcalls & _).
  rewrite Hrun. cbn [fst snd]. intros [= <-].
  split; [rewrite Hfs; apply append_failure_added|].
  pose proof (ensure_parent_dir_cases path w) as Hdirs.
  unfold prepare_log, prepare_dirs in Hprep. unfold append_failure in *.
  destruct (make_dirs path (fs w)) as [[err|] t1] eqn:Hmk; cbn [fst snd] in *.
  - left. unfold append_row in Hrun.
    rewrite (bind_throw _ _ _ _ _ Hdirs) in Hrun. injection Hrun as <-.
    by rewrite Hdirs.
  - right. rewrite Hdirs. cbn [fst snd]. wsimpl.
    split; [done|]. split; [done|]. cbn in Hprep.
    split; [by destruct (open_app path t1)|]. done.
Qed.

Lemma append_row_failure_witness :
  fst (append_row "logs/" ["a"; "b"] Demo.world)
    = Throw "Failed to open output CSV: logs/" ∧
  fs (snd (append_row "logs/" ["a"; "b"] Demo.world)) !! "logs" = Some Dir.
Proof.
  destruct (append_row_failure "logs/" ["a"; "b"] Demo.world
              "Failed to open output CSV: logs/")
    as [_ [[Hdirs _]|(_ & _ & _ & Hfs & _)]].
  - vm_compute. reflexivity.
  - vm_compute in Hdirs. discriminate Hdirs.
  - split; [vm_compute; reflexivity|]. rewrite Hfs. vm_compute. reflexivity.
Defined.

(** * Further properties of the command line *)

(** X10: the option loop reads its arguments left to right, so a complete
    group of options followed by more arguments is parsed as the group and
    then the rest from the options reached; an option given again replaces
    the earlier value. *)
Theorem parse_loop_app (a a1 : Args) (args more : list string) (w w1 : World) :
  parse_loop a args w = (Ret a1, w1) →
  parse_loop a (args ++ more) w = parse_loop a1 more w1.
Proof. by apply (parse_loop_concat_le (length args)). Qed.

Lemma parse_loop_app_witness :
  parse_loop default_args (["--reps"; "3"; "--out"; "a.csv"] ++ ["--reps"; "7"])
             Demo.world
  = (Ret (mkArgs "" "builtin" 5 7 "a.csv" true), Demo.world).
Proof.
  rewrite (parse_loop_app default_args (mkArgs "" "builtin" 5 3 "a.csv" true)
             ["--reps"; "3"; "--out"; "a.csv"] ["--reps"; "7"]
             Demo.world Demo.world); reflexivity.
Defined.

(** X11: options that parse_args accepts name a dataset, use the builtin
    algorithm and hold counts that fit an int, warmup >= 0 and reps > 0;
    accepting them changes nothing in the world. *)
Theorem parse_args_accepted (argv : list string) (w : World) (a : Args) :
  fst (parse_args argv w) = Ret a →
  snd (parse_args argv w) = w ∧
  dataset a ≠ "" ∧ algo a = "builtin" ∧
  0 <= warmup a < 2^31 ∧ 0 < reps a < 2^31.
Proof.
  intros Hparse.
  destruct (parse_args_ret _ _ _ Hparse) as (Hrun & Hd & Hw & Hr & Ha).
  apply parse_args_loop in Hparse.
  destruct (parse_loop_kept_le _ _ _ _ _ _ (Nat.le_refl _) Hparse)
    as (_ & _ & _ & _ & _ & _ & Hwr & Hrr).
  destruct Hwr as [_ ?]; [done|]. destruct Hrr as [_ ?]; [done|].
  rewrite Hrun. done.
Qed.

Lemma parse_args_accepted_witness :
  snd (parse_args Demo.argv Demo.world) = Demo.world ∧
  dataset Demo.args ≠ "" ∧ algo Demo.args = "builtin" ∧
  0 <= warmup Demo.args < 2^31 ∧ 0 < reps Demo.args < 2^31.
Proof. apply (parse_args_accepted Demo.argv Demo.world Demo.args). reflexivity. Defined.

(** X12: an option that does not occur among the arguments keeps its
    default: 5 warmup runs, 30 repetitions, the log results/raw.csv,
    validation on. *)
Theorem parse_args_defaults (argv : list string) (w : World) (a : Args) :
  fst (parse_args argv w) = Ret a →
  ("--warmup" ∉ tail argv → warmup a = 5) ∧
  ("--reps" ∉ tail argv → reps a = 30) ∧
  ("--out" ∉ tail argv → out a = "results/raw.csv") ∧
  ("--no-validate" ∉ tail argv → validate a = true).
Proof.
  intros Hparse. apply parse_args_loop in Hparse.
  destruct (parse_loop_kept_le _ _ _ _ _ _ (Nat.le_refl _) Hparse)
    as (_ & _ & Hw & Hr & Ho & Hv & _).
  done.
Qed.

Lemma parse_args_defaults_witness :
  out (mkArgs "d.bin" "builtin" 0 30 "results/raw.csv" true) = "results/raw.csv".
Proof.
  apply (parse_args_defaults ["bench_cpp"; "--warmup"; "0"; "--dataset"; "d.bin"]
           Demo.world (mkArgs "d.bin" "builtin" 0 30 "results/raw.csv" true)
           eq_refl).
  cbn [tail]. rewrite !not_elem_of_cons. repeat split; try discriminate.
  apply not_elem_of_nil.
Defined.

(** X13: the value of --warmup and of --reps is read as a decimal int: the
    text std::to_string gives for an int is read back as that int, and
    characters after the number that do not start with a digit are ignored,
    so that "5x" counts as 5. *)
Theorem numeric_option_value (a : Args) (v : Z) (junk : string)
    (more : list string) (w : World) :
  int32_range v → starts_with_digit junk = false →
  parse_loop a ("--warmup" :: (to_string v +:+ junk) :: more) w
    = parse_loop (mkArgs (dataset a) (algo a) v (reps a) (out a) (validate a))
        more w ∧
  parse_loop a ("--reps" :: (to_string v +:+ junk) :: more) w
    = parse_loop (mkArgs (dataset a) (algo a) (warmup a) v (out a) (validate a))
        more w.
Proof.
  intros Hv Hjunk. pose proof (stoi_to_string_app v junk Hv Hjunk) as Hstoi.
  split; cbn [parse_loop need_value]; repeat case_decide; try done;
    by rewrite (stoi_call_value _ _ _ _ Hstoi).
Qed.

Lemma numeric_option_value_witness :
  parse_loop default_args ["--reps"; "12 times"] Demo.world
  = (Ret (mkArgs "" "builtin" 5 12 "results/raw.csv" true), Demo.world).
Proof.
  apply (numeric_option_value default_args 12 " times" [] Demo.world);
    [unfold int32_range; lia | reflexivity].
Defined.


(** * Further properties of a whole run *)

(** X15: the exit status of a run: 2 when parse_args ends the process, 1 when
    an exception reaches the handler (an option value that is no number, a
    dataset that does not load, a log that cannot be opened), 0 otherwise. *)
Theorem main_exit_status (E : Env) (argv : list string) (w : World) :
  fst (main E argv w) =
    match fst (parse_args argv w) with
    | Exit _ => 2
    | Throw _ => 1
    | Ret a =>
        match fst (read_bin_int32_le (dataset a) w) with
        | Ret _ =>
            match prepare_log (out a) (fs w) with Some _ => 0 | None => 1 end
        | _ => 1
        end
    end.
Proof.
  pose proof (parse_args_cases argv w) as Hcases.
  destruct (parse_args argv w) as [[a|e|c] w1] eqn:Hparse; cbn [fst].
  - assert (Hp : fst (parse_args argv w) = Ret a) by (by rewrite Hparse).
    destruct (fst (read_bin_int32_le (dataset a) w)) as [xs|e|c] eqn:Hload.
    + destruct (prepare_log (out a) (fs w)) as [t2|] eqn:Hlog.
      * by destruct (main_ok E argv w a xs Hp Hload) as (w' & -> & _); [eauto|].
      * by destruct (main_append_fail E argv w a xs Hp Hload Hlog) as (? & -> & _).
    + by rewrite (main_load_throw E argv w a e Hp Hload).
    + by apply read_bin_int32_le_no_exit in Hload.
  - by rewrite (main_parse_throw E _ _ _ _ Hparse).
  - destruct Hcases as [-> _]. by rewrite (main_parse_exit E _ _ _ _ Hparse).
Qed.

(** X16: when the dataset does not load, the run ends with status 1 and an
    "Error:" line on the error stream; nothing was written to the console,
    the only file system request was the opening of the dataset, no file or
    directory was created, no vector sorted and no clock read.  The message
    is "Failed to open: <path>" exactly when nothing is found at the path
    of the dataset. *)
Theorem dataset_load_failure (E : Env) (argv : list string) (w : World)
    (a : Args) (e : string) :
  fst (parse_args argv w) = Ret a →
  fst (read_bin_int32_le (dataset a) w) = Throw e →
  ∃ w', main E argv w = (1, w') ∧
        cerr w' = cerr w +:+ ("Error: " +:+ e +:+ nl) ∧ cout w' = cout w ∧
        fs w' = fs w ∧ fs_calls w' = fs_calls w ++ [CallOpenIn (dataset a)] ∧
        sort_inputs w' = sort_inputs w ∧
        wall_reads w' = wall_reads w ∧ steady_reads w' = steady_reads w ∧
        (fs w !! dataset a = None ↔ e = "Failed to open: " +:+ dataset a).
Proof.
  intros Hparse Hload. eexists. split; [by apply main_load_throw|].
  wsimpl. repeat (split; [done|]).
  rewrite read_bin_int32_le_cases in Hload.
  destruct (fs w !! dataset a) as [node|]; [|split; [intros _|done]; congruence].
  cbv zeta in Hload. split; [done|]. intros ->. exfalso.
  destruct (istream_read 4 _) as [[header rest]|]; [|discriminate].
  destruct (istream_read _ rest) as [[payload [|x rest']]|]; discriminate.
Qed.

Lemma dataset_load_failure_witness :
  ∃ w', main Demo.env Demo.argv (set_fs ∅ Demo.world) = (1, w') ∧
        cerr w' = "Error: Failed to open: data/random_n3_seed1.bin" +:+ nl ∧
        cout w' = "" ∧ fs w' = ∅.
Proof.
  destruct (dataset_load_failure Demo.env Demo.argv (set_fs ∅ Demo.world)
              Demo.args "Failed to open: data/random_n3_seed1.bin")
    as (w' & Hmain & Herr & Hout & Hfs & _);
    [reflexivity | vm_compute; reflexivity |].
  exists w'. split; [exact Hmain|]. split; [exact Herr|].
  split; [exact Hout | exact Hfs].
Defined.

(** X17: a run changes or removes no file or directory other than the one
    at the place its log path names, however the paths are written, and
    creates nothing but the log and directories: in particular the dataset
    file is left as it is unless it lies where the log does.  A run whose
    options parse_args does not accept leaves the file system as it was. *)
Theorem main_touches_only_the_log (E : Env) (argv : list string) (w : World) :
  match fst (parse_args argv w) with
  | Ret a =>
      fs_extends (out a) (fs w) (fs (snd (main E argv w))) ∧
      (place (fs w) (dataset a) ≠ place (fs w) (out a) →
       ∀ c, stored (fs w) (dataset a) = Some (File c) →
            stored (fs (snd (main E argv w))) (dataset a) = Some (File c))
  | _ => fs (snd (main E argv w)) = fs w
  end.
Proof.
  pose proof (parse_args_cases argv w) as Hcases.
  destruct (parse_args argv w) as [[a|e|c] w1] eqn:Hparse; cbn [fst].
  - destruct Hcases as [-> _].
    assert (Hp : fst (parse_args argv w) = Ret a) by (by rewrite Hparse).
    assert (Hframe : fs_extends (out a) (fs w) (fs (snd (main E argv w)))).
    { destruct (fst (read_bin_int32_le (dataset a) w)) as [xs|e|c] eqn:Hload.
      - destruct (prepare_log (out a) (fs w)) as [t2|] eqn:Hlog.
        + destruct (main_run_ok E argv w a xs t2 Hp Hload Hlog)
            as (w' & Hmain & _ & _ & Hfs & _).
          rewrite Hmain. cbn [snd]. rewrite Hfs.
          by apply write_log_prepared_extends.
        + destruct (main_append_fail E argv w a xs Hp Hload Hlog)
            as (w' & Hmain & _ & _ & Hfs & _).
          rewrite Hmain. cbn [snd]. rewrite Hfs.
          apply dirs_added_extends, append_failure_added.
      - rewrite (main_load_throw E argv w a e Hp Hload). apply fs_extends_refl.
      - by apply read_bin_int32_le_no_exit in Hload. }
    split; [done|]. intros Hne c Hc. destruct Hframe as [Hcwd Hkeep].
    unfold stored in *. rewrite (place_cwd _ _ _ Hcwd).
    destruct (Hkeep _ Hne) as [->|[? _]]; [done | congruence].
  - destruct Hcases as [_ ->]. by rewrite (main_parse_throw E _ _ _ _ Hparse).
  - destruct Hcases as (_ & msg & _ & _ & ->).
    by rewrite (main_parse_exit E _ _ _ _ Hparse).
Qed.

(** X18: two runs, one after the other, on the same log.  When the first
    can open the log, a later run that finds the file system as the first
    left it can open it too, and the log then holds what it held before the
    first run (the header, when it did not exist), the lines of the rows of
    the first run and those of the rows of the second, with no header in
    between. *)
Theorem second_run_appends (E1 E2 : Env) (argv1 argv2 : list string)
    (w later : World) (a1 a2 : Args) (xs1 xs2 : list Z) :
  fst (parse_args argv1 w) = Ret a1 →
  fst (read_bin_int32_le (dataset a1) w) = Ret xs1 →
  is_Some (prepare_log (out a1) (fs w)) →
  fs later = fs (snd (main E1 argv1 w)) →
  fst (parse_args argv2 later) = Ret a2 →
  fst (read_bin_int32_le (dataset a2) later) = Ret xs2 →
  out a2 = out a1 →
  records E1 argv1 w a1 (run_rows E1 a1 xs1 w) ∧
  log_base (out a2) (fs later)
    = log_base (out a1) (fs w) +:+ row_lines (run_rows E1 a1 xs1 w) ∧
  ∃ w2, main E2 argv2 later = (0, w2) ∧
        cout w2 = cout later +:+ row_lines (run_rows E2 a2 xs2 later) ∧
        fs w2 !! out a1 =
          Some (File (log_base (out a1) (fs w)
                      +:+ row_lines (run_rows E1 a1 xs1 w)
                      +:+ row_lines (run_rows E2 a2 xs2 later))).
Proof.
  intros Hp1 Hl1 Hlog1 Hlater Hp2 Hl2 Hout.
  split; [by apply main_records|].
  destruct Hlog1 as [t1 Hlog1].
  destruct (main_run_ok E1 argv1 w a1 xs1 t1 Hp1 Hl1 Hlog1)
    as (w1 & Hmain1 & _ & _ & Hfs1' & Hfs1 & Hopen1 & _).
  rewrite Hmain1 in Hlater. cbn [snd] in Hlater.
  rewrite <- Hlater in Hfs1, Hopen1.
  assert (Hbase : log_base (out a2) (fs later)
                  = log_base (out a1) (fs w) +:+ row_lines (run_rows E1 a1 xs1 w)).
  { rewrite Hout. apply log_base_open; [apply Hopen1 | done]. }
  split; [done|].
  assert (Hlog2 : prepare_log (out a2) (fs later) = Some (fs later)).
  { rewrite Hout. by apply prepare_log_of_open. }
  destruct (main_run_ok E2 argv2 later a2 xs2 _ Hp2 Hl2 Hlog2)
    as (w2 & Hmain2 & Hout2 & _ & _ & Hfs2 & _).
  exists w2. split; [done|]. split; [done|].
  rewrite Hout in Hfs2. rewrite Hfs2. rewrite <- Hout at 1.
  by rewrite Hbase, append_assoc.
Qed.

Lemma second_run_appends_witness :
  ∃ w2,
    main Demo.env_broken Demo.argv
      (set_fs (fs (snd (main Demo.env Demo.argv Demo.world))) Demo.world)
      = (0, w2) ∧
    fs w2 !! "results/raw.csv" =
      Some (File (header_line
                  +:+ row_lines (run_rows Demo.env Demo.args [3; -1; 2] Demo.world)
                  +:+ row_lines (run_rows Demo.env_broken Demo.args [3; -1; 2]
                                   Demo.world))).
Proof.
  destruct (second_run_appends Demo.env Demo.env_broken Demo.argv Demo.argv
              Demo.world
              (set_fs (fs (snd (main Demo.env Demo.argv Demo.world))) Demo.world)
              Demo.args Demo.args [3; -1; 2] [3; -1; 2])
    as (_ & _ & w2 & H2 & _ & Hfs).
  - reflexivity.
  - vm_compute. reflexivity.
  - eexists. vm_compute. reflexivity.
  - vm_compute. reflexivity.
  - reflexivity.
  - vm_compute. reflexivity.
  - reflexivity.
  - exists w2. split; [exact H2 | exact Hfs].
Defined.

(** X19: a run that succeeds reads the wall clock once and the steady clock
    twice for each measured repetition and not at all during warmup: row i
    carries the text of wall reading number i of the run as its timestamp,
    and as its time the difference of steady readings 2i+1 and 2i, in
    milliseconds with three decimals. *)
Theorem run_clock_readings (E : Env) (argv : list string) (w : World)
    (a : Args) (xs : list Z) :
  fst (parse_args argv w) = Ret a →
  fst (read_bin_int32_le (dataset a) w) = Ret xs →
  is_Some (prepare_log (out a) (fs w)) →
  records E argv w a (run_rows E a xs w) ∧
  wall_reads (snd (main E argv w)) = (wall_reads w + Z.to_nat (reps a))%nat ∧
  steady_reads (snd (main E argv w))
    = (steady_reads w + 2 * Z.to_nat (reps a))%nat ∧
  length (run_rows E a xs w) = Z.to_nat (reps a) ∧
  ∀ i, (i < Z.to_nat (reps a))%nat →
    ∃ row, run_rows E a xs w !! i = Some row ∧
      row !! 0%nat = Some (put_time (wall_clock E (wall_reads w + i))) ∧
      row !! 10%nat =
        Some (fixed3 (duration_ms
                (steady_clock E (steady_reads w + 2 * i + 1)
                 - steady_clock E (steady_reads w + 2 * i)))).
Proof.
  intros Hparse Hload Hlog.
  split; [by apply main_records|]. destruct Hlog as [t2 Hlog].
  destruct (main_run_ok E argv w a xs t2 Hparse Hload Hlog)
    as (w' & Hmain & _ & _ & _ & _ & _ & Hwall & Hst).
  rewrite Hmain. cbn [snd]. split; [done|]. split; [done|].
  split; [apply run_rows_length|].
  intros i Hi. eexists. split; [by apply run_rows_lookup|].
  unfold measured_row, make_row. cbn [lookup list_lookup].
  by rewrite Nat.add_1_r.
Qed.

Lemma run_clock_readings_witness :
  wall_reads (snd (main Demo.env Demo.argv Demo.world)) = 2%nat ∧
  steady_reads (snd (main Demo.env Demo.argv Demo.world)) = 4%nat.
Proof.
  destruct (run_clock_readings Demo.env Demo.argv Demo.world Demo.args [3; -1; 2])
    as (_ & Hwall & Hst & _).
  - reflexivity.
  - vm_compute. reflexivity.
  - eexists. vm_compute. reflexivity.
  - split; [exact Hwall | exact Hst].
Defined.

(** X20: fields are written as they are.  The line of each row of a run
    holds eleven commas and one line feed of its own and, besides, those of
    the dataset path and of the label taken from it: a row is one line of
    twelve comma-separated fields exactly when the dataset path holds
    neither a comma nor a line feed. *)
Theorem row_separator_count (E : Env) (argv : list string) (w : World)
    (a : Args) (xs : list Z) :
  fst (parse_args argv w) = Ret a →
  fst (read_bin_int32_le (dataset a) w) = Ret xs →
  is_Some (prepare_log (out a) (fs w)) →
  records E argv w a (run_rows E a xs w) ∧
  length (run_rows E a xs w) = Z.to_nat (reps a) ∧
  ∀ i, (i < Z.to_nat (reps a))%nat →
    ∃ row, run_rows E a xs w !! i = Some row ∧
      count_char "," (row_line row) =
        (11 + count_char "," (dataset a)
         + count_char "," (infer_distribution (dataset a)))%nat ∧
      count_char "010" (row_line row) =
        (1 + count_char "010" (dataset a)
         + count_char "010" (infer_distribution (dataset a)))%nat ∧
      (count_char "," (row_line row) = 11%nat ∧
       count_char "010" (row_line row) = 1%nat ↔
       count_char "," (dataset a) = 0%nat ∧ count_char "010" (dataset a) = 0%nat).
Proof.
  intros Hparse Hload Hlog.
  split; [by apply main_records|]. split; [apply run_rows_length|].
  destruct (parse_args_ret _ _ _ Hparse) as (_ & _ & _ & _ & Halgo).
  intros i Hi. eexists. split; [by apply run_rows_lookup|].
  unfold measured_row.
  rewrite !(count_separator_make_row ","), !(count_separator_make_row "010"),
    Halgo by first [by left | by right].
  change (count_char "," "builtin") with 0%nat.
  change (count_char "010" "builtin") with 0%nat.
  change (Ascii.eqb "," ",") with true. change (Ascii.eqb "010" ",") with false.
  split; [lia|]. split; [lia|]. split; [lia|].
  intros [Hc Hn].
  rewrite Hc, Hn, (count_separator_infer_distribution ","),
    (count_separator_infer_distribution "010")
    by first [done | by left | by right].
  lia.
Qed.

Lemma row_separator_count_witness :
  ∃ row, run_rows Demo.env Demo.args [3; -1; 2] Demo.world !! 1%nat = Some row ∧
         count_char "," (row_line row) = 11%nat ∧
         count_char "010" (row_line row) = 1%nat.
Proof.
  destruct (row_separator_count Demo.env Demo.argv Demo.world Demo.args [3; -1; 2])
    as (_ & _ & Hrows).
  - reflexivity.
  - vm_compute. reflexivity.
  - eexists. vm_compute. reflexivity.
  - destruct (Hrows 1%nat) as (row & Hrow & _ & _ & Hiff); [cbn; lia|].
    exists row. split; [exact Hrow|]. apply Hiff. split; reflexivity.
Defined.

(** X21: the n field of every row of a run is the number of values loaded
    when that is below 2^31; a dataset of 2^31 values or more (the header
    allows up to 2^32 - 1) is recorded with the count wrapped to a negative
    int. *)
Theorem row_element_count (E : Env) (argv : list string) (w : World)
    (a : Args) (xs : list Z) :
  fst (parse_args argv w) = Ret a →
  fst (read_bin_int32_le (dataset a) w) = Ret xs →
  is_Some (prepare_log (out a) (fs w)) →
  records E argv w a (run_rows E a xs w) ∧
  length (run_rows E a xs w) = Z.to_nat (reps a) ∧
  Z.of_nat (length xs) < 2^32 ∧
  ∀ i, (i < Z.to_nat (reps a))%nat →
    ∃ row, run_rows E a xs w !! i = Some row ∧
      row !! 7%nat =
        Some (to_string (if Z.of_nat (length xs) <? 2^31
                         then Z.of_nat (length xs)
                         else Z.of_nat (length xs) - 2^32)).
Proof.
  intros Hparse Hload Hlog.
  split; [by apply main_records|]. split; [apply run_rows_length|].
  destruct (read_bin_int32_le_ret_inv _ _ _ Hload) as (_ & _ & Hlen).
  split; [done|].
  intros i Hi. eexists. split; [by apply run_rows_lookup|].
  unfold measured_row, make_row. cbn [lookup list_lookup]. do 2 f_equal.
  unfold wrap_int. destruct (Z.ltb_spec (Z.of_nat (length xs)) (2^31)).
  - rewrite Z.mod_small by lia. lia.
  - replace (Z.of_nat (length xs) + 2^31)
      with (Z.of_nat (length xs) - 2^31 + 1 * 2^32) by lia.
    rewrite Z.mod_add by lia. rewrite Z.mod_small by lia. lia.
Qed.

Lemma row_element_count_witness :
  ∃ row, run_rows Demo.env Demo.args [3; -1; 2] Demo.world !! 0%nat = Some row ∧
         row !! 7%nat = Some "3"%string.
Proof.
  destruct (row_element_count Demo.env Demo.argv Demo.world Demo.args [3; -1; 2])
    as (_ & _ & _ & Hrows).
  - reflexivity.
  - vm_compute. reflexivity.
  - eexists. vm_compute. reflexivity.
  - destruct (Hrows 0%nat) as (row & Hrow & Hn); [cbn; lia|].
    exists row. split; [exact Hrow | exact Hn].
Defined.

(** X22: when the steady clock does not run backwards, the time field of
    every row of a run is unsigned: at least one digit, the point, three
    digits. *)
Theorem time_field_unsigned (E : Env) (argv : list string) (w : World)
    (a : Args) (xs : list Z) :
  fst (parse_args argv w) = Ret a →
  fst (read_bin_int32_le (dataset a) w) = Ret xs →
  is_Some (prepare_log (out a) (fs w)) →
  (∀ k, steady_clock E k <= steady_clock E (S k)) →
  records E argv w a (run_rows E a xs w) ∧
  length (run_rows E a xs w) = Z.to_nat (reps a) ∧
  ∀ i, (i < Z.to_nat (reps a))%nat →
    ∃ row whole d1 d2 d3,
      run_rows E a xs w !! i = Some row ∧
      row !! 10%nat = Some (whole +:+ "." +:+ String d1 (String d2 (String d3 ""))) ∧
      whole ≠ "" ∧ all_digits whole = true ∧
      is_digit d1 = true ∧ is_digit d2 = true ∧ is_digit d3 = true.
Proof.
  intros Hparse Hload Hlog Hmono.
  split; [by apply main_records|]. split; [apply run_rows_length|].
  intros i Hi.
  set (t := duration_ms (steady_clock E (S (steady_reads w + 2 * i))
                         - steady_clock E (steady_reads w + 2 * i))).
  destruct (fixed3_shape t) as (whole & d1 & d2 & d3 & Heq & Hshape).
  assert (Hneg : d_neg t = false).
  { unfold t. rewrite d_neg_duration_ms. apply Z.ltb_ge.
    specialize (Hmono (steady_reads w + 2 * i)%nat). lia. }
  rewrite Hneg in Heq.
  exists (measured_row E a xs (wall_reads w) (steady_reads w) i), whole, d1, d2, d3.
  split; [by apply run_rows_lookup|]. split; [|done].
  unfold measured_row, make_row. cbn [lookup list_lookup]. fold t.
  by rewrite Heq.
Qed.

Lemma time_field_unsigned_witness :
  ∃ row whole d1 d2 d3,
    run_rows Demo.env Demo.args [3; -1; 2] Demo.world !! 0%nat = Some row ∧
    row !! 10%nat = Some (whole +:+ "." +:+ String d1 (String d2 (String d3 ""))).
Proof.
  destruct (time_field_unsigned Demo.env Demo.argv Demo.world Demo.args [3; -1; 2])
    as (_ & _ & Hrows).
  - reflexivity.
  - vm_compute. reflexivity.
  - eexists. vm_compute. reflexivity.
  - intros k. cbn. lia.
  - destruct (Hrows 0%nat) as (row & whole & d1 & d2 & d3 & Hrow & Htime & _);
      [cbn; lia|].
    exists row, whole, d1, d2, d3. split; [exact Hrow | exact Htime].
Defined.

(** X23: the time field is the elapsed tick count (nanoseconds) rounded to
    the nearest microsecond and shown in milliseconds with three decimals:
    for an elapsed time of 1000 u + r nanoseconds, below 2^53 and with r
    between -498 and 498, it is u / 1000, the point, and u mod 1000 as
    three digits.  Whole microseconds and whole milliseconds are therefore
    printed exactly. *)
Theorem time_field_microseconds (E : Env) (argv : list string) (w : World)
    (a : Args) (xs : list Z) :
  fst (parse_args argv w) = Ret a →
  fst (read_bin_int32_le (dataset a) w) = Ret xs →
  is_Some (prepare_log (out a) (fs w)) →
  records E argv w a (run_rows E a xs w) ∧
  length (run_rows E a xs w) = Z.to_nat (reps a) ∧
  ∀ i u r, (i < Z.to_nat (reps a))%nat →
    steady_clock E (steady_reads w + 2 * i + 1)
      - steady_clock E (steady_reads w + 2 * i) = 1000 * u + r →
    0 <= 1000 * u + r < 2^53 → -498 <= r <= 498 →
    ∃ row, run_rows E a xs w !! i = Some row ∧
      row !! 10%nat = Some (to_string (u / 1000) +:+ "." +:+ pad3 (u mod 1000)).
Proof.
  intros Hparse Hload Hlog.
  split; [by apply main_records|]. split; [apply run_rows_length|].
  intros i u r Hi Hticks Hrange Hr.
  eexists. split; [by apply run_rows_lookup|].
  unfold measured_row, make_row. cbn [lookup list_lookup]. f_equal.
  rewrite Nat.add_1_r in Hticks. rewrite Hticks.
  by apply (fixed3_duration_ms _ u r).
Qed.

Lemma time_field_microseconds_witness :
  ∃ row, run_rows Demo.env Demo.args [3; -1; 2] Demo.world !! 0%nat = Some row ∧
         row !! 10%nat = Some "1.235"%string.
Proof.
  destruct (time_field_microseconds Demo.env Demo.argv Demo.world Demo.args
              [3; -1; 2])
    as (_ & _ & Hrows).
  - reflexivity.
  - vm_compute. reflexivity.
  - eexists. vm_compute. reflexivity.
  - apply (Hrows 0%nat 1235 (-433)).
    + cbn. lia.
    + reflexivity.
    + lia.
    + lia.
Defined.

(** X24: the console carries rows and nothing else, the error stream
    carries the messages.  What a run adds to the console are the lines of
    all its rows when it ends with status 0, the line of its first row when
    the log cannot be prepared, and nothing when the options are rejected
    or the dataset does not load.  A run that ends with status 0 has
    written nothing to the error stream; a run that ends otherwise has
    written a message there. *)
Theorem console_streams (E : Env) (argv : list string) (w : World) :
  cout (snd (main E argv w)) = cout w +:+
    match fst (parse_args argv w) with
    | Ret a =>
        match fst (read_bin_int32_le (dataset a) w) with
        | Ret xs =>
            match prepare_log (out a) (fs w) with
            | Some _ => row_lines (run_rows E a xs w)
            | None =>
                row_line (measured_row E a xs (wall_reads w) (steady_reads w) 0)
            end
        | _ => ""
        end
    | _ => ""
    end ∧
  (fst (main E argv w) = 0 → cerr (snd (main E argv w)) = cerr w) ∧
  (fst (main E argv w) ≠ 0 →
     ∃ msg, msg ≠ "" ∧ cerr (snd (main E argv w)) = cerr w +:+ msg).
Proof.
  assert (Herror : ∀ what, "Error: " +:+ what +:+ nl ≠ "") by done.
  pose proof (parse_args_cases argv w) as Hcases.
  destruct (parse_args argv w) as [[a|e|c] w1] eqn:Hparse; cbn [fst].
  - assert (Hp : fst (parse_args argv w) = Ret a) by (by rewrite Hparse).
    destruct (fst (read_bin_int32_le (dataset a) w)) as [xs|e|c] eqn:Hload.
    + destruct (prepare_log (out a) (fs w)) as [t2|] eqn:Hlog.
      * destruct (main_run_ok E argv w a xs t2 Hp Hload Hlog)
          as (w' & -> & Hout & Herr & _).
        split; [exact Hout|]. split; [done|]. by intros [].
      * destruct (main_append_fail E argv w a xs Hp Hload Hlog)
          as (w' & -> & Hout & Herr & _).
        split; [exact Hout|]. split; [done|]. intros _. by eexists.
    + rewrite (main_load_throw E argv w a e Hp Hload).
      split; [by rewrite append_nil_r|]. split; [done|].
      intros _. by eexists.
    + by apply read_bin_int32_le_no_exit in Hload.
  - destruct Hcases as [_ ->]. rewrite (main_parse_throw E _ _ _ _ Hparse).
    split; [by rewrite append_nil_r|]. split; [done|].
    intros _. by eexists.
  - destruct Hcases as (-> & msg & Hmsg & _ & ->).
    rewrite (main_parse_exit E _ _ _ _ Hparse).
    split; [by rewrite append_nil_r|]. split; [done|].
    intros _. by exists msg.
Qed.
